(** * baby-games: the incremental turn processor and its audio pipeline

    A shallow embedding of the streaming chat core of the repository:

    - [JsString]: the string primitives [processStream] relies on
      (UTF-16 code units, [includes], [replace], [trim], the two
      [IMAGE] regular expressions and the sentence delimiter scan);
    - [Double]: the rounding of IEEE 754 binary64 arithmetic;
    - [Decoder]: [decodeAudioData] of the Gemini service
      (16-bit little-endian PCM to normalised samples);
    - [Audio]: the module-level state of the Gemini service
      ([audioContext], [activeSources], [nextStartTime], [latestTTSId],
      [audioQueue]), [stopAudio], [playTTS] and the process task that
      [playTTS] chains on the queue, as a transition system whose
      events are the resumptions of the task at its [await]s, the calls
      of the application and the device;
    - [Turn]: [processStream] of [App.tsx], one loop iteration per
      token increment, with the effects it performs;
    - [App]: the sequence id of the application, the interruption of
      [handleSendMessage] and the timer that ends the speaking state;
    - [Chat]: the messages of the chat and the updates of a turn;
    - [Keys]: the API key, its storage and the client made with it;
    - [Image]: the cleaning of an image prompt and [generateImage];
    - [Words]: the shuffle of [getRandomWords].

    The properties follow the definitions: the rounding, the decoder,
    what every step of the service preserves, tasks whose id is out of
    date, the invariant of the scheduling lane, the application, the
    string primitives, the segmenter and the directives; then what a
    decoded buffer is, the calls and the messages of a turn, the order of
    the started sources, what [stopAudio] silences, the API key, the image
    prompt and the shuffle.

    A JavaScript number is the rational it denotes, and what the code
    computes with [+], [-], [*] and [/] is rounded to the nearest double
    ([Double.round]); infinities and NaN are not modelled: no number of
    the program comes near 2^1024. JavaScript runs one callback at a
    time: a process task is only interleaved with other code at its
    [await]s. The page never suspends a running [AudioContext]. *)

From Stdlib Require Import ZArith QArith Qminmax Qround Qpower Lia Lqa List Bool.
From Stdlib Require Import Floats.PrimFloat Floats.SpecFloat Floats.FloatOps.
From Stdlib Require Import Strings.String Strings.Ascii Strings.Byte.
From stdpp Require Import base option list gmap.
Import ListNotations.
Open Scope Z_scope.

(* ===================================================================== *)
(** ** JavaScript strings *)
(* ===================================================================== *)

Module JsString.

(** A JavaScript string is a sequence of UTF-16 code units. *)
Abbreviation jsstring := (list Z).

(** An ASCII literal as code units. *)
Definition lit (s : string) : jsstring :=
  List.map (fun a => Z.of_nat (nat_of_ascii a)) (list_ascii_of_string s).

(** ECMAScript WhiteSpace and LineTerminator code points: what [\s] matches
    and what [trim] and [trimStart] remove. *)
Definition isLineTerminator (c : Z) : bool :=
  (c =? 0x0A) || (c =? 0x0D) || (c =? 0x2028) || (c =? 0x2029).

Definition isWhiteSpace (c : Z) : bool :=
  (c =? 0x09) || (c =? 0x0B) || (c =? 0x0C) || (c =? 0x20) || (c =? 0xA0)
  || (c =? 0x1680) || ((0x2000 <=? c) && (c <=? 0x200A))
  || (c =? 0x202F) || (c =? 0x205F) || (c =? 0x3000) || (c =? 0xFEFF)
  || isLineTerminator c.

Fixpoint startsWith (pat s : jsstring) : bool :=
  match pat, s with
  | [], _ => true
  | p :: pat', c :: s' => (p =? c) && startsWith pat' s'
  | _ :: _, [] => false
  end.

(** [String.prototype.indexOf]; [None] stands for -1. *)
Fixpoint indexOf (s pat : jsstring) : option nat :=
  if startsWith pat s then Some 0%nat
  else match s with
       | [] => None
       | _ :: s' => S <$> indexOf s' pat
       end.

Definition includes (s pat : jsstring) : bool :=
  match indexOf s pat with Some _ => true | None => false end.

(** Removal of [len] code units at [i]: [replace] with the empty
    replacement, once the match is known. *)
Definition cut (i len : nat) (s : jsstring) : jsstring :=
  take i s ++ drop (i + len) s.

(** [s.replace(pat, "")] with a string pattern: only the first occurrence. *)
Definition replace (s pat : jsstring) : jsstring :=
  match indexOf s pat with
  | Some i => cut i (length pat) s
  | None => s
  end.

Fixpoint trimStart (s : jsstring) : jsstring :=
  match s with
  | c :: s' => if isWhiteSpace c then trimStart s' else s
  | [] => []
  end.

Definition trimEnd (s : jsstring) : jsstring := rev (trimStart (rev s)).

Definition trim (s : jsstring) : jsstring := trimEnd (trimStart s).

(** [substring(a, b)]: indices are clamped to the string and swapped when
    out of order. *)
Definition substring (s : jsstring) (a b : Z) : jsstring :=
  let lo := Z.to_nat (Z.min a b) in
  let hi := Z.to_nat (Z.max a b) in
  take (hi - lo) (drop lo s).

(** [substring(a)]. *)
Definition substringFrom (s : jsstring) (a : Z) : jsstring :=
  drop (Z.to_nat a) s.

(** *** The directive markers *)

Definition CORRECT : jsstring := lit "[CORRECT]".
Definition IMAGE_OPEN : jsstring := lit "[IMAGE:".
Definition RBRACKET : Z := 0x5D.

(** A successful match of a regular expression without the [g] flag. *)
Record RegExpMatch := {
  index : nat;          (* [match.index] *)
  extent : nat;         (* length of [match[0]] *)
  group1 : jsstring     (* [match[1]] *)
}.

(** [(.*?)\]] from the current position: the lazy group grows one code
    unit at a time, [.] refuses line terminators, and the first [']'] that
    is reached ends the match. The result is the length of the group. *)
Fixpoint lazyToBracket (s : jsstring) : option nat :=
  match s with
  | [] => None
  | c :: s' =>
      if c =? RBRACKET then Some 0%nat
      else if isLineTerminator c then None
      else S <$> lazyToBracket s'
  end.

(** [/\[IMAGE:\s*(.*?)\]/] anchored at the start of [s]. The greedy [\s*]
    takes the whole white-space run; giving some of it back only makes
    [.] walk over the same code units, so no shorter run succeeds where
    the longest fails. *)
Definition imageRegexAt (s : jsstring) : option (nat * jsstring) :=
  if startsWith IMAGE_OPEN s then
    let rest := drop (length IMAGE_OPEN) s in
    let body := trimStart rest in
    k ← lazyToBracket body;
    Some ((length IMAGE_OPEN + (length rest - length body) + k + 1)%nat,
          take k body)
  else None.

(** [/\[IMAGE:.*?\]/] anchored at the start of [s]. *)
Definition imageTagAt (s : jsstring) : option (nat * jsstring) :=
  if startsWith IMAGE_OPEN s then
    let rest := drop (length IMAGE_OPEN) s in
    k ← lazyToBracket rest;
    Some ((length IMAGE_OPEN + k + 1)%nat, take k rest)
  else None.

(** Leftmost match of an anchored matcher, as [String.prototype.match]
    and [replace] search for it. *)
Fixpoint search (rx : jsstring -> option (nat * jsstring)) (s : jsstring)
  : option RegExpMatch :=
  match rx s with
  | Some (len, g) => Some {| index := 0; extent := len; group1 := g |}
  | None =>
      match s with
      | [] => None
      | _ :: s' =>
          (fun m => {| index := S (index m); extent := extent m;
                       group1 := group1 m |}) <$> search rx s'
      end
  end.

(** [s.replace(rx, "")] with a regular expression without the [g] flag. *)
Definition replaceRegex (rx : jsstring -> option (nat * jsstring))
  (s : jsstring) : jsstring :=
  match search rx s with
  | Some m => cut (index m) (extent m) s
  | None => s
  end.

(** A match seen from [n] code units further left. *)
Definition shift (n : nat) (m : RegExpMatch) : RegExpMatch :=
  {| index := n + index m; extent := extent m; group1 := group1 m |}.

(** Matchers whose matches start with [[IMAGE:] and end with a closing
    bracket: both image expressions are of this kind. *)
Definition opens (rx : jsstring -> option (nat * jsstring)) : Prop :=
  forall t, rx t <> None -> startsWith IMAGE_OPEN t = true.

Definition bracketed (rx : jsstring -> option (nat * jsstring)) : Prop :=
  forall s len g, rx s = Some (len, g) ->
    exists n, len = S n /\ s !! n = Some RBRACKET.

(** *** Sentence delimiters *)

(** The character class of [/([。！？!?.])/g]. *)
Definition isDelimiter (c : Z) : bool :=
  (c =? 0x3002) || (c =? 0xFF01) || (c =? 0xFF1F)
  || (c =? 0x21) || (c =? 0x3F) || (c =? 0x2E).

(** The [while ((match = delimiters.exec(buffer)) !== null)] loop: every
    match overwrites [lastIndex] with its position; [i] is the position of
    the head of [s] in the buffer. *)
Fixpoint scanDelimiters (s : jsstring) (i lastIndex : Z) : Z :=
  match s with
  | [] => lastIndex
  | c :: s' => scanDelimiters s' (i + 1) (if isDelimiter c then i else lastIndex)
  end.

Definition lastDelimiter (buffer : jsstring) : Z := scanDelimiters buffer 0 (-1).

End JsString.

(* ===================================================================== *)
(** ** The PCM decoder *)
(* ===================================================================== *)
(** ** JavaScript numbers *)
(* ===================================================================== *)

Module Double.

(** A finite double is a rational [m * 2^e] with [|m| < 2^53] and
    [-1074 <= e]. The result of an arithmetic operation is the exact
    result rounded to the nearest double, ties to the even mantissa. *)
Definition pow2 (e : Z) : Q := (2 ^ e)%Q.

(** The binade of a positive rational: [floor (log2 x)]. *)
Definition ilog2 (x : Q) : Z :=
  let a := Z.log2 (Qnum x) - Z.log2 (Zpos (Qden x)) in
  if Qle_bool (pow2 a) x then a else a - 1.

(** The nearest integer, ties to even. *)
Definition roundEven (q : Q) : Z :=
  let f := Qfloor q in
  match (q - inject_Z f ?= 1 # 2)%Q with
  | Lt => f
  | Gt => f + 1
  | Eq => if Z.even f then f else f + 1
  end.

(** The exponent of the last place: 53 bits of mantissa, and no exponent
    below that of the subnormal numbers. *)
Definition exponent (x : Q) : Z := Z.max (ilog2 x - 52) (-1074).

(** The double nearest to a positive rational. *)
Definition nearest (x : Q) : Q :=
  let e := exponent x in (inject_Z (roundEven (x / pow2 e)) * pow2 e)%Q.

Definition round (x : Q) : Q :=
  match (x ?= 0)%Q with
  | Eq => 0%Q
  | Gt => nearest x
  | Lt => (- nearest (- x))%Q
  end.

(** Is the rational a double? *)
Definition finite (x : Q) : Prop := (round x == x)%Q.

(** The value of one of the kernel's binary64 floats, to compare [round]
    with the arithmetic of the machine. *)
Definition ofSpec (f : spec_float) : option Q :=
  match f with
  | S754_zero _ => Some 0%Q
  | S754_finite s m e =>
      Some ((if s then - 1 else 1) * inject_Z (Zpos m) * pow2 e)%Q
  | _ => None
  end.

Definition ofFloat (f : float) : option Q := ofSpec (Prim2SF f).

End Double.

(* ===================================================================== *)

Module Decoder.

Record AudioBuffer := {
  numberOfChannels : nat;
  frames : nat;                     (* [buffer.length] *)
  sampleRate : Z;
  channelData : list (list Q)       (* one list of samples per channel *)
}.

(** The length of the buffer in seconds; [buffer.duration] is the double
    nearest to it. *)
Definition duration (b : AudioBuffer) : Q :=
  inject_Z (Z.of_nat (frames b)) / inject_Z (sampleRate b).

(** What [createBuffer] accepts depends on the implementation: the largest
    number of channels and the range of sample rates of the context. *)
Record Limits := {
  maxChannels : nat;
  minRate : Z;
  maxRate : Z
}.

(** Every implementation supports at least 32 channels and the sample
    rates from 8000 to 96000. *)
Definition conforming (ctx : Limits) : Prop :=
  (32 <= maxChannels ctx)%nat /\ 0 < minRate ctx <= 8000 /\ 96000 <= maxRate ctx.

Definition standard : Limits :=
  {| maxChannels := 32; minRate := 8000; maxRate := 96000 |}.

(** Does [ctx.createBuffer(numberOfChannels, length, sampleRate)] return?
    It raises [NotSupportedError] when an argument is zero, negative or
    outside its range. *)
Definition createBuffer (ctx : Limits) (numberOfChannels length : nat)
  (sampleRate : Z) : bool :=
  (1 <=? numberOfChannels)%nat && (numberOfChannels <=? maxChannels ctx)%nat
  && (1 <=? length)%nat
  && (0 <? sampleRate) && (minRate ctx <=? sampleRate)
  && (sampleRate <=? maxRate ctx).

Definition byteZ (b : byte) : Z := Z.of_N (Byte.to_N b).

(** One element of an [Int16Array] over little-endian storage: two's
    complement on 16 bits. *)
Definition toInt16 (lo hi : byte) : Z :=
  let u := Z.lor (byteZ lo) (Z.shiftl (byteZ hi) 8) in
  if u <? 32768 then u else u - 65536.

(** [new Int16Array(data.buffer)]: a [RangeError] ([None]) when the byte
    length is odd. *)
Fixpoint int16Array (data : list byte) : option (list Z) :=
  match data with
  | [] => Some []
  | [_] => None
  | lo :: hi :: rest => (fun l => toInt16 lo hi :: l) <$> int16Array rest
  end.

(** The inner loop body: [dataInt16[i * numChannels + channel] / 32768.0].
    The quotient of a 16-bit integer by a power of two is exact in a
    [Float32Array], so the sample is this rational. *)
Definition sample (dataInt16 : list Z) (numChannels channel i : nat) : Q :=
  Qmake (nth (i * numChannels + channel) dataInt16 0) 32768.

(** [decodeAudioData(data, ctx, sampleRate, numChannels)]. The length
    argument of [createBuffer] is an integer, so a fractional [frameCount]
    is truncated and the writes past it are dropped. *)
Definition decodeAudioData (data : list byte) (ctx : Limits) (sampleRate : Z)
  (numChannels : nat) : option AudioBuffer :=
  dataInt16 ← int16Array data;
  let frameCount := (length dataInt16 / numChannels)%nat in
  if createBuffer ctx numChannels frameCount sampleRate then
    Some {|
      numberOfChannels := numChannels;
      frames := frameCount;
      sampleRate := sampleRate;
      channelData :=
        List.map (fun channel =>
                    List.map (sample dataInt16 numChannels channel)
                             (seq 0 frameCount))
                 (seq 0 numChannels)
    |}
  else None.

(** The call sites pass neither [sampleRate] nor [numChannels]; every
    context accepts the defaults. *)
Definition decodeAudioDataDefault (data : list byte) : option AudioBuffer :=
  decodeAudioData data standard 24000 1.

(** The range of a signed 16-bit integer and of a normalised sample. *)
Definition int16 (k : Z) : Prop := -32768 <= k < 32768.

Definition normalised (x : Q) : Prop := (-1 <= x)%Q /\ (x < 1)%Q.

End Decoder.

(* ===================================================================== *)
(** ** The Gemini service: audio state, [stopAudio], [playTTS] *)
(* ===================================================================== *)

Module Audio.
Import JsString Decoder.

(** The part of an [AudioContext] the service reads: the device clock and
    whether the context is still suspended. [resume()] promises are settled
    together, in call order, when the context starts running;
    [resumeWaiters] lists the tasks that are awaiting one. *)
Record AudioContext := {
  currentTime : Q;
  suspended : bool;
  resumeWaiters : list nat
}.

(** The module-level variables of the service. [audioQueue] is the promise
    the next process task is chained on: [None] is [Promise.resolve()],
    [Some t] the process task of request [t]. *)
Record Service := {
  ai : bool;
  currentApiKey : bool;
  audioContext : option AudioContext;
  activeSources : gset nat;
  nextStartTime : Q;
  latestTTSId : Z;
  audioQueue : option nat
}.

Definition initialService (hasKey : bool) : Service := {|
  ai := false;
  currentApiKey := hasKey;
  audioContext := None;
  activeSources := ∅;
  nextStartTime := 0;
  latestTTSId := 0;
  audioQueue := None
|}.

Definition initializeGemini (s : Service) : Service :=
  if currentApiKey s then
    {| ai := true; currentApiKey := currentApiKey s;
       audioContext := audioContext s; activeSources := activeSources s;
       nextStartTime := nextStartTime s; latestTTSId := latestTTSId s;
       audioQueue := audioQueue s |}
  else s.

(** [stopAudio]. The [source.stop()] and [source.disconnect()] calls act on
    the device only. *)
Definition stopAudio (s : Service) : Service := {|
  ai := ai s;
  currentApiKey := currentApiKey s;
  audioContext := audioContext s;
  activeSources := ∅;
  nextStartTime :=
    match audioContext s with Some _ => 0 | None => nextStartTime s end;
  latestTTSId := latestTTSId s + 1;
  audioQueue := None
|}.

Definition getAudioEndTime (s : Service) : Q :=
  match audioContext s with None => 0 | Some _ => nextStartTime s end.

Definition getCurrentTime (s : Service) : Q :=
  match audioContext s with None => 0 | Some c => currentTime c end.

(** *** Process tasks *)

(** Where a process task is suspended. *)
Inductive Pc :=
| Queued                                   (* the [audioQueue.then] callback has not run *)
| AwaitResume                              (* [await audioContext.resume()] *)
| AwaitResponse                            (* [await responsePromise] *)
| AwaitChunk (isFirstChunk : bool)         (* [for await (const chunk of responseStream)] *)
| AwaitDecode (isFirstChunk : bool) (decoded : option AudioBuffer)
                                           (* [await decodeAudioData(...)] *)
| Done.

Record Task := {
  text : jsstring;
  onStart : bool;                (* was an [onStart] callback passed? *)
  shouldInterrupt : bool;
  myId : Z;
  waitsOn : option nat;          (* the promise [then] was called on *)
  pc : Pc
}.

Definition at_pc (t : Task) (p : Pc) : Task := {|
  text := text t; onStart := onStart t; shouldInterrupt := shouldInterrupt t;
  myId := myId t; waitsOn := waitsOn t; pc := p
|}.

(** A [source.start(startTime)] call as the output sink sees it. *)
Record Unit := {
  source : nat;
  task : nat;
  owner : Z;                     (* [myId] of the task *)
  start : Q;
  lasts : Q                      (* [audioBuffer.duration] *)
}.

Record System := {
  svc : Service;
  autoplayBlocked : bool;        (* does a new [AudioContext] start suspended? *)
  tasks : list Task;
  sink : list Unit;              (* [source.start] calls, oldest first *)
  speakingStarts : list nat      (* tasks whose [onStart] ran, oldest first *)
}.

Definition initial (hasKey blocked : bool) : System := {|
  svc := initialService hasKey;
  autoplayBlocked := blocked;
  tasks := [];
  sink := [];
  speakingStarts := []
|}.

Definition with_svc (sys : System) (s : Service) : System := {|
  svc := s; autoplayBlocked := autoplayBlocked sys; tasks := tasks sys;
  sink := sink sys; speakingStarts := speakingStarts sys
|}.

Definition with_tasks (sys : System) (ts : list Task) : System := {|
  svc := svc sys; autoplayBlocked := autoplayBlocked sys; tasks := ts;
  sink := sink sys; speakingStarts := speakingStarts sys
|}.

Definition set_pc (sys : System) (t : nat) (p : Pc) : System :=
  with_tasks sys (alter (fun k => at_pc k p) t (tasks sys)).

Definition with_context (s : Service) (c : AudioContext) : Service := {|
  ai := ai s; currentApiKey := currentApiKey s; audioContext := Some c;
  activeSources := activeSources s; nextStartTime := nextStartTime s;
  latestTTSId := latestTTSId s; audioQueue := audioQueue s
|}.

Definition with_cursor (s : Service) (x : Q) : Service := {|
  ai := ai s; currentApiKey := currentApiKey s; audioContext := audioContext s;
  activeSources := activeSources s; nextStartTime := x;
  latestTTSId := latestTTSId s; audioQueue := audioQueue s
|}.

Definition with_sources (s : Service) (a : gset nat) : Service := {|
  ai := ai s; currentApiKey := currentApiKey s; audioContext := audioContext s;
  activeSources := a; nextStartTime := nextStartTime s;
  latestTTSId := latestTTSId s; audioQueue := audioQueue s
|}.

Definition with_queue (s : Service) (q : option nat) : Service := {|
  ai := ai s; currentApiKey := currentApiKey s; audioContext := audioContext s;
  activeSources := activeSources s; nextStartTime := nextStartTime s;
  latestTTSId := latestTTSId s; audioQueue := q
|}.

(** [playTTS(text, onStart, shouldInterrupt)] up to its [return]: the
    request is sent at once, its processing is chained on [audioQueue]. *)
Definition playTTS (txt : jsstring) (cb interrupt : bool) (sys : System)
  : System :=
  let s1 := if interrupt then stopAudio (svc sys) else svc sys in
  let id := latestTTSId s1 in
  let s2 := if ai s1 then s1 else initializeGemini s1 in
  if ai s2 then
    let t := length (tasks sys) in
    let k := {| text := txt; onStart := cb; shouldInterrupt := interrupt;
                myId := id; waitsOn := audioQueue s2; pc := Queued |} in
    with_tasks (with_svc sys (with_queue s2 (Some t))) (tasks sys ++ [k])
  else with_svc sys s2.

(** Has the promise a task is chained on been fulfilled? A process task
    never rejects: its body is one [try]/[catch]. *)
Definition settled (sys : System) (w : option nat) : bool :=
  match w with
  | None => true
  | Some p =>
      match tasks sys !! p with
      | Some k => match pc k with Done => true | _ => false end
      | None => true
      end
  end.

(** Lines 243-247: the cursor is set to the device clock on an interrupting
    request or after a gap; then the response is awaited. *)
Definition afterResume (t : nat) (k : Task) (c : AudioContext) (sys : System)
  : System :=
  let s := svc sys in
  let s' :=
    if shouldInterrupt k || negb (Qle_bool (currentTime c) (nextStartTime s))
    then with_cursor s (currentTime c) else s in
  set_pc (with_svc sys s') t AwaitResponse.

(** The callback passed to [audioQueue.then], up to its first [await]. *)
Definition begin (t : nat) (k : Task) (sys : System) : System :=
  if negb (myId k =? latestTTSId (svc sys)) then set_pc sys t Done
  else
    let c := match audioContext (svc sys) with
             | Some c => c
             | None => {| currentTime := 0;
                          suspended := autoplayBlocked sys;
                          resumeWaiters := [] |}
             end in
    if suspended c then
      let c' := {| currentTime := currentTime c; suspended := true;
                   resumeWaiters := resumeWaiters c ++ [t] |} in
      set_pc (with_svc sys (with_context (svc sys) c')) t AwaitResume
    else afterResume t k c (with_svc sys (with_context (svc sys) c)).

(** What the response stream delivers at one iteration of [for await]. *)
Inductive Chunk :=
| NoAudio                        (* no [inlineData] in the chunk *)
| Inline (audioBytes : list byte).  (* [decode(base64Audio)] *)

(** One iteration of the loop up to [await decodeAudioData]. *)
Definition onChunk (t : nat) (k : Task) (isFirstChunk : bool) (ch : Chunk)
  (sys : System) : System :=
  if negb (myId k =? latestTTSId (svc sys)) then set_pc sys t Done
  else match ch with
       | NoAudio => set_pc sys t (AwaitChunk isFirstChunk)
       | Inline audioBytes =>
           set_pc sys t
             (AwaitDecode isFirstChunk (decodeAudioDataDefault audioBytes))
       end.

(** The rest of the iteration, lines 258-277: the source is created,
    started at [max(nextStartTime, currentTime)], the cursor moves to its
    end and the source joins [activeSources]. *)
Definition onDecoded (t : nat) (k : Task) (isFirstChunk : bool)
  (audioBuffer : AudioBuffer) (sys : System) : System :=
  if negb (myId k =? latestTTSId (svc sys)) then set_pc sys t Done
  else match audioContext (svc sys) with
       | None => set_pc sys t Done
       | Some c =>
           let src := length (sink sys) in
           let startTime := Qmax (nextStartTime (svc sys)) (currentTime c) in
           let u := {| source := src; task := t; owner := myId k;
                       start := startTime;
                       lasts := Double.round (duration audioBuffer) |} in
           let s' := with_sources
                       (with_cursor (svc sys)
                          (Double.round (startTime + lasts u)))
                       (activeSources (svc sys) ∪ {[ src ]}) in
           {| svc := s';
              autoplayBlocked := autoplayBlocked sys;
              tasks := alter (fun k => at_pc k (AwaitChunk false)) t (tasks sys);
              sink := sink sys ++ [u];
              speakingStarts :=
                if isFirstChunk && onStart k
                then speakingStarts sys ++ [t] else speakingStarts sys |}
       end.

(** How an [await] of a process task is resumed. *)
Inductive Input :=
| Fulfilled                      (* the awaited promise is fulfilled *)
| Next (ch : Chunk)              (* the stream yields a chunk *)
| Exhausted                      (* the stream ends *)
| Thrown.                        (* rejection or exception: the [catch] *)

Definition resume (t : nat) (i : Input) (sys : System) : System :=
  match tasks sys !! t with
  | None => sys
  | Some k =>
      match pc k, i with
      | Queued, Fulfilled =>
          if settled sys (waitsOn k) then begin t k sys else sys
      | AwaitResponse, Fulfilled => set_pc sys t (AwaitChunk true)
      | AwaitResponse, Thrown => set_pc sys t Done
      | AwaitChunk b, Next ch => onChunk t k b ch sys
      | AwaitChunk _, Exhausted => set_pc sys t Done
      | AwaitChunk _, Thrown => set_pc sys t Done
      | AwaitDecode b (Some buf), Fulfilled => onDecoded t k b buf sys
      | AwaitDecode _ None, _ => set_pc sys t Done
      | _, _ => sys
      end
  end.

(** The continuation of one pending [resume()] promise. *)
Definition resumeOne (c : AudioContext) (sys : System) (t : nat) : System :=
  match tasks sys !! t with
  | Some k => match pc k with
              | AwaitResume => afterResume t k c sys
              | _ => sys
              end
  | None => sys
  end.

Definition resumeEach (c : AudioContext) (ws : list nat) (sys : System)
  : System :=
  fold_left (resumeOne c) ws sys.

(** The context starts running: every pending [resume()] promise is
    fulfilled, oldest first. *)
Definition resumeAll (sys : System) : System :=
  match audioContext (svc sys) with
  | Some c =>
      if suspended c then
        let c' := {| currentTime := currentTime c; suspended := false;
                     resumeWaiters := [] |} in
        resumeEach c' (resumeWaiters c)
          (with_svc sys (with_context (svc sys) c'))
      else sys
  | None => sys
  end.

(** The device clock never runs backwards: it moves on by [dt] to the
    nearest double. *)
Definition tick (dt : Q) (sys : System) : System :=
  match audioContext (svc sys) with
  | Some c =>
      if Qle_bool 0 dt then
        with_svc sys
          (with_context (svc sys)
             {| currentTime := Double.round (currentTime c + dt);
                suspended := suspended c;
                resumeWaiters := resumeWaiters c |})
      else sys
  | None => sys
  end.

(** [source.onended]. *)
Definition ended (src : nat) (sys : System) : System :=
  with_svc sys (with_sources (svc sys) (activeSources (svc sys) ∖ {[ src ]})).

Inductive Event :=
| Tick (dt : Q)
| Ended (src : nat)
| ContextRunning
| StopAudio
| PlayTTS (txt : jsstring) (cb interrupt : bool)
| Resume (t : nat) (i : Input).

Definition step (sys : System) (e : Event) : System :=
  match e with
  | Tick dt => tick dt sys
  | Ended src => ended src sys
  | ContextRunning => resumeAll sys
  | StopAudio => with_svc sys (stopAudio (svc sys))
  | PlayTTS txt cb interrupt => playTTS txt cb interrupt sys
  | Resume t i => resume t i sys
  end.

Definition run (sys : System) (es : list Event) : System :=
  fold_left step es sys.

(** A history for examples: one request whose first chunk is decoded while
    the user interrupts, then the resumption of its last [await]s. *)
Definition twoSamples : list byte := [x00; x80; xff; x7f]%byte.

Definition interrupted : System :=
  run (initial true false)
      [PlayTTS (lit "Hi.") true true; Resume 0 Fulfilled; Resume 0 Fulfilled;
       Resume 0 (Next (Inline twoSamples)); StopAudio].

Definition aftermath : list Event :=
  [Resume 0 Fulfilled; Tick 1; Resume 0 (Next (Inline twoSamples));
   Resume 0 Fulfilled; Resume 0 Exhausted].

(** One request whose response holds chunks of two samples, with the
    clock at rest: the history up to the arrival of the third decoded
    buffer, and the arrival of one more chunk. *)
Definition threeChunks : list Event :=
  [PlayTTS (lit "Hi.") true true; Resume 0 Fulfilled; Resume 0 Fulfilled;
   Resume 0 (Next (Inline twoSamples)); Resume 0 Fulfilled;
   Resume 0 (Next (Inline twoSamples)); Resume 0 Fulfilled;
   Resume 0 (Next (Inline twoSamples))].

Definition oneMore : list Event :=
  [Resume 0 Fulfilled; Resume 0 (Next (Inline twoSamples))].

(** What [playTTS] fixes for a task once and for all. *)
Definition static (k : Task) : jsstring * bool * bool * Z * option nat :=
  (text k, onStart k, shouldInterrupt k, myId k, waitsOn k).

(** Is the context there and running? *)
Definition running (s : Service) : bool :=
  match audioContext s with
  | Some c => negb (suspended c)
  | None => false
  end.

(** While there is no [AudioContext] the cursor is still at zero. *)
Definition cursorUnset (s : Service) : Prop :=
  audioContext s = None -> nextStartTime s = 0%Q.

Definition unitsOf (t : nat) (sys : System) : list Unit :=
  List.filter (fun u => (task u =? t)%nat) (sink sys).

Definition startsOf (t : nat) (sys : System) : list nat :=
  List.filter (fun x => (x =? t)%nat) (speakingStarts sys).

(** The end of a unit as the code computes it: [startTime +
    audioBuffer.duration]. *)
Definition finish (u : Unit) : Q := Double.round (start u + lasts u).

(** Two units that follow each other in the sink and belong to the same id
    do not overlap: the later one starts at or after the end of the
    earlier one. Units of one id are the units of one uninterrupted turn:
    every interruption moves [latestTTSId]. *)
Definition contiguous (l : list Unit) : Prop :=
  forall i u v,
    l !! i = Some u -> l !! S i = Some v -> owner u = owner v ->
    (finish u <= start v)%Q.

(** Every decoded buffer that waits to be started, and every unit that was
    started, lasts for some time. *)
Definition audible (sys : System) : Prop :=
  (forall t k b buf, tasks sys !! t = Some k ->
     pc k = AwaitDecode b (Some buf) ->
     (Double.pow2 (-15) <= Double.round (duration buf))%Q)
  /\ Forall (fun u => (Double.pow2 (-15) <= lasts u)%Q) (sink sys).

(** The times of the service are doubles that are not negative. *)
Definition time (x : Q) : Prop := Double.finite x /\ (0 <= x)%Q.

Record Timed (sys : System) : Prop := {
  t_clock : forall c, audioContext (svc sys) = Some c -> time (currentTime c);
  t_cursor : time (nextStartTime (svc sys));
  t_units : Forall (fun u => time (start u) /\ Double.finite (lasts u))
                   (sink sys)
}.

(** Has a task not yet gone past the cursor reset of lines 243-245? *)
Definition waiting (p : Pc) : bool :=
  match p with Queued | AwaitResume => true | _ => false end.

(** Can a task be where it is without a running context? *)
Definition parked (p : Pc) : bool :=
  match p with Queued | AwaitResume | Done => true | _ => false end.

(** The invariant of the service, over the latest id [L], the queue [q],
    the cursor [cur], whether the context runs [r], the tasks and the
    sink: ids are bounded by [L]; the queue ends at the last task of id
    [L]; a task of id [L] is chained on its predecessor, which has id [L]
    too, or is the first of that id; an interrupting task is chained on
    nothing; tasks of id [L] leave [Queued] in order; without a running
    context nothing was started; the cursor is at or after the end of
    the last unit of id [L], and once such a unit exists no interrupting
    task of id [L] is still before its cursor reset. *)
Record InvOn (L : Z) (q : option nat) (cur : Q) (r : bool)
  (ts : list Task) (sk : list Unit) : Prop := {
  inv_ids : forall t k, ts !! t = Some k -> myId k <= L;
  inv_owners : forall u, u ∈ sk -> owner u <= L;
  inv_queue :
    match q with
    | None => forall t k, ts !! t = Some k -> myId k < L
    | Some p => S p = length ts /\ exists k, ts !! p = Some k /\ myId k = L
    end;
  inv_chain : forall t k, ts !! t = Some k -> myId k = L ->
    match waitsOn k with
    | Some p => S p = t /\ exists kp, ts !! p = Some kp /\ myId kp = L
    | None => forall t' k', (t' < t)%nat -> ts !! t' = Some k' -> myId k' < L
    end;
  inv_interrupt : forall t k, ts !! t = Some k -> myId k = L ->
    shouldInterrupt k = true -> waitsOn k = None;
  inv_order : forall t k t' k', ts !! t = Some k -> myId k = L ->
    pc k <> Queued -> (t' < t)%nat -> ts !! t' = Some k' -> myId k' = L ->
    pc k' = Done;
  inv_parked : r = false ->
    sk = [] /\ forall t k, ts !! t = Some k -> parked (pc k) = true;
  inv_cursor : forall u, last sk = Some u -> owner u = L ->
    (finish u <= cur)%Q;
  inv_reset : forall u, last sk = Some u -> owner u = L ->
    forall t k, ts !! t = Some k -> myId k = L ->
    shouldInterrupt k = true -> waiting (pc k) = false;
  inv_contiguous : contiguous sk
}.

Definition Inv (sys : System) : Prop :=
  InvOn (latestTTSId (svc sys)) (audioQueue (svc sys))
        (nextStartTime (svc sys)) (running (svc sys))
        (tasks sys) (sink sys).

(** *** Which task started what *)

(** The sink is ordered: the ids never decrease and, within one id, the
    units of an earlier request come before those of a later one. *)
Definition ordered (l : list Unit) : Prop :=
  forall i j u v, (i < j)%nat -> l !! i = Some u -> l !! j = Some v ->
    owner u <= owner v /\ (owner u = owner v -> (task u <= task v)%nat).

(** How a task moves when it starts no unit. *)
Definition moves (p p' : Pc) : Prop :=
  p' = p \/ p' = Done \/
  match p, p' with
  | Queued, AwaitResume | Queued, AwaitResponse
  | AwaitResume, AwaitResponse | AwaitResponse, AwaitChunk true => True
  | AwaitChunk b, AwaitDecode b' _ => b' = b
  | _, _ => False
  end.

(** Is the task at a place where none of its units has been started? *)
Definition heardNothing (p : Pc) : bool :=
  match p with
  | Queued | AwaitResume | AwaitResponse | AwaitChunk true
  | AwaitDecode true _ => true
  | _ => false
  end.

(** A step that starts no unit. *)
Record quiet (sys sys' : System) : Prop := {
  q_sink : sink sys' = sink sys;
  q_starts : speakingStarts sys' = speakingStarts sys;
  q_latest : latestTTSId (svc sys) <= latestTTSId (svc sys');
  q_live :
    (latestTTSId (svc sys') = latestTTSId (svc sys)
     /\ activeSources (svc sys') ⊆ activeSources (svc sys))
    \/ activeSources (svc sys') = ∅;
  q_keep : forall t k, tasks sys !! t = Some k ->
    exists k', tasks sys' !! t = Some k' /\ static k' = static k
               /\ moves (pc k) (pc k');
  q_new : forall t k', tasks sys' !! t = Some k' ->
    (length (tasks sys) <= t)%nat -> pc k' = Queued
}.

(** A step that starts a unit. *)
Definition emitted (sys sys' : System) : Prop :=
  exists t k b buf c,
    tasks sys !! t = Some k /\ pc k = AwaitDecode b (Some buf)
    /\ myId k = latestTTSId (svc sys) /\ audioContext (svc sys) = Some c
    /\ sys' = onDecoded t k b buf sys.

(** What is known of the units, the live sources and the [onStart] calls:
    a source is numbered by its place in the sink; the task of a unit
    exists, has the id of the unit and is past its first chunk; the sink
    is ordered; a live source belongs to the latest id; a task that is
    not past its first chunk has no unit and has not called [onStart];
    [onStart] is called once, by the tasks that were given one and have
    started a unit. *)
Record Heard (sys : System) : Prop := {
  h_source : forall i u, sink sys !! i = Some u -> source u = i;
  h_task : forall u, u ∈ sink sys ->
    exists k, tasks sys !! task u = Some k /\ myId k = owner u
              /\ heardNothing (pc k) = false;
  h_ordered : ordered (sink sys);
  h_live : forall src, src ∈ activeSources (svc sys) ->
    exists u, sink sys !! src = Some u /\ owner u = latestTTSId (svc sys);
  h_nothing : forall t k, tasks sys !! t = Some k ->
    heardNothing (pc k) = true ->
    (forall u, u ∈ sink sys -> task u <> t) /\ t ∉ speakingStarts sys;
  h_once : NoDup (speakingStarts sys);
  h_started : forall t, t ∈ speakingStarts sys ->
    (exists u, u ∈ sink sys /\ task u = t)
    /\ exists k, tasks sys !! t = Some k /\ onStart k = true;
  h_notified : forall u k, u ∈ sink sys -> tasks sys !! task u = Some k ->
    onStart k = true -> task u ∈ speakingStarts sys;
  h_later : forall t k, tasks sys !! t = Some k ->
    (pc k = AwaitChunk false \/ exists d, pc k = AwaitDecode false d) ->
    exists u, u ∈ sink sys /\ task u = t
}.

(** What is heard after a state with [n] tasks and latest id [L] was
    stopped: the later units and [onStart] calls come from later
    requests. *)
Record Since (n : nat) (L : Z) (sk : list Unit) (st : list nat)
  (s : System) : Prop := {
  since_latest : L < latestTTSId (svc s);
  since_old : forall t : nat, (t < n)%nat ->
    exists k, tasks s !! t = Some k /\ myId k <= L;
  since_sink : exists later, sink s = sk ++ later
    /\ Forall (fun u => (n <= task u)%nat /\ L < owner u) later;
  since_starts : exists calls, speakingStarts s = st ++ calls
    /\ Forall (fun t => (n <= t)%nat) calls
}.

End Audio.

(* ===================================================================== *)
(** ** [processStream] *)
(* ===================================================================== *)

Module Turn.
Import JsString.

(** What one turn does to the outside. *)
Inductive Effect :=
| GenerateImage (wordToGen : jsstring)
| SetMessageText (displayText : jsstring)
| SetIsLoading (b : bool)
| PlayTTS (ttsText : jsstring) (shouldInterrupt : bool)
| ThenAllScheduled.             (* [Promise.all(ttsPromises).then(...)] *)

(** The [let] variables of [processStream]. *)
Record Locals := {
  fullText : jsstring;
  buffer : jsstring;
  isFirstSentence : bool;
  isCorrectFound : bool;
  imageTriggered : bool
}.

Definition fresh : Locals := {|
  fullText := []; buffer := []; isFirstSentence := true;
  isCorrectFound := false; imageTriggered := false
|}.

(** Lines 80-109: the display text of the accumulated text, the match of
    the image tag and whether the correctness marker is present. *)
Definition stripImage (displayText : jsstring) : jsstring :=
  match search imageRegexAt displayText with
  | Some _ => replaceRegex imageRegexAt displayText
  | None => displayText
  end.

Definition stripCorrect (displayText : jsstring) : jsstring :=
  if includes displayText CORRECT
  then trimStart (replace displayText CORRECT)
  else displayText.

Definition display (fullText : jsstring) : jsstring :=
  stripCorrect (stripImage fullText).

(** Lines 134-137 and 155-158: the text handed to [playTTS]. *)
Definition cleanForTTS (sentence : jsstring) : jsstring :=
  trim (replaceRegex imageTagAt (replace sentence CORRECT)).

(** Lines 119-131: the sentence cut from the buffer and what is kept. *)
Definition segment (buffer : jsstring) : option (jsstring * jsstring) :=
  let lastIndex := lastDelimiter buffer in
  if lastIndex =? -1 then None
  else Some (substring buffer 0 (lastIndex + 1),
             substringFrom buffer (lastIndex + 1)).

Definition nonEmpty (s : jsstring) : bool :=
  match s with [] => false | _ => true end.

(** The body of [for await (const chunk of stream)] after the sequence
    check. *)
Definition iteration (chunk : jsstring) (l : Locals) : Locals * list Effect :=
  let fullText' := fullText l ++ chunk in
  let imageMatch := search imageRegexAt fullText' in
  let imageEffects :=
    match imageMatch with
    | Some m => if imageTriggered l then [] else [GenerateImage (group1 m)]
    | None => []
    end in
  let imageTriggered' :=
    match imageMatch with Some _ => true | None => imageTriggered l end in
  let displayText := stripImage fullText' in
  let isCorrectFound' := includes displayText CORRECT || isCorrectFound l in
  let uiEffects := [SetMessageText (stripCorrect displayText); SetIsLoading false] in
  let buffer' := buffer l ++ chunk in
  match segment buffer' with
  | None =>
      ({| fullText := fullText'; buffer := buffer';
          isFirstSentence := isFirstSentence l;
          isCorrectFound := isCorrectFound'; imageTriggered := imageTriggered' |},
       imageEffects ++ uiEffects)
  | Some (sentence, rest) =>
      let ttsText := cleanForTTS sentence in
      if nonEmpty ttsText then
        ({| fullText := fullText'; buffer := rest; isFirstSentence := false;
            isCorrectFound := isCorrectFound'; imageTriggered := imageTriggered' |},
         imageEffects ++ uiEffects ++ [PlayTTS ttsText (isFirstSentence l)])
      else
        ({| fullText := fullText'; buffer := rest;
            isFirstSentence := isFirstSentence l;
            isCorrectFound := isCorrectFound'; imageTriggered := imageTriggered' |},
         imageEffects ++ uiEffects)
  end.

(** The loop. Each increment comes with the value of
    [streamSequenceId.current] read when it arrives; a value other than
    [mySeqId] leaves the loop. *)
Fixpoint loop (mySeqId : Z) (stream : list (Z * jsstring)) (l : Locals)
  : Locals * list Effect :=
  match stream with
  | [] => (l, [])
  | (current, chunk) :: stream' =>
      if negb (mySeqId =? current) then (l, [])
      else
        let (l1, e1) := iteration chunk l in
        let (l2, e2) := loop mySeqId stream' l1 in
        (l2, e1 ++ e2)
  end.

(** Lines 155-168. *)
Definition flush (mySeqId current : Z) (l : Locals) : list Effect :=
  let remainder := cleanForTTS (buffer l) in
  if nonEmpty remainder && (mySeqId =? current)
  then [PlayTTS remainder (isFirstSentence l)] else [].

(** [processStream(stream, messageId)] for a stream that ends without an
    exception: [before] is [streamSequenceId.current] on entry, [atEnd]
    its value when the loop is left. The result is the effects in order
    and the returned [isCorrectFound]. *)
Definition processStream (before : Z) (stream : list (Z * jsstring))
  (atEnd : Z) : list Effect * bool :=
  let mySeqId := before + 1 in
  let (l, e) := loop mySeqId stream fresh in
  (e ++ flush mySeqId atEnd l ++ [ThenAllScheduled], isCorrectFound l).

(** A turn that nothing interrupts: every read of the sequence id gives
    [mySeqId]. *)
Definition undisturbed (before : Z) (increments : list jsstring)
  : list (Z * jsstring) :=
  List.map (fun chunk => (before + 1, chunk)) increments.

(** The texts handed to [playTTS], in order. *)
Definition spoken (es : list Effect) : list jsstring :=
  omap (fun e => match e with PlayTTS t _ => Some t | _ => None end) es.

Definition imageRequests (es : list Effect) : list jsstring :=
  omap (fun e => match e with GenerateImage w => Some w | _ => None end) es.

(** The raw sentences the increments are cut into, and the buffer left at
    the end. *)
Fixpoint sentences (increments : list jsstring) (buffer : jsstring)
  : list jsstring * jsstring :=
  match increments with
  | [] => ([], buffer)
  | chunk :: rest =>
      match segment (buffer ++ chunk) with
      | None => sentences rest (buffer ++ chunk)
      | Some (sentence, kept) =>
          let (ss, final) := sentences rest kept in (sentence :: ss, final)
      end
  end.

(** The [shouldInterrupt] arguments of the [playTTS] calls, in order. *)
Definition flags (es : list Effect) : list bool :=
  omap (fun e => match e with PlayTTS _ b => Some b | _ => None end) es.

(** [n] requests of which only the first may interrupt, if [first]. *)
Definition flagsFrom (first : bool) (n : nat) : list bool :=
  match n with
  | O => []
  | S m => first :: replicate m false
  end.

(** The texts shown in the message, in order. *)
Definition shown (es : list Effect) : list jsstring :=
  omap (fun e => match e with SetMessageText t => Some t | _ => None end) es.

(** The accumulated text after each increment. *)
Fixpoint accumulate (fullText : jsstring) (increments : list jsstring)
  : list jsstring :=
  match increments with
  | [] => []
  | chunk :: rest => (fullText ++ chunk) :: accumulate (fullText ++ chunk) rest
  end.

(** Does a text end with a sentence delimiter? *)
Definition endsSentence (s : jsstring) : Prop :=
  exists d, last s = Some d /\ isDelimiter d = true.

Definition delimiterFree (s : jsstring) : Prop :=
  Forall (fun c => isDelimiter c = false) s.

(** The subject of the first image tag that becomes visible. *)
Fixpoint firstSubject (texts : list jsstring) : list jsstring :=
  match texts with
  | [] => []
  | t :: rest =>
      match search imageRegexAt t with
      | Some m => [group1 m]
      | None => firstSubject rest
      end
  end.

(** Is the correctness marker visible after some increment? *)
Fixpoint correctSeen (fullText : jsstring) (increments : list jsstring) : bool :=
  match increments with
  | [] => false
  | chunk :: rest =>
      includes (stripImage (fullText ++ chunk)) CORRECT
      || correctSeen (fullText ++ chunk) rest
  end.

Definition LBRACKET : Z := 0x5B.

(** A text without an opening bracket holds no directive marker. *)
Definition bracketFree (s : jsstring) : Prop := Forall (fun c => c <> LBRACKET) s.

Definition notSpace (c : Z) : bool := negb (isWhiteSpace c).

(** An image tag [[IMAGE:body]], for a body that holds no bracket and no
    line terminator. *)
Definition tag (body : jsstring) : jsstring := IMAGE_OPEN ++ body ++ [RBRACKET].

Definition tagBody (body : jsstring) : Prop :=
  Forall (fun c => c <> LBRACKET /\ c <> RBRACKET /\ isLineTerminator c = false)
         body.

(** A text seen as plain text and markers. *)
Inductive Part :=
| PlainText (s : jsstring)
| ImageTag (body : jsstring)
| CorrectMarker.

Definition written (p : Part) : jsstring :=
  match p with
  | PlainText s => s
  | ImageTag body => tag body
  | CorrectMarker => CORRECT
  end.

Definition textOf (ps : list Part) : jsstring := concat (List.map written ps).

(** The text without its markers. *)
Definition plainOf (ps : list Part) : jsstring :=
  concat (List.map (fun p => match p with PlainText s => s | _ => [] end) ps).

Definition isImageTag (p : Part) : bool :=
  match p with ImageTag _ => true | _ => false end.

Definition isCorrectMarker (p : Part) : bool :=
  match p with CorrectMarker => true | _ => false end.

(** Plain text holds no opening bracket; the body of an image tag holds no
    bracket, no line terminator and no sentence delimiter. *)
Definition wellFormedPart (p : Part) : Prop :=
  match p with
  | PlainText s => bracketFree s
  | ImageTag body => tagBody body /\ delimiterFree body
  | CorrectMarker => True
  end.

(** At most one marker of each kind. *)
Definition onceEach (ps : list Part) : Prop :=
  (length (List.filter isImageTag ps) <= 1)%nat
  /\ (length (List.filter isCorrectMarker ps) <= 1)%nat.

(** Three increments that hold an image tag and a marker, and their parts. *)
Definition markedIncrements : list jsstring :=
  [lit "Look [IMA"; lit "GE: cat] here. [COR"; lit "RECT]Yes!"].

Definition markedParts : list Part :=
  [PlainText (lit "Look "); ImageTag (lit " cat"); PlainText (lit " here. ");
   CorrectMarker; PlainText (lit "Yes!")].

(** Scenario A of the specification. *)
Definition scenarioA : list jsstring :=
  [ [0x4ECA; 0x5929];             (* 今天 *)
    [0x5929; 0x6C14];             (* 天气 *)
    [0x771F; 0x597D; 0x3002];     (* 真好。 *)
    [0x4F60; 0x89C9; 0x5F97];     (* 你觉得 *)
    [0x5462; 0xFF1F] ].           (* 呢？ *)

Definition scenarioA1 : jsstring :=   (* 今天天气真好。 *)
  [0x4ECA; 0x5929; 0x5929; 0x6C14; 0x771F; 0x597D; 0x3002].

Definition scenarioA2 : jsstring :=   (* 你觉得呢？ *)
  [0x4F60; 0x89C9; 0x5F97; 0x5462; 0xFF1F].

(** [handleSendMessage] after [processStream] returned: the calls of
    [setShowCelebration(true)]. *)
Definition celebrations (isCorrect showCelebration : bool) : list bool :=
  if isCorrect && negb showCelebration then [true] else [].

End Turn.

(* ===================================================================== *)
(** ** The application around the service *)
(* ===================================================================== *)

Module App.
Import Audio.

(** A pending [setTimeout]: the delay in milliseconds and the [mySeqId]
    its callback closes over. *)
Record Timer := {
  delay : Q;
  mySeqId : Z
}.

Record World := {
  audio : System;
  streamSequenceId : Z;
  isSpeaking : bool;
  timers : list Timer
}.

Definition with_audio (w : World) (a : System) : World := {|
  audio := a; streamSequenceId := streamSequenceId w;
  isSpeaking := isSpeaking w; timers := timers w
|}.

(** The service function called from the application. *)
Definition stopAudio (w : World) : World :=
  with_audio w (with_svc (audio w) (Audio.stopAudio (svc (audio w)))).

(** [handleSendMessage], lines 247-250. *)
Definition interruption (w : World) : World :=
  let w1 := stopAudio w in
  {| audio := audio w1; streamSequenceId := streamSequenceId w1 + 1;
     isSpeaking := false; timers := timers w1 |}.

Definition start (hasKey blocked : bool) : World := {|
  audio := initial hasKey blocked; streamSequenceId := 0;
  isSpeaking := false; timers := []
|}.

(** Are all the promises of [ttsPromises] fulfilled? *)
Definition allScheduled (ttsPromises : list nat) (w : World) : bool :=
  forallb (fun t => settled (audio w) (Some t)) ttsPromises.

(** The callback of [Promise.all(ttsPromises).then], lines 172-187. *)
Definition whenAllScheduled (seq : Z) (w : World) : World :=
  if negb (seq =? streamSequenceId w) then w
  else
    let endTime := getAudioEndTime (svc (audio w)) in
    let currentTime := getCurrentTime (svc (audio w)) in
    let timeRemaining :=
      Qmax 0 (Double.round (Double.round (endTime - currentTime) * 1000)) in
    let delay := Double.round (timeRemaining + 200) in
    {| audio := audio w; streamSequenceId := streamSequenceId w;
       isSpeaking := isSpeaking w;
       timers := timers w ++ [{| delay := delay; mySeqId := seq |}] |}.

(** [Promise.all(ttsPromises).then(...)]: the callback runs once every
    promise is fulfilled. *)
Definition thenAll (ttsPromises : list nat) (seq : Z) (w : World) : World :=
  if allScheduled ttsPromises w then whenAllScheduled seq w else w.

(** The callback of [setTimeout], lines 182-186. *)
Definition fire (tm : Timer) (w : World) : World :=
  if mySeqId tm =? streamSequenceId w then
    {| audio := audio w; streamSequenceId := streamSequenceId w;
       isSpeaking := false; timers := timers w |}
  else w.

End App.

(* ===================================================================== *)
(** ** The messages of the chat *)
(* ===================================================================== *)

Module Chat.
Import JsString Turn.

Inductive Role := user | model.

(** [Message] of [types.ts]. *)
Record Message := {
  id : jsstring;
  role : Role;
  text : jsstring;
  timestamp : Z;
  imageUrl : option jsstring
}.

(** [prev.map(m => m.id === messageId ? { ...m, text: displayText } : m)] *)
Definition setText (messageId displayText : jsstring) (prev : list Message)
  : list Message :=
  List.map (fun m =>
              if bool_decide (id m = messageId)
              then {| id := id m; role := role m; text := displayText;
                      timestamp := timestamp m; imageUrl := imageUrl m |}
              else m) prev.

(** The [then] callback of [generateImage(wordToGen)], lines 92-100: a
    missing or empty url and a turn that is no longer the current one
    change nothing. *)
Definition setImage (mySeqId current : Z) (messageId : jsstring)
  (url : option jsstring) (prev : list Message) : list Message :=
  match url with
  | Some u =>
      if nonEmpty u && (mySeqId =? current) then
        List.map (fun m =>
                    if bool_decide (id m = messageId)
                    then {| id := id m; role := role m; text := text m;
                            timestamp := timestamp m; imageUrl := Some u |}
                    else m) prev
      else prev
  | None => prev
  end.

(** The [setMessages] calls of one turn, applied in order. *)
Definition render (messageId : jsstring) (es : list Effect)
  (messages : list Message) : list Message :=
  fold_left (fun ms e => match e with
                         | SetMessageText t => setText messageId t ms
                         | _ => ms
                         end) es messages.

End Chat.

(* ===================================================================== *)
(** ** The API key *)
(* ===================================================================== *)

Module Keys.
Import JsString.

(** The module-level variables of lines 4-9: [currentApiKey], the item
    stored under [STORAGE_KEY] in [localStorage], and the client [ai],
    known by the [apiKey] it was made with. *)
Record State := {
  currentApiKey : jsstring;
  stored : option jsstring;
  ai : option jsstring
}.

(** [a || b] for a string [a] that may be [null] or [undefined]: the
    empty string is falsy. *)
Definition orElse (a : option jsstring) (b : jsstring) : jsstring :=
  match a with
  | Some (c :: s) => c :: s
  | _ => b
  end.

(** The module is loaded, line 9:
    [localStorage.getItem(STORAGE_KEY) || process.env.API_KEY || '']. *)
Definition load (item env : option jsstring) : State := {|
  currentApiKey := orElse item (orElse env []);
  stored := item;
  ai := None
|}.

Inductive Completion := Returned | Threw.

(** [setApiKey(key)]. [localStorage.setItem] raises when the storage is
    full or disabled ([saved = false]): the statement after it is then
    not reached. *)
Definition setApiKey (key : jsstring) (saved : bool) (s : State)
  : State * Completion :=
  if saved then
    ({| currentApiKey := key; stored := Some key; ai := None |}, Returned)
  else
    ({| currentApiKey := key; stored := stored s; ai := ai s |}, Threw).

Definition getApiKey (s : State) : jsstring := currentApiKey s.

(** [!!currentApiKey && currentApiKey.length > 0] *)
Definition hasApiKey (s : State) : bool :=
  match currentApiKey s with
  | [] => false
  | _ :: _ => (0 <? length (currentApiKey s))%nat
  end.

Definition initializeGemini (s : State) : State :=
  match currentApiKey s with
  | [] => s
  | _ :: _ => {| currentApiKey := currentApiKey s; stored := stored s;
                 ai := Some (currentApiKey s) |}
  end.

(** [if (!ai) initializeGemini();], the first statement of
    [startNewGameStream], [generateImage] and [playTTS]. *)
Definition ensure (s : State) : State :=
  match ai s with
  | None => initializeGemini s
  | Some _ => s
  end.

(** [handleSaveSettings] of [App.tsx]. *)
Definition handleSaveSettings (apiKeyInput : jsstring) (saved : bool)
  (s : State) : State * Completion :=
  setApiKey (trim apiKeyInput) saved s.

Inductive Call :=
| SetApiKey (key : jsstring) (saved : bool)
| InitializeGemini
| Ensure.

Definition call (s : State) (c : Call) : State :=
  match c with
  | SetApiKey key saved => fst (setApiKey key saved s)
  | InitializeGemini => initializeGemini s
  | Ensure => ensure s
  end.

Definition calls (s : State) (cs : list Call) : State := fold_left call cs s.

(** The client, when there is one, was made with the current key. *)
Definition upToDate (s : State) : Prop :=
  forall k, ai s = Some k -> k = currentApiKey s /\ k <> [].

(** Does every [setItem] of the calls succeed? *)
Definition saves (c : Call) : bool :=
  match c with
  | SetApiKey _ saved => saved
  | _ => true
  end.

End Keys.

(* ===================================================================== *)
(** ** The prompt of an image *)
(* ===================================================================== *)

Module Image.
Import JsString.

Definition inRange (lo hi c : Z) : bool := (lo <=? c) && (c <=? hi).

(** The alternatives of the regular expression of line 103 that match one
    code unit: the ranges 2700-27BF, E000-F8FF and 2011-26FF. *)
Definition symbol (c : Z) : bool :=
  inRange 0x2700 0x27BF c || inRange 0xE000 0xF8FF c
  || inRange 0x2011 0x26FF c.

(** The alternatives that match two: D83C or D83D followed by
    DC00-DFFF, and D83E followed by DD10-DDFF. Their first unit is no
    [symbol], so the order of the alternatives does not matter. *)
Definition surrogates (c d : Z) : bool :=
  ((c =? 0xD83C) && inRange 0xDC00 0xDFFF d)
  || ((c =? 0xD83D) && inRange 0xDC00 0xDFFF d)
  || ((c =? 0xD83E) && inRange 0xDD10 0xDDFF d).

(** [prompt.replace(/.../g, '')]: the string is scanned from the left; a
    match is dropped and the scan goes on after it, a unit where nothing
    matches is kept. The expression has no [u] flag: it sees code
    units. *)
Fixpoint stripEmoji (s : jsstring) : jsstring :=
  match s with
  | [] => []
  | c :: rest =>
      if symbol c then stripEmoji rest
      else match rest with
           | d :: rest' =>
               if surrogates c d then stripEmoji rest'
               else c :: stripEmoji rest
           | [] => [c]
           end
  end.

(** Does the expression match somewhere in the string? *)
Fixpoint hasEmoji (s : jsstring) : bool :=
  match s with
  | [] => false
  | c :: rest =>
      symbol c
      || match rest with d :: _ => surrogates c d | [] => false end
      || hasEmoji rest
  end.

Definition cleanPrompt (prompt : jsstring) : jsstring :=
  trim (stripEmoji prompt).

Definition finalPrompt (prompt : jsstring) : jsstring :=
  lit "A cute, simple, cartoon illustration of a " ++ cleanPrompt prompt
  ++ lit " for a toddler learning game. White background, bright colors.".

(** What [await ai.models.generateImages(...)] gives: a rejection, or a
    response whose first image may be missing. *)
Inductive Response :=
| Rejected
| Images (imageBytes : option jsstring).

Definition DATA_URL : jsstring := lit "data:image/jpeg;base64,".

(** [generateImage(prompt)], for a client that is there or not after
    [if (!ai) initializeGemini()], and a model given as a function of the
    prompt it receives. *)
Definition generateImage (client : bool) (model : jsstring -> Response)
  (prompt : jsstring) : option jsstring :=
  if client then
    match model (finalPrompt prompt) with
    | Images (Some (c :: bytes)) => Some (DATA_URL ++ c :: bytes)
    | _ => None
    end
  else None.

(** Well-formed UTF-16: a high surrogate is followed by a low one, and a
    low one follows a high one. *)
Definition isHigh (c : Z) : bool := inRange 0xD800 0xDBFF c.
Definition isLow (c : Z) : bool := inRange 0xDC00 0xDFFF c.

Fixpoint wellFormed (s : jsstring) : bool :=
  match s with
  | [] => true
  | c :: rest =>
      if isHigh c then
        match rest with
        | d :: rest' => isLow d && wellFormed rest'
        | [] => false
        end
      else negb (isLow c) && wellFormed rest
  end.

End Image.

(* ===================================================================== *)
(** ** The words of a game *)
(* ===================================================================== *)

Module Words.

Section Shuffle.
Context {A : Type}.

(** [[array[i], array[j]] = [array[j], array[i]]]; [None] when an index
    is outside the array, which [0 <= Math.random() < 1] excludes. *)
Definition swap (array : list A) (i j : nat) : option (list A) :=
  match array !! i, array !! j with
  | Some x, Some y => Some (<[j := x]> (<[i := y]> array))
  | _, _ => None
  end.

(** [Math.floor(Math.random() * (i + 1))] for the value [r] of
    [Math.random()]: the product is rounded to a double before it is
    floored. An array has fewer than 2^32 elements, so [i + 1] is exact. *)
Definition pick (r : Q) (i : nat) : Z :=
  Qfloor (Double.round (r * inject_Z (Z.of_nat i + 1))).

(** The least multiple of 2^-33 whose product with [i + 1] is at least
    [j]: a value of [Math.random()] that picks [j] at index [i]. *)
Definition aim (j i : nat) : Q :=
  inject_Z ((Z.of_nat j * 2 ^ 33 + Z.of_nat i) / (Z.of_nat i + 1))
  * Double.pow2 (-33).

(** The loop of [getRandomWords] from [i] downwards; [random k] is what
    the call of [Math.random()] number [k] returns. *)
Fixpoint shuffle (i call : nat) (random : nat -> Q) (array : list A)
  : option (list A) :=
  match i with
  | O => Some array
  | S i' =>
      let j := pick (random call) i in
      if j <? 0 then None
      else match swap array i (Z.to_nat j) with
           | Some array' => shuffle i' (S call) random array'
           | None => None
           end
  end.

(** [getRandomWords(count)] over the pool [VOCABULARY_POOL]. *)
Definition getRandomWords (pool : list A) (random : nat -> Q) (count : nat)
  : option (list A) :=
  take count <$> shuffle (length pool - 1) 0 random pool.

End Shuffle.

End Words.


(* ===================================================================== *)
(** ** The rounding of doubles *)
(* ===================================================================== *)

Section DoubleFacts.
Import Double.
Local Open Scope Q_scope.


Lemma pow2_pos e : 0 < pow2 e.
Proof. apply Qpower_0_lt. reflexivity. Qed.

Lemma pow2_add a b : pow2 (a + b) == pow2 a * pow2 b.
Proof. apply Qpower_plus. discriminate. Qed.

Lemma pow2_sub a b : pow2 (a - b) == pow2 a / pow2 b.
Proof. apply Qpower_minus. discriminate. Qed.

Lemma pow2_le a b : (a <= b)%Z -> pow2 a <= pow2 b.
Proof. intros H. apply Qpower_le_compat_l; [exact H|discriminate]. Qed.

Lemma pow2_lt a b : (a < b)%Z -> pow2 a < pow2 b.
Proof. intros H. apply Qpower_lt_compat_l; [exact H|reflexivity]. Qed.

Lemma pow2_lt_inv a b : pow2 a < pow2 b -> (a < b)%Z.
Proof. intros H. apply (Qpower_lt_compat_l_inv 2); [exact H|reflexivity]. Qed.

Lemma pow2_Z e : (0 <= e)%Z -> pow2 e == inject_Z (2 ^ e).
Proof. intros H. unfold pow2. rewrite (Zpower_Qpower 2 e H). reflexivity. Qed.

Lemma pow2_S e : pow2 (e + 1) == 2 * pow2 e.
Proof. rewrite pow2_add. change (pow2 1) with 2. ring. Qed.

Lemma Q_as_quotient (x : Q) : x == inject_Z (Qnum x) / inject_Z (Zpos (Qden x)).
Proof.
  destruct x as [n d]. unfold Qeq, Qdiv, Qmult, Qinv, inject_Z. cbn.
  rewrite Z.mul_1_r. reflexivity.
Qed.

(** The binade of a positive rational. *)
Lemma ilog2_spec (x : Q) : 0 < x -> pow2 (ilog2 x) <= x /\ x < pow2 (ilog2 x + 1).
Proof.
  intros Hx. unfold ilog2.
  set (n := Qnum x). set (d := Zpos (Qden x)).
  assert (Hn : (0 < n)%Z) by (destruct x as [[|p|p] q]; cbn in *; unfold Qlt in Hx; cbn in Hx; lia).
  assert (Hd : (0 < d)%Z) by (subst d; lia).
  destruct (Z.log2_spec n Hn) as [Ln Un].
  destruct (Z.log2_spec d Hd) as [Ld Ud].
  pose proof (Z.log2_nonneg n) as Pn. pose proof (Z.log2_nonneg d) as Pd.
  set (pn := Z.log2 n) in *. set (pd := Z.log2 d) in *.
  assert (Ex : x == inject_Z n / inject_Z d) by apply Q_as_quotient.
  assert (Dq : 0 < inject_Z d) by (change 0 with (inject_Z 0); rewrite <- Zlt_Qlt; lia).
  assert (A : pow2 pn == inject_Z (2 ^ pn)) by (apply pow2_Z; lia).
  assert (B : pow2 pd == inject_Z (2 ^ pd)) by (apply pow2_Z; lia).
  assert (Bq : 0 < pow2 pd) by apply pow2_pos.
  assert (Aq : 0 < pow2 pn) by apply pow2_pos.
  assert (LnQ : pow2 pn <= inject_Z n) by (rewrite A, <- Zle_Qle; exact Ln).
  assert (UnQ : inject_Z n < 2 * pow2 pn).
  { rewrite A. change 2 with (inject_Z 2). rewrite <- inject_Z_mult, <- Zlt_Qlt.
    replace (Z.succ pn) with (pn + 1)%Z in Un by lia.
    rewrite Z.pow_add_r in Un by lia. lia. }
  assert (LdQ : pow2 pd <= inject_Z d) by (rewrite B, <- Zle_Qle; exact Ld).
  assert (UdQ : inject_Z d < 2 * pow2 pd).
  { rewrite B. change 2 with (inject_Z 2). rewrite <- inject_Z_mult, <- Zlt_Qlt.
    replace (Z.succ pd) with (pd + 1)%Z in Ud by lia.
    rewrite Z.pow_add_r in Ud by lia. lia. }
  assert (Xd : x * inject_Z d == inject_Z n) by (rewrite Ex; field; lra).
  set (N := inject_Z n) in *. set (D := inject_Z d) in *.
  set (P := pow2 pn) in *. set (R := pow2 pd) in *.
  destruct (Qle_bool (pow2 (pn - pd)) x) eqn:E.
  - apply Qle_bool_iff in E. split; [exact E|].
    rewrite pow2_S, pow2_sub. fold P R.
    setoid_replace (2 * (P / R)) with ((2 * P) / R) using relation Qeq by (field; lra).
    apply Qlt_shift_div_l; [exact Bq|].
    (* x * R < 2 * P, from x * D = N < 2 P and R <= D *)
    assert (x * R <= x * D) by (apply Qmult_le_l; [exact Hx|exact LdQ]).
    lra.
  - assert (E' : x < pow2 (pn - pd)).
    { apply Qnot_le_lt. intros H. apply Qle_bool_iff in H. congruence. }
    replace (pn - pd - 1 + 1)%Z with (pn - pd)%Z by lia.
    split; [|exact E'].
    replace (pn - pd - 1)%Z with (pn - (pd + 1))%Z by lia.
    rewrite pow2_sub, pow2_S. fold P R.
    apply Qle_shift_div_r; [lra|].
    assert (x * D < x * (2 * R)) by (apply Qmult_lt_l; [exact Hx|exact UdQ]).
    lra.
Qed.

Lemma ilog2_unique (x : Q) k :
  pow2 k <= x -> x < pow2 (k + 1) -> ilog2 x = k.
Proof.
  intros L U.
  assert (Hx : 0 < x) by (pose proof (pow2_pos k); lra).
  destruct (ilog2_spec x Hx) as [L' U'].
  assert (k < ilog2 x + 1)%Z by (apply pow2_lt_inv; lra).
  assert (ilog2 x < k + 1)%Z by (apply pow2_lt_inv; lra).
  lia.
Qed.

Lemma ilog2_comp x y : 0 < x -> x == y -> ilog2 x = ilog2 y.
Proof.
  intros Hx E. destruct (ilog2_spec x Hx) as [L U].
  symmetry. apply ilog2_unique; rewrite <- E; assumption.
Qed.

Lemma ilog2_mono x y : 0 < x -> x <= y -> (ilog2 x <= ilog2 y)%Z.
Proof.
  intros Hx H. assert (Hy : 0 < y) by lra.
  destruct (ilog2_spec x Hx) as [L _]. destruct (ilog2_spec y Hy) as [_ U].
  assert (ilog2 x < ilog2 y + 1)%Z by (apply pow2_lt_inv; lra). lia.
Qed.

Ltac compared H :=
  match type of H with
  | _ = Eq => apply Qeq_alt in H
  | _ = Lt => apply Qlt_alt in H
  | _ = Gt => apply Qgt_alt in H
  end.

Lemma roundEven_comp q q' : q == q' -> roundEven q = roundEven q'.
Proof.
  intros E. unfold roundEven. rewrite (Qfloor_comp _ _ E).
  assert (C : (q - inject_Z (Qfloor q') ?= 1 # 2) = (q' - inject_Z (Qfloor q') ?= 1 # 2)).
  { apply Qcompare_comp; [rewrite E; reflexivity|reflexivity]. }
  rewrite C. reflexivity.
Qed.

Lemma Qfloor_frac q : 0 <= q - inject_Z (Qfloor q) /\ q - inject_Z (Qfloor q) < 1.
Proof.
  pose proof (Qfloor_le q). pose proof (Qlt_floor q) as U.
  rewrite inject_Z_plus in U. change (inject_Z 1) with 1 in U. lra.
Qed.

Lemma roundEven_cases q :
  let f := Qfloor q in
  (roundEven q = f /\ q - inject_Z f <= 1 # 2)
  \/ (roundEven q = (f + 1)%Z /\ 1 # 2 <= q - inject_Z f).
Proof.
  intros f. subst f. unfold roundEven.
  destruct (q - inject_Z (Qfloor q) ?= 1 # 2) eqn:C.
  - apply Qeq_alt in C. destruct (Z.even (Qfloor q)); [left|right]; split; try reflexivity; lra.
  - apply Qlt_alt in C. left. split; [reflexivity|lra].
  - apply Qgt_alt in C. right. split; [reflexivity|lra].
Qed.

Lemma roundEven_Z z : roundEven (inject_Z z) = z.
Proof.
  unfold roundEven. rewrite Qfloor_Z.
  destruct (inject_Z z - inject_Z z ?= 1 # 2) eqn:C;
    [apply Qeq_alt in C; lra|reflexivity|apply Qgt_alt in C; lra].
Qed.

Lemma roundEven_error q :
  - (1 # 2) <= inject_Z (roundEven q) - q /\ inject_Z (roundEven q) - q <= 1 # 2.
Proof.
  destruct (Qfloor_frac q) as [F0 F1].
  destruct (roundEven_cases q) as [[-> H]|[-> H]].
  - lra.
  - rewrite inject_Z_plus. change (inject_Z 1) with 1. lra.
Qed.

Lemma roundEven_mono q q' : q <= q' -> (roundEven q <= roundEven q')%Z.
Proof.
  intros H.
  assert (Hf : (Qfloor q <= Qfloor q')%Z) by (apply Qfloor_resp_le, H).
  destruct (Z.eq_dec (Qfloor q) (Qfloor q')) as [E|Hne].
  - unfold roundEven. rewrite <- E.
    destruct (q - inject_Z (Qfloor q) ?= 1 # 2) eqn:C,
             (q' - inject_Z (Qfloor q) ?= 1 # 2) eqn:C';
      compared C; compared C';
      first [lia | exfalso; lra
            | destruct (Z.even (Qfloor q)); first [lia | exfalso; lra]].
  - destruct (roundEven_cases q) as [[-> _]|[-> _]];
      destruct (roundEven_cases q') as [[-> _]|[-> _]]; lia.
Qed.

Lemma roundEven_ge q z : inject_Z z <= q -> (z <= roundEven q)%Z.
Proof. intros H. rewrite <- (roundEven_Z z). apply roundEven_mono, H. Qed.

Lemma roundEven_le q z : q <= inject_Z z -> (roundEven q <= z)%Z.
Proof. intros H. rewrite <- (roundEven_Z z). apply roundEven_mono, H. Qed.

Lemma exponent_mono x y : 0 < x -> x <= y -> (exponent x <= exponent y)%Z.
Proof. intros Hx H. unfold exponent. pose proof (ilog2_mono x y Hx H). lia. Qed.

Lemma exponent_comp x y : 0 < x -> x == y -> exponent x = exponent y.
Proof. intros Hx E. unfold exponent. rewrite (ilog2_comp x y Hx E). reflexivity. Qed.

Lemma nearest_comp x y : 0 < x -> x == y -> nearest x == nearest y.
Proof.
  intros Hx E. unfold nearest. rewrite (exponent_comp x y Hx E).
  rewrite (roundEven_comp (x / pow2 (exponent y)) (y / pow2 (exponent y)));
    [reflexivity|rewrite E; reflexivity].
Qed.

Lemma scaled (x : Q) e : x / pow2 e * pow2 e == x.
Proof. pose proof (pow2_pos e). field. lra. Qed.

Lemma nearest_nonneg x : 0 < x -> 0 <= nearest x.
Proof.
  intros Hx. unfold nearest. pose proof (pow2_pos (exponent x)) as P.
  assert (0 <= roundEven (x / pow2 (exponent x)))%Z.
  { apply roundEven_ge. change (inject_Z 0) with 0.
    apply Qle_shift_div_l; [exact P|lra]. }
  assert (0 <= inject_Z (roundEven (x / pow2 (exponent x)))).
  { change 0 with (inject_Z 0). rewrite <- Zle_Qle. assumption. }
  nra.
Qed.

(** The scaled value lies below [2^53]. *)
Lemma scaled_below x : 0 < x ->
  x / pow2 (exponent x) < pow2 (ilog2 x + 1 - exponent x).
Proof.
  intros Hx. destruct (ilog2_spec x Hx) as [_ U].
  rewrite pow2_sub. pose proof (pow2_pos (exponent x)) as P.
  apply Qlt_shift_div_l; [exact P|].
  rewrite scaled. exact U.
Qed.

Lemma nearest_le_pow2 x b : 0 < x -> (ilog2 x + 1 <= b)%Z -> (exponent x <= b)%Z ->
  nearest x <= pow2 b.
Proof.
  intros Hx Hb He. unfold nearest. set (e := exponent x) in *.
  pose proof (pow2_pos e) as P.
  assert (S : x / pow2 e < pow2 (b - e)).
  { eapply Qlt_le_trans; [apply scaled_below, Hx|]. apply pow2_le. fold e. lia. }
  rewrite (pow2_Z (b - e)) in S by lia.
  assert (R : (roundEven (x / pow2 e) <= 2 ^ (b - e))%Z).
  { apply roundEven_le. apply Qlt_le_weak, S. }
  rewrite Zle_Qle in R. rewrite <- (pow2_Z (b - e)) in R by lia.
  setoid_replace (pow2 b) with (pow2 (b - e) * pow2 e) using relation Qeq
    by (rewrite <- pow2_add; apply Qpower_comp; [reflexivity|lia]).
  apply Qmult_le_compat_r; [exact R|lra].
Qed.

Lemma nearest_ge_pow2 y b : pow2 b <= y -> (exponent y <= b)%Z -> pow2 b <= nearest y.
Proof.
  intros Hy He. unfold nearest. set (e := exponent y) in *.
  pose proof (pow2_pos e) as P. pose proof (pow2_pos b) as Pb.
  assert (S : pow2 (b - e) <= y / pow2 e).
  { rewrite pow2_sub. apply Qmult_le_compat_r; [exact Hy|].
    apply Qlt_le_weak, Qinv_lt_0_compat, P. }
  rewrite (pow2_Z (b - e)) in S by lia.
  assert (R : (2 ^ (b - e) <= roundEven (y / pow2 e))%Z) by (apply roundEven_ge, S).
  rewrite Zle_Qle in R. rewrite <- (pow2_Z (b - e)) in R by lia.
  setoid_replace (pow2 b) with (pow2 (b - e) * pow2 e) using relation Qeq
    by (rewrite <- pow2_add; apply Qpower_comp; [reflexivity|lia]).
  apply Qmult_le_compat_r; [exact R|lra].
Qed.

Lemma nearest_mono x y : 0 < x -> x <= y -> nearest x <= nearest y.
Proof.
  intros Hx H. assert (Hy : 0 < y) by lra.
  pose proof (exponent_mono x y Hx H) as He.
  destruct (Z.eq_dec (exponent x) (exponent y)) as [E|Hne].
  - unfold nearest. rewrite E. pose proof (pow2_pos (exponent y)) as P.
    apply Qmult_le_compat_r; [|lra]. rewrite <- Zle_Qle.
    apply roundEven_mono. apply Qmult_le_compat_r; [exact H|].
    apply Qlt_le_weak, Qinv_lt_0_compat, P.
  - assert (Ey : exponent y = (ilog2 y - 52)%Z) by (unfold exponent in *; lia).
    assert (Ex : (ilog2 x - 52 <= exponent x)%Z) by (unfold exponent; lia).
    destruct (ilog2_spec y Hy) as [Ly _].
    apply Qle_trans with (pow2 (ilog2 y)).
    + apply nearest_le_pow2; [exact Hx|lia|lia].
    + apply nearest_ge_pow2; [exact Ly|lia].
Qed.

Lemma ilog2_scaled m e : (0 < m)%Z -> ilog2 (inject_Z m * pow2 e) = (Z.log2 m + e)%Z.
Proof.
  intros Hm. destruct (Z.log2_spec m Hm) as [L U].
  pose proof (Z.log2_nonneg m) as Hk. set (k := Z.log2 m) in *.
  pose proof (pow2_pos e) as P.
  apply ilog2_unique.
  - rewrite pow2_add, (pow2_Z k) by lia.
    apply Qmult_le_compat_r; [rewrite <- Zle_Qle; exact L|lra].
  - replace (k + e + 1)%Z with (Z.succ k + e)%Z by lia.
    rewrite pow2_add, (pow2_Z (Z.succ k)) by lia.
    apply Qmult_lt_compat_r; [exact P|rewrite <- Zlt_Qlt; exact U].
Qed.

(** A number of at most 53 bits, scaled by a power of two that is not too
    small, is a double. *)
Lemma nearest_exact m e : (0 < m < 2 ^ 53)%Z -> (-1074 <= e)%Z ->
  nearest (inject_Z m * pow2 e) == inject_Z m * pow2 e.
Proof.
  intros Hm He. set (x := inject_Z m * pow2 e).
  assert (K : (Z.log2 m < 53)%Z) by (apply Z.log2_lt_pow2; lia).
  unfold nearest, exponent. subst x. rewrite (ilog2_scaled m e) by lia.
  set (e' := Z.max (Z.log2 m + e - 52) (-1074)).
  assert (He' : (e' <= e)%Z) by (subst e'; lia).
  pose proof (pow2_pos e') as P.
  assert (S : inject_Z m * pow2 e / pow2 e' == inject_Z (m * 2 ^ (e - e'))).
  { rewrite inject_Z_mult, <- (pow2_Z (e - e')) by lia. rewrite pow2_sub.
    field. lra. }
  rewrite (roundEven_comp _ _ S), roundEven_Z.
  rewrite inject_Z_mult, <- (pow2_Z (e - e')) by lia. rewrite pow2_sub.
  field. lra.
Qed.

Lemma nearest_shape x : 0 < x ->
  exists m, (0 <= m <= 2 ^ 53)%Z /\ nearest x == inject_Z m * pow2 (exponent x).
Proof.
  intros Hx. exists (roundEven (x / pow2 (exponent x))). split; [|reflexivity].
  pose proof (pow2_pos (exponent x)) as P. split.
  - apply roundEven_ge. change (inject_Z 0) with 0.
    apply Qle_shift_div_l; [exact P|lra].
  - apply roundEven_le. rewrite <- (pow2_Z 53) by lia.
    apply Qlt_le_weak. eapply Qlt_le_trans; [apply scaled_below, Hx|].
    apply pow2_le. unfold exponent. lia.
Qed.

Lemma nearest_idem x : 0 < x -> 0 < nearest x -> nearest (nearest x) == nearest x.
Proof.
  intros Hx Hn. destruct (nearest_shape x Hx) as (m & [M0 M1] & E).
  assert (Hee : (-1074 <= exponent x)%Z) by (unfold exponent; lia).
  pose proof (pow2_pos (exponent x)) as P.
  assert (Hm : (0 < m)%Z).
  { destruct (Z.eq_dec m 0%Z) as [->|]; [|lia]. rewrite E in Hn.
    change (inject_Z 0) with 0 in Hn. lra. }
  rewrite (nearest_comp _ _ Hn E).
  destruct (Z.eq_dec m (2 ^ 53)%Z) as [->|Hne].
  - assert (E2 : inject_Z (2 ^ 53) * pow2 (exponent x)
                 == inject_Z (2 ^ 52) * pow2 (exponent x + 1)).
    { rewrite pow2_S. change (2 ^ 53)%Z with (2 * 2 ^ 52)%Z.
      rewrite inject_Z_mult. change (inject_Z 2) with 2. ring. }
    assert (Pos : 0 < inject_Z (2 ^ 53) * pow2 (exponent x)).
    { assert (0 < inject_Z (2 ^ 53)) by reflexivity. nra. }
    rewrite (nearest_comp _ _ Pos E2), E, E2.
    apply nearest_exact; [split; reflexivity|lia].
  - rewrite E. apply nearest_exact; lia.
Qed.

Lemma round_pos x : 0 < x -> round x = nearest x.
Proof.
  intros H. unfold round.
  destruct (x ?= 0) eqn:C; compared C; [lra|lra|reflexivity].
Qed.

Lemma round_neg x : x < 0 -> round x = - nearest (- x).
Proof.
  intros H. unfold round.
  destruct (x ?= 0) eqn:C; compared C; [lra|reflexivity|lra].
Qed.

Lemma round_zero x : x == 0 -> round x = 0.
Proof.
  intros H. unfold round.
  destruct (x ?= 0) eqn:C; compared C; [reflexivity|lra|lra].
Qed.

Lemma round_comp x y : x == y -> round x == round y.
Proof.
  intros E. destruct (Q_dec x 0) as [[H|H]|H].
  - rewrite (round_neg x H), (round_neg y) by lra.
    apply Qopp_comp. apply nearest_comp; [lra|rewrite E; reflexivity].
  - rewrite (round_pos x H), (round_pos y) by lra. apply nearest_comp; assumption.
  - rewrite (round_zero x H), (round_zero y) by lra. reflexivity.
Qed.

Lemma round_nonneg x : 0 <= x -> 0 <= round x.
Proof.
  intros H. destruct (Qle_lt_or_eq _ _ H) as [P|P].
  - rewrite (round_pos x P). apply nearest_nonneg, P.
  - rewrite (round_zero x) by lra. lra.
Qed.

Lemma round_nonpos x : x <= 0 -> round x <= 0.
Proof.
  intros H. destruct (Qle_lt_or_eq _ _ H) as [P|P].
  - rewrite (round_neg x P). pose proof (nearest_nonneg (- x)). lra.
  - rewrite (round_zero x) by lra. lra.
Qed.

(** Rounding keeps the order. *)
Lemma round_mono x y : x <= y -> round x <= round y.
Proof.
  intros H. destruct (Qlt_le_dec 0 x) as [Px|Nx].
  - rewrite (round_pos x Px), (round_pos y) by lra. apply nearest_mono; assumption.
  - destruct (Qlt_le_dec y 0) as [Ny|Py].
    + rewrite (round_neg x), (round_neg y) by lra.
      assert (nearest (- y) <= nearest (- x)) by (apply nearest_mono; lra). lra.
    + pose proof (round_nonpos x Nx). pose proof (round_nonneg y Py). lra.
Qed.

(** Which rationals are doubles: those that rounding leaves alone. *)
Lemma round_exact m e : (Z.abs m < 2 ^ 53)%Z -> (-1074 <= e)%Z ->
  round (inject_Z m * pow2 e) == inject_Z m * pow2 e.
Proof.
  intros Hm He. pose proof (pow2_pos e) as P.
  destruct (Z.lt_trichotomy m 0%Z) as [N|[->|Pm]].
  - assert (X : inject_Z m * pow2 e < 0).
    { assert (inject_Z m < 0) by (change 0 with (inject_Z 0); rewrite <- Zlt_Qlt; lia). nra. }
    rewrite (round_neg _ X).
    assert (E : - (inject_Z m * pow2 e) == inject_Z (- m) * pow2 e)
      by (rewrite inject_Z_opp; ring).
    assert (Pn : 0 < - (inject_Z m * pow2 e)) by lra.
    rewrite (nearest_comp _ _ Pn E), nearest_exact by lia.
    rewrite inject_Z_opp. ring.
  - rewrite round_zero; [|change (inject_Z 0) with 0; ring].
    change (inject_Z 0) with 0. ring.
  - assert (X : 0 < inject_Z m * pow2 e).
    { assert (0 < inject_Z m) by (change 0 with (inject_Z 0); rewrite <- Zlt_Qlt; lia). nra. }
    rewrite (round_pos _ X). apply nearest_exact; lia.
Qed.

Lemma round_Z z : (Z.abs z <= 2 ^ 53)%Z -> round (inject_Z z) == inject_Z z.
Proof.
  intros H. destruct (Z.eq_dec (Z.abs z) (2 ^ 53)%Z) as [E|Hne].
  - assert (Ez : inject_Z z == inject_Z (z / 2) * pow2 1).
    { change (pow2 1) with (inject_Z 2). rewrite <- inject_Z_mult.
      assert (z = z / 2 * 2)%Z by (destruct (Z.abs_spec z) as [[_ A]|[_ A]]; rewrite A in E;
                                    [subst z; reflexivity|replace z with (- 2 ^ 53)%Z by lia; reflexivity]).
      rewrite <- H0. reflexivity. }
    rewrite Ez at 2. rewrite (round_comp _ _ Ez). apply round_exact; [|lia].
    destruct (Z.abs_spec z) as [[_ A]|[_ A]]; rewrite A in E.
    + subst z. reflexivity.
    + replace z with (- 2 ^ 53)%Z by lia. reflexivity.
  - assert (Ez : inject_Z z == inject_Z z * pow2 0) by (change (pow2 0) with 1; ring).
    rewrite Ez at 2. rewrite (round_comp _ _ Ez). apply round_exact; lia.
Qed.

Lemma round_idem x : round (round x) == round x.
Proof.
  destruct (Q_dec x 0) as [[H|H]|H].
  - rewrite (round_neg x H). pose proof (nearest_nonneg (- x) ltac:(lra)) as N.
    destruct (Qle_lt_or_eq _ _ N) as [P|P].
    + rewrite (round_neg (- nearest (- x))) by lra.
      assert (E : - - nearest (- x) == nearest (- x)) by ring.
      assert (Pn : 0 < - - nearest (- x)) by lra.
      rewrite (nearest_comp _ _ Pn E), nearest_idem by lra. reflexivity.
    + rewrite round_zero by lra. lra.
  - rewrite (round_pos x H). pose proof (nearest_nonneg x H) as N.
    destruct (Qle_lt_or_eq _ _ N) as [P|P].
    + rewrite (round_pos _ P). apply nearest_idem; assumption.
    + rewrite round_zero by lra. lra.
  - rewrite (round_zero x H). reflexivity.
Qed.

Lemma finite_round x : finite (round x).
Proof. apply round_idem. Qed.

Lemma finite_0 : finite 0.
Proof. reflexivity. Qed.

Lemma finite_comp x y : x == y -> finite x -> finite y.
Proof. unfold finite. intros E H. rewrite <- E at 2. rewrite <- H. apply round_comp. symmetry. exact E. Qed.

(** Adding something that is not negative to a double, and rounding,
    does not go below it. *)
Lemma round_add_ge x d : finite x -> 0 <= d -> x <= round (x + d).
Proof.
  intros F H. unfold finite in F. rewrite <- F at 1. apply round_mono. lra.
Qed.

(** The error of one rounding, for a number that is not subnormal. *)
Lemma nearest_error x : pow2 (-1022) <= x ->
  - (x * pow2 (-53)) <= nearest x - x /\ nearest x - x <= x * pow2 (-53).
Proof.
  intros H. assert (Hx : 0 < x) by (pose proof (pow2_pos (-1022)); lra).
  destruct (ilog2_spec x Hx) as [L U].
  assert (K : (-1022 <= ilog2 x)%Z).
  { assert (-1022 < ilog2 x + 1)%Z by (apply pow2_lt_inv; lra). lia. }
  unfold nearest. assert (E : exponent x = (ilog2 x - 52)%Z) by (unfold exponent; lia).
  rewrite E. set (e := (ilog2 x - 52)%Z). pose proof (pow2_pos e) as P.
  destruct (roundEven_error (x / pow2 e)) as [R0 R1].
  set (r := inject_Z (roundEven (x / pow2 e))) in *.
  assert (S : x == x / pow2 e * pow2 e) by (symmetry; apply scaled).
  assert (B : pow2 e * (1 # 2) <= x * pow2 (-53)).
  { assert (B1 : pow2 e * (1 # 2) == pow2 (ilog2 x) * pow2 (-53)).
    { change (1 # 2) with (pow2 (-1)). rewrite <- !pow2_add.
      apply Qpower_comp; [reflexivity|subst e; lia]. }
    rewrite B1. apply Qmult_le_compat_r; [exact L|apply Qlt_le_weak, pow2_pos]. }
  set (q := x / pow2 e) in *.
  assert (D : r * pow2 e - x == (r - q) * pow2 e) by (rewrite S at 1; ring).
  split.
  - rewrite D. assert (- (1 # 2) * pow2 e <= (r - q) * pow2 e)
      by (apply Qmult_le_compat_r; lra). lra.
  - rewrite D. assert ((r - q) * pow2 e <= (1 # 2) * pow2 e)
      by (apply Qmult_le_compat_r; lra). lra.
Qed.

Lemma round_error x : pow2 (-1022) <= x ->
  - (x * pow2 (-53)) <= round x - x /\ round x - x <= x * pow2 (-53).
Proof.
  intros H. assert (Hx : 0 < x) by (pose proof (pow2_pos (-1022)); lra).
  rewrite (round_pos x Hx). apply nearest_error, H.
Qed.

(** The doubles below 1 end at [1 - 2^-53]. *)
Lemma finite_below_1 r : finite r -> r < 1 -> r <= 1 - pow2 (-53).
Proof.
  intros F H. destruct (Qlt_le_dec 0 r) as [Hr|Hr].
  2:{ assert (pow2 (-53) < 1) by reflexivity. lra. }
  unfold finite in F. rewrite (round_pos r Hr) in F.
  destruct (ilog2_spec r Hr) as [L U].
  assert (K : (ilog2 r < 0)%Z).
  { apply pow2_lt_inv. change (pow2 0) with 1. lra. }
  destruct (Z.eq_dec (ilog2 r) (-1)%Z) as [E|Hne].
  - unfold nearest, exponent in F. rewrite E in F.
    change (Z.max (-1 - 52) (-1074)) with (-53)%Z in F.
    set (m := roundEven (r / pow2 (-53))) in *.
    assert (M : (m < 2 ^ 53)%Z).
    { rewrite Zlt_Qlt. assert (P : 0 < pow2 (-53)) by reflexivity.
      assert (inject_Z m * pow2 (-53) < 1) by lra.
      assert (E1 : inject_Z (2 ^ 53) * pow2 (-53) == 1) by reflexivity.
      apply Qnot_le_lt. intros C.
      assert (inject_Z (2 ^ 53) * pow2 (-53) <= inject_Z m * pow2 (-53))
        by (apply Qmult_le_compat_r; [exact C|lra]).
      lra. }
    assert (M' : (m <= 2 ^ 53 - 1)%Z) by lia.
    rewrite Zle_Qle in M'. rewrite <- F.
    assert (E1 : inject_Z (2 ^ 53 - 1) * pow2 (-53) == 1 - pow2 (-53)) by reflexivity.
    rewrite <- E1. apply Qmult_le_compat_r; [exact M'|]. discriminate.
  - assert (r < pow2 (-1)) by (eapply Qlt_le_trans; [exact U|apply pow2_le; lia]).
    assert (pow2 (-1) <= 1 - pow2 (-53)) by discriminate. lra.
Qed.

(** A double below 1 times a whole number, rounded, stays below that
    number. *)
Lemma round_product_below r n : finite r -> 0 <= r -> r < 1 -> (0 < n)%Z ->
  0 <= round (r * inject_Z n) /\ round (r * inject_Z n) < inject_Z n.
Proof.
  intros F R0 R1 Hn. pose proof (finite_below_1 r F R1) as B.
  assert (N : 1 <= inject_Z n) by (change 1 with (inject_Z 1); rewrite <- Zle_Qle; lia).
  assert (X0 : 0 <= r * inject_Z n) by nra.
  split; [apply round_nonneg, X0|].
  set (x := r * inject_Z n) in *.
  assert (P53 : 0 < pow2 (-53)) by reflexivity.
  assert (X1 : x <= inject_Z n * (1 - pow2 (-53))) by (subst x; nra).
  destruct (Qlt_le_dec x (pow2 (-1022))) as [T|T].
  - assert (round x <= round (pow2 (-1022))) by (apply round_mono; lra).
    assert (round (pow2 (-1022)) == pow2 (-1022)).
    { assert (E : pow2 (-1022) == inject_Z 1 * pow2 (-1022)) by (change (inject_Z 1) with 1; ring).
      rewrite E at 2. rewrite (round_comp _ _ E). apply round_exact; [reflexivity|lia]. }
    assert (pow2 (-1022) < 1) by (change 1 with (pow2 0); apply pow2_lt; lia).
    lra.
  - destruct (round_error x T) as [_ E].
    assert (x * pow2 (-53) <= inject_Z n * (1 - pow2 (-53)) * pow2 (-53))
      by (apply Qmult_le_compat_r; lra).
    nra.
Qed.

(** [round] on some sums, products and quotients, beside the binary64
    arithmetic of the machine. *)
Example round_like_the_machine :
  let same (f : float) (q : Q) := option_map Qred (ofFloat f) = Some (Qred q) in
  same (1 / 10 + 2 / 10)%float (round (round (1 # 10) + round (2 # 10)))
  /\ same (7 / 10 * 10)%float (round (round (7 # 10) * 10))
  /\ same (6 / 10 * 5)%float (round (round (6 # 10) * 5))
  /\ same (1 / 12000 + 1 / 12000 + 1 / 12000)%float
          (round (round (round (1 # 12000) + round (1 # 12000)) + round (1 # 12000)))
  /\ same (1 / 3 - 1)%float (round (round (1 # 3) - 1))
  /\ same (9007199254740992 + 1)%float (round (9007199254740992 + 1))
  /\ same (9007199254740994 + 1)%float (round (9007199254740994 + 1))
  /\ same (Z.ldexp 1 (-1074)%Z / 2)%float (round (pow2 (-1074) / 2))
  /\ same (Z.ldexp 3 (-1074)%Z / 2)%float (round (3 * pow2 (-1074) / 2))
  /\ same (Z.ldexp 1 (-1074)%Z * 3 / 4)%float (round (round (pow2 (-1074) * 3) / 4)).
Proof. vm_compute. repeat split. Qed.

End DoubleFacts.

(* ===================================================================== *)
(** ** Properties of the decoder *)
(* ===================================================================== *)

Section DecoderFacts.
Import Decoder.

Lemma byteZ_range b : 0 <= byteZ b < 256.
Proof. unfold byteZ. pose proof (Byte.to_N_bounded b). lia. Qed.

Lemma lor_below_pow2 a b n :
  0 <= a < 2 ^ n -> 0 <= b < 2 ^ n -> 0 <= n -> 0 <= Z.lor a b < 2 ^ n.
Proof.
  intros Ha Hb Hn.
  assert (Hnn : 0 <= Z.lor a b) by (apply Z.lor_nonneg; lia).
  split; [exact Hnn|].
  destruct (Z.eq_dec (Z.lor a b) 0) as [->|Hne]; [apply Z.pow_pos_nonneg; lia|].
  destruct (Z.eq_dec n 0) as [->|Hn0].
  { assert (a = 0) by (change (2 ^ 0) with 1 in Ha; lia).
    assert (b = 0) by (change (2 ^ 0) with 1 in Hb; lia).
    subst. exfalso. apply Hne. reflexivity. }
  apply Z.log2_lt_pow2; [lia|].
  rewrite Z.log2_lor by lia.
  apply Z.max_lub_lt.
  - destruct (Z.eq_dec a 0) as [->|]; [change (Z.log2 0) with 0; lia|]. apply Z.log2_lt_pow2; lia.
  - destruct (Z.eq_dec b 0) as [->|]; [change (Z.log2 0) with 0; lia|]. apply Z.log2_lt_pow2; lia.
Qed.

Lemma toInt16_range lo hi : -32768 <= toInt16 lo hi < 32768.
Proof.
  unfold toInt16.
  pose proof (byteZ_range lo) as Hl. pose proof (byteZ_range hi) as Hh.
  set (u := Z.lor _ _).
  assert (Hu : 0 <= u < 2 ^ 16).
  { subst u. apply lor_below_pow2; [lia| |lia].
    rewrite Z.shiftl_mul_pow2 by lia. lia. }
  destruct (u <? 32768) eqn:E; [apply Z.ltb_lt in E | apply Z.ltb_ge in E]; lia.
Qed.

(** The two bytes are the low and the high half of the 16-bit pattern. *)
Lemma toInt16_pattern lo hi :
  toInt16 lo hi mod 65536 = byteZ lo + 256 * byteZ hi.
Proof.
  unfold toInt16.
  pose proof (byteZ_range lo) as Hl. pose proof (byteZ_range hi) as Hh.
  assert (E : Z.lor (byteZ lo) (Z.shiftl (byteZ hi) 8) = byteZ lo + 256 * byteZ hi).
  { rewrite Z.shiftl_mul_pow2 by lia.
    assert (Hland : Z.land (byteZ lo) (byteZ hi * 2 ^ 8) = 0).
    { apply Z.bits_inj'. intros n Hn. rewrite Z.land_spec, Z.bits_0.
      destruct (Z.lt_ge_cases n 8).
      - rewrite Z.mul_pow2_bits_low by lia. apply andb_false_r.
      - rewrite (Z.bits_above_log2 (byteZ lo)); [reflexivity|lia|].
        destruct (Z.eq_dec (byteZ lo) 0) as [->|]; [change (Z.log2 0) with 0; lia|].
        apply Z.log2_lt_pow2; [lia|].
        apply Z.lt_le_trans with (2 ^ 8); [lia|]. apply Z.pow_le_mono_r; lia. }
    rewrite <- (Z.lxor_lor _ _ Hland), <- (Z.add_nocarry_lxor _ _ Hland).
    change (2 ^ 8) with 256. lia. }
  rewrite E.
  destruct (_ <? 32768) eqn:L; [apply Z.ltb_lt in L | apply Z.ltb_ge in L].
  - apply Z.mod_small. lia.
  - replace (byteZ lo + 256 * byteZ hi - 65536)
      with (byteZ lo + 256 * byteZ hi + (-1) * 65536) by lia.
    rewrite Z.mod_add by lia. apply Z.mod_small. lia.
Qed.

Lemma int16Array_range data :
  (forall l, int16Array data = Some l -> Forall int16 l)
  /\ (forall x l, int16Array (x :: data) = Some l -> Forall int16 l).
Proof.
  induction data as [|y data [IH1 IH2]]; split.
  - intros l [= <-]. constructor.
  - intros x l [=].
  - apply IH2.
  - intros x l. cbn [int16Array]. 
    destruct (int16Array data) as [r|] eqn:E; intros [= <-].
    constructor; [apply toInt16_range | apply IH1; reflexivity].
Qed.

Lemma int16Array_length data :
  (forall l, int16Array data = Some l -> length data = (2 * length l)%nat)
  /\ (forall x l, int16Array (x :: data) = Some l -> S (length data) = (2 * length l)%nat).
Proof.
  induction data as [|y data [IH1 IH2]]; split.
  - intros l [= <-]. reflexivity.
  - intros x l [=].
  - apply IH2.
  - intros x l. cbn [int16Array].
    destruct (int16Array data) as [r|] eqn:E; intros [= <-].
    cbn [length]. rewrite (IH1 r eq_refl). lia.
Qed.

(** An even number of bytes always makes an [Int16Array]. *)
Lemma int16Array_even data :
  (Nat.even (length data) = true -> is_Some (int16Array data))
  /\ (forall x, Nat.even (S (length data)) = true -> is_Some (int16Array (x :: data))).
Proof.
  induction data as [|y data [IH1 IH2]]; split.
  - intros _. eexists; reflexivity.
  - intros x [=].
  - apply IH2.
  - intros x H. cbn [int16Array]. cbn [length] in H.
    change (Nat.even (S (S (length data)))) with (Nat.even (length data)) in H.
    destruct (IH1 H) as [r ->]. eexists; reflexivity.
Qed.

Lemma sample_normalised dataInt16 nc c i :
  Forall int16 dataInt16 -> normalised (sample dataInt16 nc c i).
Proof.
  intros H. unfold sample.
  assert (R : int16 (nth (i * nc + c) dataInt16 0)).
  { destruct (Nat.lt_ge_cases (i * nc + c) (length dataInt16)) as [Hlt|Hge].
    - rewrite List.Forall_forall in H. apply H. apply nth_In. exact Hlt.
    - rewrite nth_overflow by exact Hge. unfold int16. lia. }
  unfold int16 in R. unfold normalised, Qle, Qlt. simpl. lia.
Qed.

Lemma int16Array_lookup data :
  (forall l, int16Array data = Some l ->
     forall i : nat, (i < length l)%nat ->
       exists lo hi, data !! (2 * i)%nat = Some lo
                     /\ data !! (2 * i + 1)%nat = Some hi
                     /\ l !! i = Some (toInt16 lo hi))
  /\ (forall x l, int16Array (x :: data) = Some l ->
        forall i : nat, (i < length l)%nat ->
          exists lo hi, (x :: data) !! (2 * i)%nat = Some lo
                        /\ (x :: data) !! (2 * i + 1)%nat = Some hi
                        /\ l !! i = Some (toInt16 lo hi)).
Proof.
  induction data as [|y data [IH1 IH2]]; split.
  - intros l [= <-] i Hi. cbn in Hi. lia.
  - intros x l [=].
  - apply IH2.
  - intros x l. cbn [int16Array].
    destruct (int16Array data) as [r|] eqn:E; intros [= <-] i Hi.
    destruct i as [|i].
    + exists x, y. cbn. auto.
    + cbn [length] in Hi. destruct (IH1 r eq_refl i) as (lo & hi & H0 & H1 & H2); [lia|].
      exists lo, hi. replace (2 * S i)%nat with (S (S (2 * i))) by lia.
      replace (S (S (2 * i)) + 1)%nat with (S (S (2 * i + 1))) by lia.
      cbn. auto.
Qed.

Lemma createBuffer_positive ctx nc len sr :
  createBuffer ctx nc len sr = true -> (0 < nc)%nat /\ (0 < len)%nat /\ 0 < sr.
Proof.
  unfold createBuffer. intros H.
  apply andb_true_iff in H as [H _]. apply andb_true_iff in H as [H _].
  apply andb_true_iff in H as [H Hs]. apply andb_true_iff in H as [H Hl].
  apply andb_true_iff in H as [H _].
  apply Nat.leb_le in H. apply Nat.leb_le in Hl. apply Z.ltb_lt in Hs. lia.
Qed.

(** Every context accepts the default arguments. *)
Lemma decodeAudioData_default ctx data :
  conforming ctx -> decodeAudioData data ctx 24000 1 = decodeAudioDataDefault data.
Proof.
  intros (C1 & C2 & C3). unfold decodeAudioDataDefault, decodeAudioData.
  destruct (int16Array data) as [l|]; [|reflexivity]. cbn [mbind option_bind].
  assert (E : createBuffer ctx 1 (length l / 1) 24000
              = createBuffer standard 1 (length l / 1) 24000).
  { unfold createBuffer. cbn [maxChannels minRate maxRate standard].
    replace (1 <=? maxChannels ctx)%nat with true by (symmetry; apply Nat.leb_le; lia).
    replace (minRate ctx <=? 24000) with true by (symmetry; apply Z.leb_le; lia).
    replace (24000 <=? maxRate ctx) with true by (symmetry; apply Z.leb_le; lia).
    reflexivity. }
  rewrite E. reflexivity.
Qed.

(** C10. When [decodeAudioData] returns a buffer, the payload is a
    sequence of little-endian signed 16-bit integers, two bytes each; the
    buffer has the channels asked for and as many frames as there are
    integers per channel, at least one; the sample [i] of channel [ch] is
    the integer number [i * numChannels + ch] divided by 32768, hence at
    least -1 and below 1. It returns a buffer exactly when the number of
    bytes is even and [createBuffer] accepts the arguments. *)
Theorem decodeAudioData_normalised (data : list byte) (ctx : Limits) (sr : Z)
  (nc : nat) :
  (is_Some (decodeAudioData data ctx sr nc)
   <-> exists n : nat, length data = (2 * n)%nat
                       /\ createBuffer ctx nc (n / nc) sr = true)
  /\ forall b, decodeAudioData data ctx sr nc = Some b ->
     exists dataInt16,
       int16Array data = Some dataInt16
       /\ length data = (2 * length dataInt16)%nat
       /\ (forall i : nat, (i < length dataInt16)%nat ->
             exists lo hi,
               data !! (2 * i)%nat = Some lo /\ data !! (2 * i + 1)%nat = Some hi
               /\ dataInt16 !! i = Some (toInt16 lo hi)
               /\ toInt16 lo hi mod 65536 = byteZ lo + 256 * byteZ hi
               /\ int16 (toInt16 lo hi))
       /\ numberOfChannels b = nc /\ sampleRate b = sr
       /\ frames b = (length dataInt16 / nc)%nat /\ (0 < frames b)%nat
       /\ length (channelData b) = nc
       /\ (forall ch i : nat, (ch < nc)%nat -> (i < frames b)%nat ->
             exists k samples,
               channelData b !! ch = Some samples
               /\ length samples = frames b
               /\ dataInt16 !! (i * nc + ch)%nat = Some k
               /\ samples !! i = Some (Qmake k 32768)
               /\ normalised (Qmake k 32768))
       /\ Forall (Forall normalised) (channelData b).
Proof.
  split.
  - unfold decodeAudioData. split.
    + intros [b H]. destruct (int16Array data) as [l|] eqn:E; [|discriminate].
      cbn [mbind option_bind] in H.
      destruct (createBuffer ctx nc (length l / nc) sr) eqn:C; [|discriminate].
      exists (length l). split; [|exact C].
      apply (proj1 (int16Array_length data) l E).
    + intros (n & Hn & C).
      assert (Ev : Nat.even (length data) = true).
      { rewrite Hn. apply Nat.even_spec. exists n. reflexivity. }
      destruct (proj1 (int16Array_even data) Ev) as [l E]. rewrite E.
      cbn [mbind option_bind].
      pose proof (proj1 (int16Array_length data) l E) as Hl.
      assert (length l = n) by lia. subst n. rewrite C. eexists; reflexivity.
  - intros b H. unfold decodeAudioData in H.
    destruct (int16Array data) as [l|] eqn:E; [|discriminate].
    cbn [mbind option_bind] in H.
    destruct (createBuffer ctx nc (length l / nc) sr) eqn:C; [|discriminate].
    injection H as <-. cbn [numberOfChannels frames sampleRate channelData].
    destruct (createBuffer_positive _ _ _ _ C) as (Hnc & Hfr & _).
    pose proof (proj1 (int16Array_range data) l E) as R.
    exists l. split; [reflexivity|].
    split; [apply (proj1 (int16Array_length data) l E)|].
    split.
    { intros i Hi.
      destruct (proj1 (int16Array_lookup data) l E i Hi) as (lo & hi & H0 & H1 & H2).
      exists lo, hi. repeat split; try assumption.
      - apply toInt16_pattern.
      - apply toInt16_range.
      - apply toInt16_range. }
    split; [reflexivity|]. split; [reflexivity|]. split; [reflexivity|].
    split; [exact Hfr|].
    split; [rewrite length_map, length_seq; reflexivity|].
    split.
    { intros ch i Hch Hi.
      assert (Hidx : (i * nc + ch < length l)%nat).
      { pose proof (Nat.Div0.mul_div_le (length l) nc).
        assert (S i * nc <= length l `div` nc * nc)%nat
          by (apply Nat.mul_le_mono_r; lia).
        lia. }
      destruct (lookup_lt_is_Some_2 l _ Hidx) as [k Hk].
      exists k, (List.map (sample l nc ch) (seq 0 (length l / nc))).
      split.
      { rewrite list_lookup_fmap, lookup_seq_lt by exact Hch. reflexivity. }
      split; [rewrite length_map, length_seq; reflexivity|].
      split; [exact Hk|].
      assert (Es : sample l nc ch i = Qmake k 32768).
      { unfold sample. rewrite (nth_lookup_Some _ _ _ _ Hk). reflexivity. }
      split.
      { rewrite list_lookup_fmap, lookup_seq_lt by exact Hi. cbn. rewrite Es. reflexivity. }
      rewrite <- Es. apply sample_normalised, R. }
    apply List.Forall_forall. intros ch Hch.
    apply in_map_iff in Hch. destruct Hch as [c [<- _]].
    apply List.Forall_forall. intros x Hx.
    apply in_map_iff in Hx. destruct Hx as [i [<- _]].
    apply sample_normalised. exact R.
Qed.

Lemma decodeAudioData_normalised_witness :
  exists b, decodeAudioData [x00; x80; xff; x7f; x01; x00; xfe; xff]%byte
              standard 48000 2 = Some b
            /\ channelData b
               = [[-32768 # 32768; 1 # 32768]; [32767 # 32768; -2 # 32768]]%Q
            /\ Forall (Forall normalised) (channelData b).
Proof.
  destruct (decodeAudioData_normalised
              [x00; x80; xff; x7f; x01; x00; xfe; xff]%byte standard 48000 2)
    as [[_ S] P].
  destruct S as [b Hb].
  { exists 4%nat. split; reflexivity. }
  exists b. destruct (P b Hb) as (l & _ & _ & _ & _ & _ & _ & _ & _ & _ & N).
  split; [exact Hb|]. split; [|exact N].
  vm_compute in Hb. injection Hb as <-. reflexivity.
Defined.

End DecoderFacts.


(* ===================================================================== *)
(** ** Properties of the service: what every step preserves *)
(* ===================================================================== *)

Section ServiceFacts.
Import JsString Decoder Audio.

(** A task keeps everything but its [pc]. *)
Lemma lookup_set_pc sys t0 p t k' :
  tasks (set_pc sys t0 p) !! t = Some k' ->
  exists k, tasks sys !! t = Some k
    /\ myId k' = myId k /\ waitsOn k' = waitsOn k
    /\ shouldInterrupt k' = shouldInterrupt k /\ onStart k' = onStart k
    /\ ((t = t0 /\ pc k' = p) \/ (t <> t0 /\ k' = k)).
Proof.
  unfold set_pc. cbn. intros H.
  destruct (decide (t = t0)) as [->|Hne].
  - rewrite list_lookup_alter_eq in H.
    destruct (tasks sys !! t0) as [k|] eqn:E; cbn in H; [|discriminate].
    injection H as <-. exists k. cbn. auto 10.
  - rewrite list_lookup_alter_ne in H by congruence.
    exists k'. auto 10.
Qed.

Lemma afterResume_context t k c sys :
  audioContext (svc (afterResume t k c sys)) = audioContext (svc sys).
Proof. unfold afterResume. cbn. destruct (_ || _); reflexivity. Qed.

Lemma afterResume_latest t k c sys :
  latestTTSId (svc (afterResume t k c sys)) = latestTTSId (svc sys).
Proof. unfold afterResume. cbn. destruct (_ || _); reflexivity. Qed.

Lemma afterResume_sink t k c sys :
  sink (afterResume t k c sys) = sink sys
  /\ speakingStarts (afterResume t k c sys) = speakingStarts sys.
Proof. unfold afterResume. cbn. auto. Qed.

Lemma resumeEach_cons c t ws sys :
  resumeEach c (t :: ws) sys = resumeEach c ws (resumeOne c sys t).
Proof. reflexivity. Qed.

Lemma resumeOne_frame c t sys :
  audioContext (svc (resumeOne c sys t)) = audioContext (svc sys)
  /\ latestTTSId (svc (resumeOne c sys t)) = latestTTSId (svc sys)
  /\ sink (resumeOne c sys t) = sink sys
  /\ speakingStarts (resumeOne c sys t) = speakingStarts sys.
Proof.
  unfold resumeOne. destruct (tasks sys !! t) as [k|]; [|auto].
  destruct (pc k); auto.
  rewrite afterResume_context, afterResume_latest.
  destruct (afterResume_sink t k c sys) as [-> ->]. auto.
Qed.

Lemma resumeEach_frame c ws : forall sys,
  audioContext (svc (resumeEach c ws sys)) = audioContext (svc sys)
  /\ latestTTSId (svc (resumeEach c ws sys)) = latestTTSId (svc sys)
  /\ sink (resumeEach c ws sys) = sink sys
  /\ speakingStarts (resumeEach c ws sys) = speakingStarts sys.
Proof.
  induction ws as [|t ws IH]; intros sys; [cbn; auto|].
  rewrite resumeEach_cons.
  destruct (IH (resumeOne c sys t)) as (-> & -> & -> & ->).
  apply resumeOne_frame.
Qed.

Lemma step_cursorUnset sys e :
  cursorUnset (svc sys) -> cursorUnset (svc (step sys e)).
Proof.
  unfold cursorUnset. intros H. destruct e as [dt|src| | |txt cb intr|t i]; cbn.
  - unfold tick. destruct (audioContext (svc sys)) eqn:E; [|rewrite E; exact H].
    destruct (Qle_bool 0 dt); cbn; [discriminate|]. rewrite E. discriminate.
  - exact H.
  - unfold resumeAll. destruct (audioContext (svc sys)) as [c|] eqn:E; [|rewrite E; exact H].
    destruct (suspended c); [|rewrite E; discriminate].
    destruct (resumeEach_frame {| currentTime := currentTime c; suspended := false; resumeWaiters := [] |}
                (resumeWaiters c)
                (with_svc sys (with_context (svc sys) {| currentTime := currentTime c; suspended := false; resumeWaiters := [] |})))
      as (-> & _). cbn. discriminate.
  - intros E. rewrite E. apply H, E.
  - unfold playTTS.
    set (s1 := if intr then stopAudio (svc sys) else svc sys).
    assert (H1 : audioContext s1 = None -> nextStartTime s1 = 0%Q).
    { subst s1. destruct intr; [|exact H]. cbn. intros E. rewrite E. apply H, E. }
    set (s2 := if ai s1 then s1 else initializeGemini s1).
    assert (H2 : audioContext s2 = None -> nextStartTime s2 = 0%Q).
    { subst s2. destruct (ai s1); [exact H1|]. unfold initializeGemini.
      destruct (currentApiKey s1); [cbn|]; exact H1. }
    destruct (ai s2); cbn; exact H2.
  - unfold resume. destruct (tasks sys !! t) as [k|]; [|exact H].
    destruct (pc k) as [| | |b|b [buf|]|], i as [| ch | |]; cbn; try exact H.
    + destruct (settled sys (waitsOn k)); [|exact H].
      unfold begin. destruct (negb _); [exact H|].
      destruct (suspended _); [cbn; discriminate|].
      rewrite afterResume_context. cbn. discriminate.
    + unfold onChunk. destruct (negb _); [exact H|]. destruct ch; exact H.
    + unfold onDecoded. destruct (negb _); [exact H|].
      destruct (audioContext (svc sys)) eqn:E; [|cbn; intros _; apply H; reflexivity].
      cbn. rewrite E. discriminate.
Qed.

Lemma run_cursorUnset es : forall sys,
  cursorUnset (svc sys) -> cursorUnset (svc (run sys es)).
Proof.
  induction es as [|e es IH]; intros sys H; [exact H|].
  cbn. apply IH, step_cursorUnset, H.
Qed.

(** C6. After any history of the service, [stopAudio] leaves no live
    source, chains the queue on a fulfilled promise and puts the cursor at
    zero, so that the next request waits on nothing; a second call changes
    none of the three. *)
Theorem stopAudio_clears (hasKey blocked : bool) (es : list Event) :
  let sys := step (run (initial hasKey blocked) es) StopAudio in
  let again := step sys StopAudio in
  activeSources (svc sys) = ∅
  /\ audioQueue (svc sys) = None
  /\ nextStartTime (svc sys) = 0%Q
  /\ getAudioEndTime (svc sys) = 0%Q
  /\ (forall txt cb t k,
        tasks (playTTS txt cb false sys) !! t = Some k ->
        (length (tasks sys) <= t)%nat ->
        settled (playTTS txt cb false sys) (waitsOn k) = true)
  /\ activeSources (svc again) = activeSources (svc sys)
  /\ audioQueue (svc again) = audioQueue (svc sys)
  /\ nextStartTime (svc again) = nextStartTime (svc sys).
Proof.
  intros sys again.
  assert (Hinv : cursorUnset (svc (run (initial hasKey blocked) es))).
  { apply run_cursorUnset. intros _. reflexivity. }
  assert (Hc : nextStartTime (svc sys) = 0%Q).
  { subst sys. cbn. destruct (audioContext _) eqn:E; [reflexivity|]. apply Hinv, E. }
  assert (Ha : activeSources (svc sys) = ∅) by reflexivity.
  assert (Hq : audioQueue (svc sys) = None) by reflexivity.
  clearbody sys. clear Hinv.
  split; [exact Ha|]. split; [exact Hq|]. split; [exact Hc|].
  split. { unfold getAudioEndTime. destruct (audioContext _); [exact Hc|reflexivity]. }
  split.
  { intros txt cb t k Hk Hlen. unfold playTTS in Hk.
    assert (Hq' : audioQueue (if ai (svc sys) then svc sys
                              else initializeGemini (svc sys)) = None).
    { destruct (ai (svc sys)); [exact Hq|]. unfold initializeGemini.
      destruct (currentApiKey (svc sys)); exact Hq. }
    destruct (ai (if ai (svc sys) then svc sys else initializeGemini (svc sys))).
    - cbn in Hk. apply lookup_app_Some in Hk. destruct Hk as [Hk|[_ Hk]].
      + apply lookup_lt_Some in Hk. lia.
      + destruct (t - length (tasks sys))%nat; cbn in Hk; [|discriminate].
        injection Hk as <-. cbn. rewrite Hq'. reflexivity.
    - cbn in Hk. apply lookup_lt_Some in Hk. lia. }
  subst again. cbn. rewrite Ha, Hq, Hc.
  split; [reflexivity|]. split; [reflexivity|].
  destruct (audioContext _); reflexivity.
Qed.

End ServiceFacts.


(* ===================================================================== *)
(** ** A task whose id is out of date *)
(* ===================================================================== *)

Section StaleTasks.
Import JsString Decoder Audio.

Lemma set_pc_lookup sys t0 p t k :
  tasks sys !! t = Some k ->
  exists k', tasks (set_pc sys t0 p) !! t = Some k' /\ static k' = static k
             /\ pc k' = (if decide (t = t0) then p else pc k).
Proof.
  intros H. unfold set_pc. cbn.
  destruct (decide (t = t0)) as [->|Hne].
  - rewrite list_lookup_alter_eq, H. cbn. eexists; split; eauto.
  - rewrite list_lookup_alter_ne by congruence. eauto.
Qed.

(** The latest id never decreases. *)
Lemma step_latest_mono sys e :
  latestTTSId (svc sys) <= latestTTSId (svc (step sys e)).
Proof.
  destruct e as [dt|src| | |txt cb intr|t i]; cbn.
  - unfold tick. destruct (audioContext (svc sys)); [|lia].
    destruct (Qle_bool 0 dt); cbn; lia.
  - lia.
  - unfold resumeAll. destruct (audioContext (svc sys)) as [c|]; [|lia].
    destruct (suspended c); [|lia].
    match goal with |- context [resumeEach ?c ?l ?a] =>
      destruct (resumeEach_frame c l a) as (_ & -> & _) end.
    cbn. lia.
  - lia.
  - unfold playTTS.
    assert (H1 : latestTTSId (svc sys)
                 <= latestTTSId (if intr then stopAudio (svc sys) else svc sys)).
    { destruct intr; cbn; lia. }
    set (s1 := if intr then stopAudio (svc sys) else svc sys) in *.
    assert (H2 : latestTTSId (if ai s1 then s1 else initializeGemini s1)
                 = latestTTSId s1).
    { destruct (ai s1); [reflexivity|]. unfold initializeGemini.
      destruct (currentApiKey s1); reflexivity. }
    destruct (ai (if ai s1 then s1 else initializeGemini s1)); cbn; lia.
  - unfold resume. destruct (tasks sys !! t) as [k|]; [|lia].
    destruct (pc k) as [| | |b|b [buf|]|], i as [| ch | |]; cbn; try lia.
    + destruct (settled sys (waitsOn k)); [|lia].
      unfold begin. destruct (negb _); [cbn; lia|].
      destruct (suspended _); [cbn; lia|].
      rewrite afterResume_latest. cbn. lia.
    + unfold onChunk. destruct (negb _); [cbn; lia|]. destruct ch; cbn; lia.
    + unfold onDecoded. destruct (negb _); [cbn; lia|].
      destruct (audioContext (svc sys)); cbn; lia.
Qed.

Lemma afterResume_lookup t0 k0 c sys t k :
  tasks sys !! t = Some k ->
  exists k', tasks (afterResume t0 k0 c sys) !! t = Some k' /\ static k' = static k.
Proof.
  intros H. unfold afterResume.
  match goal with |- context [set_pc ?a t0 ?p] =>
    destruct (set_pc_lookup a t0 p t k H) as (k' & ? & ? & _) end.
  eauto.
Qed.

Lemma resumeOne_lookup c sys t0 t k :
  tasks sys !! t = Some k ->
  exists k', tasks (resumeOne c sys t0) !! t = Some k' /\ static k' = static k.
Proof.
  intros H. unfold resumeOne. destruct (tasks sys !! t0) as [k0|]; [|eauto].
  destruct (pc k0); eauto. apply afterResume_lookup, H.
Qed.

Lemma resumeEach_lookup c ws : forall sys t k,
  tasks sys !! t = Some k ->
  exists k', tasks (resumeEach c ws sys) !! t = Some k' /\ static k' = static k.
Proof.
  induction ws as [|t0 ws IH]; intros sys t k H; [eauto|].
  rewrite resumeEach_cons.
  destruct (resumeOne_lookup c sys t0 t k H) as (k1 & H1 & E1).
  destruct (IH _ t k1 H1) as (k2 & H2 & E2). exists k2. split; [exact H2|congruence].
Qed.

(** Every step keeps the tasks that exist, with what [playTTS] gave them. *)
Lemma step_lookup sys e t k :
  tasks sys !! t = Some k ->
  exists k', tasks (step sys e) !! t = Some k' /\ static k' = static k.
Proof.
  intros H. destruct e as [dt|src| | |txt cb intr|t0 i]; cbn.
  - unfold tick. destruct (audioContext (svc sys)); [|eauto].
    destruct (Qle_bool 0 dt); cbn; eauto.
  - eauto.
  - unfold resumeAll. destruct (audioContext (svc sys)) as [c|]; [|eauto].
    destruct (suspended c); [|eauto].
    apply resumeEach_lookup. exact H.
  - eauto.
  - unfold playTTS. destruct (ai _); cbn; [|eauto].
    exists k. split; [|reflexivity]. apply lookup_app_l_Some, H.
  - unfold resume. destruct (tasks sys !! t0) as [k0|] eqn:E0; [|eauto].
    assert (P : forall a p, tasks a = tasks sys ->
              exists k', tasks (set_pc a t0 p) !! t = Some k' /\ static k' = static k).
    { intros a p Ha. rewrite <- Ha in H.
      destruct (set_pc_lookup a t0 p t k H) as (k' & ? & ? & _). eauto. }
    destruct (pc k0) as [| | |b|b [buf|]|], i as [| ch | |]; eauto.
    + destruct (settled sys (waitsOn k0)); [|eauto].
      unfold begin. destruct (negb _); [eauto|].
      destruct (suspended _); [apply P; reflexivity|].
      apply afterResume_lookup. exact H.
    + unfold onChunk. destruct (negb _); [eauto|]. destruct ch; eauto.
    + unfold onDecoded. destruct (negb _); [eauto|].
      destruct (audioContext (svc sys)); [|eauto]. cbn.
      destruct (decide (t = t0)) as [->|Hne].
      * rewrite list_lookup_alter_eq, H. cbn. eauto.
      * rewrite list_lookup_alter_ne by congruence. eauto.
Qed.

(** What a single step adds to the sink and to the [onStart] calls comes
    from a task whose id is the latest one. *)
Lemma step_emits sys e :
  (sink (step sys e) = sink sys
   /\ speakingStarts (step sys e) = speakingStarts sys)
  \/ (exists t k u,
        tasks sys !! t = Some k /\ myId k = latestTTSId (svc sys)
        /\ task u = t /\ owner u = myId k
        /\ sink (step sys e) = sink sys ++ [u]
        /\ (speakingStarts (step sys e) = speakingStarts sys
            \/ speakingStarts (step sys e) = speakingStarts sys ++ [t])).
Proof.
  destruct e as [dt|src| | |txt cb intr|t i]; cbn.
  - left. unfold tick. destruct (audioContext (svc sys)); [|auto].
    destruct (Qle_bool 0 dt); cbn; auto.
  - left. auto.
  - left. unfold resumeAll. destruct (audioContext (svc sys)) as [c|]; [|auto].
    destruct (suspended c); [|auto].
    match goal with |- context [resumeEach ?c ?l ?a] =>
      destruct (resumeEach_frame c l a) as (_ & _ & -> & ->) end.
    auto.
  - left. auto.
  - left. unfold playTTS. destruct (ai _); cbn; auto.
  - unfold resume. destruct (tasks sys !! t) as [k|] eqn:E; [|auto].
    destruct (pc k) as [| | |b|b [buf|]|], i as [| ch | |]; cbn; auto.
    + left. destruct (settled sys (waitsOn k)); [|auto].
      unfold begin. destruct (negb _); [auto|].
      destruct (suspended _); [auto|].
      match goal with |- context [afterResume ?t ?k ?c ?a] =>
        destruct (afterResume_sink t k c a) as [-> ->] end.
      auto.
    + left. unfold onChunk. destruct (negb _); [auto|]. destruct ch; auto.
    + unfold onDecoded. destruct (myId k =? latestTTSId (svc sys)) eqn:Q; cbn; [|auto].
      apply Z.eqb_eq in Q.
      destruct (audioContext (svc sys)) as [c|]; [|auto]. right. cbn.
      exists t, k, {| source := length (sink sys); task := t; owner := myId k;
                      start := Qmax (nextStartTime (svc sys)) (currentTime c);
                      lasts := Double.round (duration buf) |}.
      split; [exact E|]. split; [exact Q|].
      split; [reflexivity|]. split; [reflexivity|]. split; [reflexivity|].
      destruct (b && onStart k); auto.
Qed.

Lemma step_stale_silent sys e t k :
  tasks sys !! t = Some k -> myId k < latestTTSId (svc sys) ->
  unitsOf t (step sys e) = unitsOf t sys
  /\ startsOf t (step sys e) = startsOf t sys.
Proof.
  intros H Hlt. unfold unitsOf, startsOf.
  destruct (step_emits sys e) as [[-> ->]|(t' & k' & u & H' & Hid & Ht & Ho & -> & Hs)];
    [auto|].
  assert (Hne : t' <> t).
  { intros ->. rewrite H in H'. injection H' as <-. lia. }
  split.
  - rewrite List.filter_app. cbn. rewrite Ht.
    destruct (Nat.eqb_spec t' t) as [?|_]; [contradiction|]. apply app_nil_r.
  - destruct Hs as [->| ->]; [reflexivity|].
    rewrite List.filter_app. cbn.
    destruct (Nat.eqb_spec t' t) as [?|_]; [contradiction|]. apply app_nil_r.
Qed.

(** C2. Once [latestTTSId] has moved past the id a task captured, the task
    starts no source and never calls [onStart], whatever happens next and
    wherever the task is waiting. *)
Theorem stale_task_is_silent (sys : System) (t : nat) (k : Task)
  (es : list Event) :
  tasks sys !! t = Some k ->
  myId k < latestTTSId (svc sys) ->
  unitsOf t (run sys es) = unitsOf t sys
  /\ startsOf t (run sys es) = startsOf t sys.
Proof.
  revert sys k. induction es as [|e es IH]; intros sys k H Hlt; [auto|].
  cbn [run fold_left]. fold (run (step sys e) es).
  destruct (step_lookup sys e t k H) as (k' & H' & Hst).
  assert (Hid : myId k' = myId k) by (unfold static in Hst; congruence).
  pose proof (step_latest_mono sys e) as Hmono.
  destruct (IH (step sys e) k' H' ltac:(lia)) as [-> ->].
  apply (step_stale_silent sys e t k H Hlt).
Qed.

Lemma stale_task_is_silent_witness :
  unitsOf 0 (run interrupted aftermath) = unitsOf 0 interrupted
  /\ startsOf 0 (run interrupted aftermath) = startsOf 0 interrupted.
Proof.
  eapply stale_task_is_silent.
  - vm_compute. reflexivity.
  - vm_compute. reflexivity.
Defined.

(** Without the interruption the same resumptions do start a source and
    call [onStart]. *)
Example fresh_task_is_heard :
  let sys := run (initial true false)
                 [PlayTTS (lit "Hi.") true true; Resume 0 Fulfilled;
                  Resume 0 Fulfilled; Resume 0 (Next (Inline twoSamples))] in
  List.map task (unitsOf 0 (run sys aftermath)) = [0%nat; 0%nat]
  /\ startsOf 0 (run sys aftermath) = [0%nat]
  /\ unitsOf 0 (run interrupted aftermath) = [].
Proof. vm_compute. auto. Qed.

End StaleTasks.


(* ===================================================================== *)
(** ** The invariant of the scheduling lane *)
(* ===================================================================== *)

Section Scheduling.
Import JsString Decoder Audio.

Lemma alter_pc_lookup (ts : list Task) (t : nat) p (x : nat) k :
  ts !! x = Some k ->
  exists k', alter (fun k => at_pc k p) t ts !! x = Some k'
             /\ static k' = static k
             /\ ((x = t /\ pc k' = p) \/ (x <> t /\ k' = k)).
Proof.
  intros H. destruct (decide (x = t)) as [->|Hne].
  - rewrite list_lookup_alter_eq, H. cbn. eexists. split; [reflexivity|].
    split; [reflexivity|]. left. auto.
  - rewrite list_lookup_alter_ne by congruence. exists k. auto.
Qed.

Lemma alter_pc_inv (ts : list Task) (t : nat) p (x : nat) k' :
  alter (fun k => at_pc k p) t ts !! x = Some k' ->
  exists k, ts !! x = Some k
            /\ static k' = static k
            /\ ((x = t /\ pc k' = p) \/ (x <> t /\ k' = k)).
Proof.
  intros H. destruct (decide (x = t)) as [->|Hne].
  - rewrite list_lookup_alter_eq in H.
    destruct (ts !! t) as [k|]; cbn in H; [|discriminate].
    injection H as <-. exists k. split; [reflexivity|].
    split; [reflexivity|]. left. auto.
  - rewrite list_lookup_alter_ne in H by congruence. exists k'. auto.
Qed.

Ltac static_eqs :=
  repeat match goal with
    | H : static _ = static _ |- _ => unfold static in H; injection H as ? ? ? ? ?
    end.

Lemma InvOn_bump L q cur cur' r ts sk :
  InvOn L q cur r ts sk -> InvOn (L + 1) None cur' r ts sk.
Proof.
  intros [I1 I2 I3 I4 I5 I6 I7 I8 I9 I10]. split.
  - intros t k H. specialize (I1 t k H). lia.
  - intros u H. specialize (I2 u H). lia.
  - intros t k H. specialize (I1 t k H). lia.
  - intros t k H E. specialize (I1 t k H). lia.
  - intros t k H E. specialize (I1 t k H). lia.
  - intros t k t' k' H E. specialize (I1 t k H). lia.
  - exact I7.
  - intros u Hu E. assert (u ∈ sk) as Hin.
    { apply last_Some in Hu. destruct Hu as [l' Hl]. rewrite Hl.
      apply elem_of_app. right. apply list_elem_of_singleton. reflexivity. }
    specialize (I2 u Hin). lia.
  - intros u Hu E. assert (u ∈ sk) as Hin.
    { apply last_Some in Hu. destruct Hu as [l' Hl]. rewrite Hl.
      apply elem_of_app. right. apply list_elem_of_singleton. reflexivity. }
    specialize (I2 u Hin). lia.
  - exact I10.
Qed.

Lemma InvOn_alter L q cur cur' r r' (ts : list Task) sk (t : nat) k p :
  InvOn L q cur r ts sk ->
  ts !! t = Some k ->
  (r' = false -> r = false /\ parked p = true) ->
  (pc k = Done -> p = Done) ->
  (pc k = Queued -> p <> Queued -> myId k = L ->
   forall t' k', (t' < t)%nat -> ts !! t' = Some k' -> myId k' = L -> pc k' = Done) ->
  (waiting p = true -> waiting (pc k) = true) ->
  (forall u, last sk = Some u -> owner u = L -> (finish u <= cur')%Q) ->
  InvOn L q cur' r' (alter (fun k => at_pc k p) t ts) sk.
Proof.
  intros [I1 I2 I3 I4 I5 I6 I7 I8 I9 I10] Hk Hr Hdone Hfirst Hwait Hcur. split.
  - intros x kx' Hx. destruct (alter_pc_inv _ _ _ _ _ Hx) as (kx & Hx0 & Hs & _).
    static_eqs. specialize (I1 x kx Hx0). lia.
  - exact I2.
  - destruct q as [p0|].
    + destruct I3 as (Hlen & k0 & Hk0 & Hid0). split; [rewrite length_alter; exact Hlen|].
      destruct (alter_pc_lookup ts t p p0 k0 Hk0) as (k0' & ? & Hs & _).
      static_eqs. exists k0'. split; [assumption|lia].
    + intros x kx' Hx. destruct (alter_pc_inv _ _ _ _ _ Hx) as (kx & Hx0 & Hs & _).
      static_eqs. specialize (I3 x kx Hx0). lia.
  - intros x kx' Hx E. destruct (alter_pc_inv _ _ _ _ _ Hx) as (kx & Hx0 & Hs & _).
    static_eqs. specialize (I4 x kx Hx0 ltac:(lia)).
    replace (waitsOn kx') with (waitsOn kx) by congruence.
    destruct (waitsOn kx) as [p0|].
    + destruct I4 as (? & k0 & Hk0 & Hid0). split; [assumption|].
      destruct (alter_pc_lookup ts t p p0 k0 Hk0) as (k0' & ? & Hs & _).
      static_eqs. exists k0'. split; [assumption|lia].
    + intros y ky' Hlt Hy. destruct (alter_pc_inv _ _ _ _ _ Hy) as (ky & Hy0 & Hs & _).
      static_eqs. specialize (I4 y ky Hlt Hy0). lia.
  - intros x kx' Hx E Hi. destruct (alter_pc_inv _ _ _ _ _ Hx) as (kx & Hx0 & Hs & _).
    static_eqs. rewrite (I5 x kx Hx0) in *; congruence.
  - intros x kx' y ky' Hx E Hpc Hlt Hy Ey.
    destruct (alter_pc_inv _ _ _ _ _ Hx) as (kx & Hx0 & Hsx & Cx).
    destruct (alter_pc_inv _ _ _ _ _ Hy) as (ky & Hy0 & Hsy & Cy).
    static_eqs.
    assert (Hold : pc ky = Done).
    { destruct Cx as [[-> Hp]|[Hne ->]].
      - rewrite Hk in Hx0. injection Hx0 as <-.
        assert (pc k = Queued \/ pc k <> Queued) as [Hq|Hq]
          by (destruct (pc k); auto; right; discriminate).
        + apply (Hfirst Hq ltac:(congruence) ltac:(lia) y ky Hlt Hy0). lia.
        + apply (I6 t k y ky Hk ltac:(lia) Hq Hlt Hy0). lia.
      - apply (I6 x kx y ky Hx0 ltac:(lia) Hpc Hlt Hy0). lia. }
    destruct Cy as [[-> Hp]|[Hne ->]]; [|exact Hold].
    rewrite Hk in Hy0. injection Hy0 as <-. rewrite Hp. apply Hdone, Hold.
  - intros Hr'. destruct (Hr Hr') as [Hr0 Hp]. destruct (I7 Hr0) as [Hsk Hall].
    split; [exact Hsk|]. intros x kx' Hx.
    destruct (alter_pc_inv _ _ _ _ _ Hx) as (kx & Hx0 & _ & [[-> Hpc]|[Hne ->]]).
    + rewrite Hpc. exact Hp.
    + apply (Hall x kx Hx0).
  - exact Hcur.
  - intros u Hu Eu x kx' Hx E Hi.
    destruct (alter_pc_inv _ _ _ _ _ Hx) as (kx & Hx0 & Hs & [[-> Hpc]|[Hne ->]]).
    + static_eqs. rewrite Hk in Hx0. injection Hx0 as <-.
      assert (Hw : waiting (pc k) = false).
      { apply (I9 u Hu Eu t k Hk); congruence. }
      rewrite Hpc. destruct (waiting p) eqn:Wp; [|reflexivity].
      rewrite (Hwait eq_refl) in Hw. discriminate.
    + apply (I9 u Hu Eu x kx Hx0 E Hi).
  - exact I10.
Qed.

Lemma last_elem_of (sk : list Unit) u : last sk = Some u -> u ∈ sk.
Proof.
  intros Hu. apply last_Some in Hu. destruct Hu as [l' Hl]. rewrite Hl.
  apply elem_of_app. right. apply list_elem_of_singleton. reflexivity.
Qed.

(** A context that starts running invalidates nothing. *)
Lemma InvOn_runs L q cur r r' ts sk :
  InvOn L q cur r ts sk -> (r' = false -> r = false) -> InvOn L q cur r' ts sk.
Proof.
  intros [I1 I2 I3 I4 I5 I6 I7 I8 I9 I10] Hr. split; auto.
Qed.

(** [playTTS] appends a task that is chained on the queue. *)
Lemma InvOn_append L q cur r (ts : list Task) sk txt cb intr :
  InvOn L q cur r ts sk ->
  (intr = true -> q = None /\ forall u, u ∈ sk -> owner u < L) ->
  InvOn L (Some (length ts)) cur r
    (ts ++ [{| text := txt; onStart := cb; shouldInterrupt := intr;
               myId := L; waitsOn := q; pc := Queued |}]) sk.
Proof.
  intros [I1 I2 I3 I4 I5 I6 I7 I8 I9 I10] Hi.
  set (new := {| text := txt; onStart := cb; shouldInterrupt := intr;
                 myId := L; waitsOn := q; pc := Queued |}).
  assert (Hlook : forall x kx, (ts ++ [new]) !! x = Some kx ->
            (ts !! x = Some kx /\ (x < length ts)%nat) \/ (x = length ts /\ kx = new)).
  { intros x kx H. apply lookup_app_Some in H. destruct H as [H|[Hge H]].
    - left. split; [exact H|]. apply lookup_lt_Some in H. exact H.
    - right. destruct (x - length ts)%nat eqn:D; cbn in H; [|discriminate].
      injection H as <-. split; [lia|reflexivity]. }
  split.
  - intros x kx H. destruct (Hlook x kx H) as [[H0 _]|[_ ->]]; [eauto|cbn; lia].
  - exact I2.
  - split; [rewrite length_app; cbn; lia|]. exists new. split; [|reflexivity].
    rewrite lookup_app_r by lia. rewrite Nat.sub_diag. reflexivity.
  - intros x kx H E. destruct (Hlook x kx H) as [[H0 Hlt]|[-> ->]].
    + specialize (I4 x kx H0 E). destruct (waitsOn kx) as [p0|].
      * destruct I4 as (? & k0 & Hk0 & ?). split; [assumption|].
        exists k0. split; [|assumption]. apply lookup_app_l_Some, Hk0.
      * intros y ky Hy Hky. destruct (Hlook y ky Hky) as [[Hy0 _]|[-> _]]; [eauto|lia].
    + cbn. destruct q as [p0|].
      * destruct I3 as (Hlen & k0 & Hk0 & ?). split; [exact Hlen|].
        exists k0. split; [|assumption]. apply lookup_app_l_Some, Hk0.
      * intros y ky Hy Hky. destruct (Hlook y ky Hky) as [[Hy0 _]|[-> _]]; [eauto|lia].
  - intros x kx H E Hint. destruct (Hlook x kx H) as [[H0 _]|[_ ->]]; [eauto|].
    cbn in *. apply Hi, Hint.
  - intros x kx y ky Hx E Hpc Hlt Hy Ey.
    destruct (Hlook x kx Hx) as [[Hx0 Hxl]|[_ ->]]; [|cbn in Hpc; congruence].
    destruct (Hlook y ky Hy) as [[Hy0 _]|[-> _]]; [eauto|lia].
  - intros Hr. destruct (I7 Hr) as [Hsk Hall]. split; [exact Hsk|].
    intros x kx H. destruct (Hlook x kx H) as [[H0 _]|[_ ->]]; [eauto|reflexivity].
  - exact I8.
  - intros u Hu Eu x kx H E Hint.
    destruct (Hlook x kx H) as [[H0 _]|[_ ->]]; [eauto|].
    cbn in Hint. destruct (Hi Hint) as [_ Hlt].
    specialize (Hlt u (last_elem_of _ _ Hu)). lia.
  - exact I10.
Qed.

(** A task of the latest id that is past the cursor reset starts a unit at
    or after the cursor; the cursor moves to the end of the unit. *)
Lemma InvOn_emit L q cur r (ts : list Task) sk (t : nat) k u b :
  InvOn L q cur r ts sk ->
  ts !! t = Some k -> myId k = L ->
  (exists d, pc k = AwaitDecode b d) ->
  owner u = L -> (cur <= start u)%Q ->
  InvOn L q (finish u) r
    (alter (fun k => at_pc k (AwaitChunk false)) t ts) (sk ++ [u]).
Proof.
  intros I Hk Hid [d Hpc] Hu Hcur.
  assert (Hr : r = true).
  { destruct r; [reflexivity|]. destruct (inv_parked _ _ _ _ _ _ I eq_refl) as [_ Hall].
    specialize (Hall t k Hk). rewrite Hpc in Hall. discriminate. }
  assert (I' : InvOn L q cur r (alter (fun k => at_pc k (AwaitChunk false)) t ts) sk).
  { apply (InvOn_alter L q cur cur r r ts sk t k (AwaitChunk false) I Hk).
    - intros ->. discriminate.
    - rewrite Hpc. discriminate.
    - rewrite Hpc. discriminate.
    - discriminate.
    - apply (inv_cursor _ _ _ _ _ _ I). }
  clear I. destruct I' as [I1 I2 I3 I4 I5 I6 I7 I8 I9 I10].
  destruct (alter_pc_lookup ts t (AwaitChunk false) t k Hk) as (kt & Hkt & Hst & Ct).
  assert (Hpt : pc kt = AwaitChunk false) by (destruct Ct as [[_ ?]|[? _]]; congruence).
  static_eqs.
  split; try assumption.
  - intros v Hv. apply elem_of_app in Hv. destruct Hv as [Hv|Hv]; [eauto|].
    apply list_elem_of_singleton in Hv. subst v. lia.
  - intros ->. discriminate.
  - intros v Hv _. rewrite last_snoc in Hv. injection Hv as <-. apply Qle_refl.
  - intros v _ _ x kx Hx E Hint.
    pose proof (I5 x kx Hx E Hint) as Hnone.
    pose proof (I4 x kx Hx E) as Hch. rewrite Hnone in Hch.
    destruct (lt_eq_lt_dec x t) as [[Hlt| ->]|Hgt].
    + rewrite (I6 t kt x kx Hkt ltac:(lia) ltac:(congruence) Hlt Hx E). reflexivity.
    + rewrite Hkt in Hx. injection Hx as <-. rewrite Hpt. reflexivity.
    + specialize (Hch t kt Hgt Hkt). lia.
  - intros i a c Ha Hc Eo.
    destruct (lt_eq_lt_dec (S i) (length sk)) as [[Hlt|Heq]|Hgt].
    + rewrite lookup_app_l in Ha by lia. rewrite lookup_app_l in Hc by lia.
      apply (I10 i a c Ha Hc Eo).
    + rewrite lookup_app_l in Ha by lia. rewrite lookup_app_r in Hc by lia.
      rewrite Heq, Nat.sub_diag in Hc. injection Hc as <-.
      assert (Hlast : last sk = Some a).
      { rewrite last_lookup. rewrite <- Heq. exact Ha. }
      apply Qle_trans with cur; [|exact Hcur].
      apply (I8 a Hlast). congruence.
    + apply lookup_lt_Some in Hc. rewrite length_app in Hc. cbn in Hc. lia.
Qed.

Lemma initial_Inv hasKey blocked : Inv (initial hasKey blocked).
Proof.
  unfold Inv. cbn. split; cbn; try (intros; exfalso; eauto using lookup_nil; fail).
  - intros t k H. rewrite lookup_nil in H. discriminate.
  - intros u H. apply not_elem_of_nil in H. contradiction.
  - intros t k H. rewrite lookup_nil in H. discriminate.
  - intros t k H. rewrite lookup_nil in H. discriminate.
  - intros t k H. rewrite lookup_nil in H. discriminate.
  - intros t k t' k' H. rewrite lookup_nil in H. discriminate.
  - intros _. split; [reflexivity|]. intros t k H. rewrite lookup_nil in H. discriminate.
  - intros u H. discriminate.
  - intros u H. discriminate.
  - intros i u v H. rewrite lookup_nil in H. discriminate.
Qed.

Lemma Inv_done sys (t : nat) k :
  Inv sys -> tasks sys !! t = Some k ->
  (pc k = Queued -> myId k <> latestTTSId (svc sys)) ->
  Inv (set_pc sys t Done).
Proof.
  intros I Hk Hq. unfold Inv, set_pc. cbn.
  apply (InvOn_alter _ _ _ _ _ _ _ _ t k Done I Hk); auto.
  - intros ? ? ?. contradiction Hq; assumption.
  - discriminate.
  - apply (inv_cursor _ _ _ _ _ _ I).
Qed.

Lemma Inv_advance sys (t : nat) k p :
  Inv sys -> tasks sys !! t = Some k ->
  parked (pc k) = false -> parked p = false ->
  Inv (set_pc sys t p).
Proof.
  intros I Hk Hold Hnew. unfold Inv, set_pc. cbn.
  apply (InvOn_alter _ _ _ _ _ _ _ _ t k p I Hk).
  - intros Hr. destruct (inv_parked _ _ _ _ _ _ I Hr) as [_ Hall].
    rewrite (Hall t k Hk) in Hold. discriminate.
  - intros E. rewrite E in Hold. discriminate.
  - intros E. rewrite E in Hold. discriminate.
  - intros W. destruct p; discriminate.
  - apply (inv_cursor _ _ _ _ _ _ I).
Qed.

(** When the promise a task of the latest id is chained on is fulfilled,
    all earlier tasks of that id are done. *)
Lemma settled_order sys (t : nat) k :
  Inv sys -> tasks sys !! t = Some k -> myId k = latestTTSId (svc sys) ->
  settled sys (waitsOn k) = true ->
  forall t' k', (t' < t)%nat -> tasks sys !! t' = Some k' ->
    myId k' = latestTTSId (svc sys) -> pc k' = Done.
Proof.
  intros I Hk Hid Hs t' k' Hlt Hk' Hid'.
  pose proof (inv_chain _ _ _ _ _ _ I t k Hk Hid) as Hch.
  destruct (waitsOn k) as [p|].
  - destruct Hch as (<- & kp & Hkp & Hidp). cbn in Hs. rewrite Hkp in Hs.
    assert (Hdone : pc kp = Done) by (destruct (pc kp); try discriminate; reflexivity).
    destruct (decide (t' = p)) as [->|Hne].
    + rewrite Hkp in Hk'. injection Hk' as <-. exact Hdone.
    + apply (inv_order _ _ _ _ _ _ I p kp t' k' Hkp Hidp); auto.
      * rewrite Hdone. discriminate.
      * lia.
  - specialize (Hch t' k' Hlt Hk'). lia.
Qed.

Lemma Inv_afterResume sys (t : nat) k c :
  Inv sys -> tasks sys !! t = Some k ->
  running (svc sys) = true ->
  (pc k = Queued \/ (pc k = AwaitResume /\ sink sys = [])) ->
  (pc k = Queued -> myId k = latestTTSId (svc sys)
                    /\ settled sys (waitsOn k) = true) ->
  audioContext (svc sys) = Some c ->
  Inv (afterResume t k c sys).
Proof.
  intros I Hk Hr Hpc Hq Hc. unfold Inv, afterResume, set_pc.
  replace (latestTTSId _) with (latestTTSId (svc sys)) by (cbn; destruct (_ || _); reflexivity).
  replace (audioQueue _) with (audioQueue (svc sys)) by (cbn; destruct (_ || _); reflexivity).
  replace (running _) with (running (svc sys)) by (cbn; destruct (_ || _); reflexivity).
  cbn [tasks sink with_tasks with_svc].
  apply (InvOn_alter _ _ _ _ _ _ _ _ t k AwaitResponse I Hk).
  - rewrite Hr. discriminate.
  - intros E. destruct Hpc as [E'|[E' _]]; rewrite E in E'; discriminate.
  - intros E _ Hid. destruct (Hq E) as [_ Hs]. apply (settled_order sys t k I Hk Hid Hs).
  - discriminate.
  - intros u Hu Eu. cbn [svc with_svc].
    destruct Hpc as [E|[_ E]]; [|rewrite E in Hu; discriminate].
    destruct (Hq E) as [Hid _].
    destruct (shouldInterrupt k) eqn:Hint.
    + pose proof (inv_reset _ _ _ _ _ _ I u Hu Eu t k Hk Hid Hint) as W.
      rewrite E in W. discriminate.
    + cbn [orb]. pose proof (inv_cursor _ _ _ _ _ _ I u Hu Eu) as Hcur.
      destruct (Qle_bool (currentTime c) (nextStartTime (svc sys))) eqn:B; cbn; [exact Hcur|].
      assert (Hlt : (nextStartTime (svc sys) < currentTime c)%Q).
      { apply Qnot_le_lt. intros Hle. apply Qle_bool_iff in Hle. congruence. }
      apply Qle_trans with (nextStartTime (svc sys)); [exact Hcur|].
      apply Qlt_le_weak, Hlt.
Qed.

Lemma resumeEach_Inv c ws : forall sys,
  Inv sys -> audioContext (svc sys) = Some c -> suspended c = false ->
  sink sys = [] -> Inv (resumeEach c ws sys).
Proof.
  induction ws as [|t ws IH]; intros sys I Hc Hs Hsk; [exact I|].
  rewrite resumeEach_cons.
  destruct (resumeOne_frame c t sys) as (Ec & _ & Esk & _).
  apply IH; try congruence.
  unfold resumeOne. destruct (tasks sys !! t) as [k|] eqn:Hk; [|exact I].
  destruct (pc k) eqn:Hpc; try exact I.
  apply (Inv_afterResume sys t k c I Hk); auto.
  - unfold running. rewrite Hc, Hs. reflexivity.
  - intros E. congruence.
Qed.

Lemma initializeGemini_frame s :
  latestTTSId (initializeGemini s) = latestTTSId s
  /\ audioQueue (initializeGemini s) = audioQueue s
  /\ nextStartTime (initializeGemini s) = nextStartTime s
  /\ audioContext (initializeGemini s) = audioContext s.
Proof. unfold initializeGemini. destruct (currentApiKey s); auto. Qed.

(** Every step of the service keeps the invariant. *)
Lemma step_Inv sys e : Inv sys -> Inv (step sys e).
Proof.
  intros I. destruct e as [dt|src| | |txt cb intr|t i]; cbn [step].
  - unfold tick. destruct (audioContext (svc sys)) as [c|] eqn:Hc; [|exact I].
    destruct (Qle_bool 0 dt); [|exact I].
    unfold Inv in *. cbn. unfold running in *. cbn. rewrite Hc in I. exact I.
  - exact I.
  - unfold resumeAll. destruct (audioContext (svc sys)) as [c|] eqn:Hc; [|exact I].
    destruct (suspended c) eqn:Hs; [|exact I].
    assert (Hr : running (svc sys) = false) by (unfold running; rewrite Hc, Hs; reflexivity).
    destruct (inv_parked _ _ _ _ _ _ I Hr) as [Hsk _].
    apply resumeEach_Inv; try reflexivity; [|exact Hsk].
    unfold Inv in *. cbn. apply (InvOn_runs _ _ _ _ _ _ _ I). intros _. exact Hr.
  - unfold Inv in *. cbn. apply (InvOn_bump _ _ _ _ _ _ _ I).
  - unfold playTTS.
    set (s1 := if intr then stopAudio (svc sys) else svc sys).
    set (s2 := if ai s1 then s1 else initializeGemini s1).
    assert (I1 : InvOn (latestTTSId s1) (audioQueue s1) (nextStartTime s1)
                       (running (svc sys)) (tasks sys) (sink sys)).
    { subst s1. destruct intr; [|exact I]. cbn. apply (InvOn_bump _ _ _ _ _ _ _ I). }
    assert (Hint : intr = true -> audioQueue s1 = None
                   /\ forall u, u ∈ sink sys -> owner u < latestTTSId s1).
    { intros ->. subst s1. cbn. split; [reflexivity|].
      intros u Hu. pose proof (inv_owners _ _ _ _ _ _ I u Hu). lia. }
    assert (E2 : latestTTSId s2 = latestTTSId s1 /\ audioQueue s2 = audioQueue s1
                 /\ nextStartTime s2 = nextStartTime s1
                 /\ audioContext s2 = audioContext s1).
    { subst s2. destruct (ai s1); [auto|]. apply initializeGemini_frame. }
    destruct E2 as (EL & Eq & Ec & Ex).
    assert (Er : running s2 = running (svc sys)).
    { unfold running. rewrite Ex. subst s1. destruct intr; reflexivity. }
    destruct (ai s2); unfold Inv; cbn.
    + replace (running (with_queue s2 (Some (length (tasks sys)))))
        with (running (svc sys)) by (rewrite <- Er; reflexivity).
      rewrite EL, Eq, Ec. apply InvOn_append; assumption.
    + rewrite EL, Eq, Ec, Er. exact I1.
  - unfold resume. destruct (tasks sys !! t) as [k|] eqn:Hk; [|exact I].
    destruct (pc k) as [| | |b|b [buf|]|] eqn:Hpc, i as [| ch | |]; try exact I;
      try (apply (Inv_done sys t k I Hk); rewrite Hpc; discriminate).
    + (* the queue reaches the task *)
      destruct (settled sys (waitsOn k)) eqn:Hs; [|exact I].
      unfold begin. destruct (myId k =? latestTTSId (svc sys)) eqn:Hid; cbn [negb].
      2:{ apply (Inv_done sys t k I Hk). intros _. apply Z.eqb_neq, Hid. }
      apply Z.eqb_eq in Hid.
      set (c := match audioContext (svc sys) with
                | Some c => c
                | None => {| currentTime := 0; suspended := autoplayBlocked sys;
                             resumeWaiters := [] |}
                end).
      destruct (suspended c) eqn:Hsus.
      * assert (Hr : running (svc sys) = false).
        { unfold running. subst c. destruct (audioContext (svc sys)) as [c0|]; [|reflexivity].
          rewrite Hsus. reflexivity. }
        unfold Inv, set_pc. cbn.
        apply (InvOn_alter _ _ _ _ _ _ _ _ t k AwaitResume I Hk).
        -- intros _. split; [exact Hr|reflexivity].
        -- rewrite Hpc. discriminate.
        -- intros _ _ _. apply (settled_order sys t k I Hk Hid Hs).
        -- intros _. rewrite Hpc. reflexivity.
        -- apply (inv_cursor _ _ _ _ _ _ I).
      * apply Inv_afterResume with (k := k) (c := c); auto.
        -- unfold Inv in *. cbn. apply (InvOn_runs _ _ _ _ _ _ _ I).
           unfold running. cbn. rewrite Hsus. discriminate.
        -- unfold running. cbn. rewrite Hsus. reflexivity.
    + apply (Inv_advance sys t k _ I Hk); [rewrite Hpc|]; reflexivity.
    + unfold onChunk. destruct (negb _).
      * apply (Inv_done sys t k I Hk). rewrite Hpc. discriminate.
      * destruct ch; apply (Inv_advance sys t k _ I Hk); try rewrite Hpc; reflexivity.
    + unfold onDecoded. destruct (myId k =? latestTTSId (svc sys)) eqn:Hid; cbn [negb].
      2:{ apply (Inv_done sys t k I Hk). rewrite Hpc. discriminate. }
      apply Z.eqb_eq in Hid.
      destruct (audioContext (svc sys)) as [c|] eqn:Hc.
      2:{ apply (Inv_done sys t k I Hk). rewrite Hpc. discriminate. }
      unfold Inv. cbn.
      replace (running _) with (running (svc sys)) by (unfold running; cbn; rewrite Hc; reflexivity).
      match goal with |- InvOn _ _ _ _ _ (_ ++ [?u]) =>
        apply (InvOn_emit _ _ _ _ _ _ t k u b I Hk Hid) end.
      * eexists. exact Hpc.
      * exact Hid.
      * cbn. apply Q.le_max_l.
Qed.

Lemma run_Inv es : forall sys, Inv sys -> Inv (run sys es).
Proof.
  induction es as [|e es IH]; intros sys I; [exact I|].
  cbn. apply IH, step_Inv, I.
Qed.

(** A buffer made by [decodeAudioData] holds at least one frame: its
    duration is at least 1/24000 s. *)
Lemma decodeAudioData_lasts data buf :
  decodeAudioDataDefault data = Some buf ->
  (Double.pow2 (-15) <= Double.round (duration buf))%Q.
Proof.
  unfold decodeAudioDataDefault, decodeAudioData. intros H.
  destruct (int16Array data) as [l|]; [|cbn in H; discriminate].
  cbn [mbind option_bind] in H.
  destruct (createBuffer standard 1 (length l / 1) 24000) eqn:C; [|discriminate].
  destruct (createBuffer_positive _ _ _ _ C) as (_ & Hl & _).
  injection H as <-.
  assert (E : (Double.pow2 (-15) == Double.round (Double.pow2 (-15)))%Q).
  { symmetry.
    assert (E1 : (Double.pow2 (-15) == inject_Z 1 * Double.pow2 (-15))%Q)
      by (change (inject_Z 1) with 1%Q; ring).
    rewrite E1 at 2. rewrite (round_comp _ _ E1). apply round_exact; [reflexivity|lia]. }
  rewrite E. apply round_mono.
  unfold duration. cbn [frames sampleRate].
  assert (F : (1 <= inject_Z (Z.of_nat (length l / 1)))%Q).
  { change 1%Q with (inject_Z 1). rewrite <- Zle_Qle. lia. }
  apply Qle_shift_div_l; [reflexivity|].
  assert (P : (Double.pow2 (-15) * inject_Z 24000 <= 1)%Q) by discriminate.
  eapply Qle_trans; [exact P|exact F].
Qed.

Lemma audible_set_pc sys sys' (t0 : nat) p :
  audible sys -> tasks sys' = tasks sys -> sink sys' = sink sys ->
  (forall b buf, p = AwaitDecode b (Some buf) ->
     (Double.pow2 (-15) <= Double.round (duration buf))%Q) ->
  audible (set_pc sys' t0 p).
Proof.
  intros [A1 A2] Ht Hs Hp. split; [|cbn; rewrite Hs; exact A2].
  intros t k' b buf Hk Hpc.
  destruct (lookup_set_pc sys' t0 p t k' Hk) as (k & Hk0 & _ & _ & _ & _ & [[_ E]|[_ ->]]).
  - apply (Hp b buf). congruence.
  - rewrite Ht in Hk0. apply (A1 t k b buf Hk0 Hpc).
Qed.

Lemma audible_afterResume sys t k c :
  audible sys -> audible (afterResume t k c sys).
Proof.
  intros A. unfold afterResume.
  apply (audible_set_pc sys); try reflexivity; [exact A|discriminate].
Qed.

Lemma audible_resumeEach c ws : forall sys,
  audible sys -> audible (resumeEach c ws sys).
Proof.
  induction ws as [|t ws IH]; intros sys A; [exact A|].
  rewrite resumeEach_cons. apply IH. unfold resumeOne.
  destruct (tasks sys !! t) as [k|]; [|exact A].
  destruct (pc k); try exact A. apply audible_afterResume, A.
Qed.

Lemma step_audible sys e : audible sys -> audible (step sys e).
Proof.
  intros A. destruct e as [dt|src| | |txt cb intr|t i]; cbn [step].
  - unfold tick. destruct (audioContext (svc sys)); [|exact A].
    destruct (Qle_bool 0 dt); exact A.
  - exact A.
  - unfold resumeAll. destruct (audioContext (svc sys)) as [c|]; [|exact A].
    destruct (suspended c); [|exact A]. apply audible_resumeEach. exact A.
  - exact A.
  - unfold playTTS. destruct (ai _); [|exact A].
    destruct A as [A1 A2]. split; [|exact A2]. cbn.
    intros t k b buf Hk Hpc. apply lookup_app_Some in Hk. destruct Hk as [Hk|[_ Hk]].
    + apply (A1 t k b buf Hk Hpc).
    + destruct (t - length (tasks sys))%nat; cbn in Hk; [|discriminate].
      injection Hk as <-. discriminate.
  - unfold resume. destruct (tasks sys !! t) as [k|] eqn:Hk; [|exact A].
    destruct (pc k) as [| | |b|b [buf|]|] eqn:Hpc, i as [| ch | |]; try exact A;
      try (apply (audible_set_pc sys); try reflexivity; [exact A|discriminate]).
    + destruct (settled sys (waitsOn k)); [|exact A].
      unfold begin. destruct (negb _).
      * apply (audible_set_pc sys); try reflexivity; [exact A|discriminate].
      * destruct (suspended _).
        -- apply (audible_set_pc sys); try reflexivity; [exact A|discriminate].
        -- apply audible_afterResume. exact A.
    + unfold onChunk. destruct (negb _).
      * apply (audible_set_pc sys); try reflexivity; [exact A|discriminate].
      * destruct ch as [|audioBytes];
          (apply (audible_set_pc sys); try reflexivity; [exact A|]).
        -- discriminate.
        -- intros b' buf' [= _ E]. apply (decodeAudioData_lasts audioBytes). exact E.
    + unfold onDecoded. destruct (negb _).
      * apply (audible_set_pc sys); try reflexivity; [exact A|discriminate].
      * destruct (audioContext (svc sys)) as [c|].
        2:{ apply (audible_set_pc sys); try reflexivity; [exact A|discriminate]. }
        destruct A as [A1 A2]. split; cbn.
        -- intros x kx b' buf' Hx Hpx.
           destruct (alter_pc_inv _ _ _ _ _ Hx) as (k0 & Hk0 & _ & [[_ E]|[_ ->]]).
           ++ rewrite E in Hpx. discriminate.
           ++ apply (A1 x k0 b' buf' Hk0 Hpx).
        -- apply Forall_app. split; [exact A2|]. constructor; [|constructor].
           cbn. apply (A1 t k b buf Hk Hpc).
Qed.

Lemma run_audible es : forall sys, audible sys -> audible (run sys es).
Proof.
  induction es as [|e es IH]; intros sys A; [exact A|].
  cbn. apply IH, step_audible, A.
Qed.

Lemma initial_audible hasKey blocked : audible (initial hasKey blocked).
Proof.
  split; [|constructor]. intros t k b buf H. cbn in H.
  rewrite lookup_nil in H. discriminate.
Qed.

(** *** The times are doubles *)

Lemma time_0 : time 0.
Proof. split; [reflexivity|apply Qle_refl]. Qed.

Lemma time_round x : (0 <= x)%Q -> time (Double.round x).
Proof. intros H. split; [apply finite_round|apply round_nonneg, H]. Qed.

Lemma time_max a b : time a -> time b -> time (Qmax a b).
Proof.
  intros [Fa Pa] [Fb Pb].
  destruct (Q.max_spec a b) as [[_ E]|[_ E]].
  - split; [apply (finite_comp b); [symmetry; exact E|exact Fb]|rewrite E; exact Pb].
  - split; [apply (finite_comp a); [symmetry; exact E|exact Fa]|rewrite E; exact Pa].
Qed.

Lemma Timed_set_pc sys (t : nat) p : Timed sys -> Timed (set_pc sys t p).
Proof. intros [T1 T2 T3]. split; assumption. Qed.

Lemma Timed_afterResume sys (t : nat) k c :
  Timed sys -> time (currentTime c) -> Timed (afterResume t k c sys).
Proof.
  intros [T1 T2 T3] Hc. unfold afterResume. apply Timed_set_pc.
  split; cbn [svc with_svc sink]; [| |exact T3].
  - destruct (_ || _); exact T1.
  - destruct (_ || _); [exact Hc|exact T2].
Qed.

Lemma Timed_resumeEach c ws : forall sys,
  Timed sys -> time (currentTime c) -> Timed (resumeEach c ws sys).
Proof.
  induction ws as [|t ws IH]; intros sys T Hc; [exact T|].
  rewrite resumeEach_cons. apply IH; [|exact Hc]. unfold resumeOne.
  destruct (tasks sys !! t) as [k|]; [|exact T].
  destruct (pc k); try exact T. apply Timed_afterResume; assumption.
Qed.

Lemma initial_Timed hasKey blocked : Timed (initial hasKey blocked).
Proof.
  split; cbn.
  - intros c H. discriminate H.
  - apply time_0.
  - constructor.
Qed.

Lemma step_Timed sys e : audible sys -> Timed sys -> Timed (step sys e).
Proof.
  intros A T. pose proof T as [T1 T2 T3].
  destruct e as [dt|src| | |txt cb intr|t i]; cbn [step].
  - unfold tick. destruct (audioContext (svc sys)) as [c|] eqn:Hc; [|exact T].
    destruct (Qle_bool 0 dt) eqn:Hdt; [|exact T].
    apply Qle_bool_iff in Hdt. destruct (T1 c eq_refl) as [_ P].
    split; cbn; [|exact T2|exact T3].
    intros c' [= <-]. cbn. apply time_round. lra.
  - split; assumption.
  - unfold resumeAll. destruct (audioContext (svc sys)) as [c|] eqn:Hc; [|exact T].
    destruct (suspended c); [|exact T].
    apply Timed_resumeEach; [|apply (T1 c eq_refl)].
    split; cbn; [|exact T2|exact T3].
    intros c' [= <-]. apply (T1 c eq_refl).
  - split; cbn; [exact T1| |exact T3].
    destruct (audioContext (svc sys)); [apply time_0|exact T2].
  - unfold playTTS.
    set (s1 := if intr then stopAudio (svc sys) else svc sys).
    assert (E1 : audioContext s1 = audioContext (svc sys) /\ time (nextStartTime s1)).
    { subst s1. destruct intr; cbn; [|auto]. split; [reflexivity|].
      destruct (audioContext (svc sys)); [apply time_0|exact T2]. }
    destruct E1 as [E1 E1'].
    assert (E2 : audioContext (if ai s1 then s1 else initializeGemini s1)
                 = audioContext (svc sys)
                 /\ time (nextStartTime (if ai s1 then s1 else initializeGemini s1))).
    { destruct (ai s1); [auto|]. unfold initializeGemini.
      destruct (currentApiKey s1); auto. }
    destruct E2 as [E2 E2'].
    destruct (ai (if ai s1 then s1 else initializeGemini s1));
      (split; cbn; [rewrite E2; exact T1|exact E2'|exact T3]).
  - unfold resume. destruct (tasks sys !! t) as [k|] eqn:Hk; [|exact T].
    destruct (pc k) as [| | |b|b [buf|]|] eqn:Hpc, i as [| ch | |]; try exact T;
      try (apply Timed_set_pc, T).
    + destruct (settled sys (waitsOn k)); [|exact T].
      unfold begin. destruct (negb _); [apply Timed_set_pc, T|].
      set (c := match audioContext (svc sys) with
                | Some c => c
                | None => {| currentTime := 0; suspended := autoplayBlocked sys;
                             resumeWaiters := [] |}
                end).
      assert (Hc : time (currentTime c)).
      { subst c. destruct (audioContext (svc sys)) as [c0|]; [apply (T1 c0 eq_refl)|apply time_0]. }
      destruct (suspended c).
      * apply Timed_set_pc. split; cbn; [|exact T2|exact T3].
        intros c' [= <-]. exact Hc.
      * apply Timed_afterResume; [|exact Hc].
        split; cbn; [|exact T2|exact T3]. intros c' [= <-]. exact Hc.
    + unfold onChunk. destruct (negb _); [apply Timed_set_pc, T|].
      destruct ch; apply Timed_set_pc, T.
    + unfold onDecoded. destruct (negb _); [apply Timed_set_pc, T|].
      destruct (audioContext (svc sys)) as [c|] eqn:Hc; [|apply Timed_set_pc, T].
      assert (Hs : time (Qmax (nextStartTime (svc sys)) (currentTime c)))
        by (apply time_max; [exact T2|apply (T1 c eq_refl)]).
      assert (Hl : (0 <= Double.round (duration buf))%Q).
      { destruct A as [A1 _]. pose proof (A1 t k b buf Hk Hpc).
        pose proof (pow2_pos (-15)). lra. }
      split; cbn.
      * rewrite Hc. exact T1.
      * apply time_round. destruct Hs as [_ Hs]. lra.
      * apply Forall_app. split; [exact T3|]. constructor; [|constructor].
        cbn. split; [exact Hs|apply finite_round].
Qed.

Lemma run_Timed es : forall sys, audible sys -> Timed sys -> Timed (run sys es).
Proof.
  induction es as [|e es IH]; intros sys A T; [exact T|].
  cbn. apply IH; [apply step_audible, A|apply step_Timed; assumption].
Qed.

(** A task that waits for a decoded buffer has a running context. *)
Lemma decoding_has_context sys (t : nat) k b d :
  Inv sys -> tasks sys !! t = Some k -> pc k = AwaitDecode b d ->
  exists c, audioContext (svc sys) = Some c.
Proof.
  intros I Hk Hpc. destruct (running (svc sys)) eqn:Hr.
  - unfold running in Hr. destruct (audioContext (svc sys)) as [c|]; [eauto|discriminate].
  - destruct (inv_parked _ _ _ _ _ _ I Hr) as [_ Hall].
    specialize (Hall t k Hk). rewrite Hpc in Hall. discriminate.
Qed.

(** C1. In every history of the service a unit is started in one way
    only: when the decoded buffer of a task of the latest id arrives, at
    [max(nextStartTime, currentTime)], for the duration of the buffer, and
    [nextStartTime] moves to the sum of the two, which is a double: the
    sum rounded. So two units that follow each other in the sink and
    belong to the same id (one uninterrupted turn) satisfy
    [round (start u + duration u) <= start v], their start times do not
    decrease, and the exact end of the first is later than the start of
    the second by at most one rounding error: [2^-53] times that end. *)
Theorem units_contiguous (hasKey blocked : bool) (es : list Event) :
  let sys := run (initial hasKey blocked) es in
  (forall (t : nat) k b buf,
     tasks sys !! t = Some k -> pc k = AwaitDecode b (Some buf) ->
     myId k = latestTTSId (svc sys) ->
     exists c,
       audioContext (svc sys) = Some c
       /\ let u := {| source := length (sink sys); task := t; owner := myId k;
                      start := Qmax (nextStartTime (svc sys)) (currentTime c);
                      lasts := Double.round (duration buf) |} in
          let after := step sys (Resume t Fulfilled) in
          sink after = sink sys ++ [u]
          /\ nextStartTime (svc after) = Double.round (start u + lasts u)
          /\ activeSources (svc after)
             = activeSources (svc sys) ∪ {[ source u ]}
          /\ (nextStartTime (svc sys) <= start u)%Q
          /\ (currentTime c <= start u)%Q)
  /\ (forall e,
        sink (step sys e) = sink sys
        \/ exists (t : nat) k b buf,
             e = Resume t Fulfilled /\ tasks sys !! t = Some k
             /\ pc k = AwaitDecode b (Some buf)
             /\ myId k = latestTTSId (svc sys))
  /\ contiguous (sink sys)
  /\ Forall (fun u => (0 < lasts u)%Q) (sink sys)
  /\ forall i u v,
       sink sys !! i = Some u -> sink sys !! S i = Some v ->
       owner u = owner v ->
       (Double.round (start u + lasts u) <= start v)%Q
       /\ (start u <= start v)%Q
       /\ (start u + lasts u - start v
           <= (start u + lasts u) * Double.pow2 (-53))%Q.
Proof.
  intros sys.
  pose proof (run_Inv es _ (initial_Inv hasKey blocked)) as Iv. fold sys in Iv.
  pose proof (run_audible es _ (initial_audible hasKey blocked)) as A. fold sys in A.
  pose proof (run_Timed es _ (initial_audible hasKey blocked)
                (initial_Timed hasKey blocked)) as T. fold sys in T.
  assert (C : contiguous (sink sys)) by apply (inv_contiguous _ _ _ _ _ _ Iv).
  destruct A as [_ A2]. destruct T as [_ _ T3].
  split.
  { intros t k b buf Hk Hpc Hid.
    destruct (decoding_has_context sys t k b _ Iv Hk Hpc) as [c Hc].
    exists c. split; [exact Hc|]. cbn zeta. cbn [step]. unfold resume.
    rewrite Hk, Hpc. unfold onDecoded.
    rewrite (proj2 (Z.eqb_eq _ _) Hid). cbn [negb]. rewrite Hc. cbn.
    split; [reflexivity|]. split; [reflexivity|]. split; [reflexivity|].
    split; [apply Q.le_max_l|apply Q.le_max_r]. }
  split.
  { intros e. destruct e as [dt|src| | |txt cb intr|t i].
    - left. cbn [step]. unfold tick.
      destruct (audioContext (svc sys)); [destruct (Qle_bool 0 dt)|]; reflexivity.
    - left. reflexivity.
    - left. cbn [step]. unfold resumeAll.
      destruct (audioContext (svc sys)) as [c|]; [|reflexivity].
      destruct (suspended c); [|reflexivity].
      match goal with |- context [resumeEach ?c ?l ?a] =>
        destruct (resumeEach_frame c l a) as (_ & _ & -> & _) end.
      reflexivity.
    - left. reflexivity.
    - left. cbn [step]. unfold playTTS. destruct (ai _); reflexivity.
    - cbn [step]. unfold resume. destruct (tasks sys !! t) as [k|] eqn:Hk; [|left; reflexivity].
      destruct (pc k) as [| | |b|b [buf|]|] eqn:Hpc, i as [| ch | |];
        try (left; reflexivity).
      + left. destruct (settled sys (waitsOn k)); [|reflexivity].
        unfold begin. destruct (negb _); [reflexivity|].
        destruct (suspended _); [reflexivity|].
        match goal with |- context [afterResume ?t ?k ?c ?a] =>
          destruct (afterResume_sink t k c a) as [-> _] end.
        reflexivity.
      + left. unfold onChunk. destruct (negb _); [reflexivity|]. destruct ch; reflexivity.
      + unfold onDecoded.
        destruct (myId k =? latestTTSId (svc sys)) eqn:Hid; cbn [negb];
          [|left; reflexivity].
        apply Z.eqb_eq in Hid. right. exists t, k, b, buf. auto. }
  split; [exact C|].
  split.
  { eapply Forall_impl; [exact A2|]. intros u Hu. cbv beta in Hu.
    pose proof (pow2_pos (-15)). lra. }
  intros i u v Hu Hv Ho.
  pose proof (C i u v Hu Hv Ho) as Hc. unfold finish in Hc.
  rewrite Forall_forall in A2, T3.
  pose proof (A2 u (list_elem_of_lookup_2 _ _ _ Hu)) as Lu. cbv beta in Lu.
  destruct (T3 u (list_elem_of_lookup_2 _ _ _ Hu)) as [[Fu Pu] _].
  pose proof (pow2_pos (-15)) as P15.
  split; [exact Hc|]. split.
  - apply Qle_trans with (Double.round (start u + lasts u)); [|exact Hc].
    apply round_add_ge; [exact Fu|lra].
  - assert (N : (Double.pow2 (-1022) <= start u + lasts u)%Q).
    { assert (Double.pow2 (-1022) <= Double.pow2 (-15))%Q by (apply pow2_le; lia). lra. }
    destruct (round_error _ N) as [E _]. lra.
Qed.

Lemma units_contiguous_witness :
  let sys := run (initial true false) threeChunks in
  let d := Double.round (1 # 12000) in
  exists u v w,
    sink sys = [u; v]
    /\ sink (step sys (Resume 0 Fulfilled)) = [u; v; w]
    /\ (start u == 0 /\ lasts u == d)%Q
    /\ (start v == Double.round (0 + d) /\ lasts v == d)%Q
    /\ (start w == Double.round (start v + d) /\ lasts w == d)%Q
    /\ (nextStartTime (svc (step sys (Resume 0 Fulfilled)))
        == Double.round (start w + d))%Q.
Proof.
  intros sys d.
  destruct (units_contiguous true false threeChunks) as (S & _).
  fold sys in S.
  destruct (S 0%nat {| text := lit "Hi."; onStart := true; shouldInterrupt := true;
                       myId := 1; waitsOn := None;
                       pc := AwaitDecode false (decodeAudioDataDefault twoSamples) |}
              false
              {| numberOfChannels := 1; frames := 2; sampleRate := 24000;
                 channelData := [[-32768 # 32768; 32767 # 32768]%Q] |})
    as (c & Hc & Hs & Hn & _).
  - vm_compute. reflexivity.
  - reflexivity.
  - vm_compute. reflexivity.
  - assert (Ec : c = {| currentTime := 0; suspended := false; resumeWaiters := [] |}).
    { vm_compute in Hc. injection Hc as <-. reflexivity. }
    subst c.
    let v := eval vm_compute in (sink sys) in
    assert (E : sink sys = v) by (vm_compute; reflexivity).
    rewrite Hn, Hs, E.
    eexists _, _, _. split; [reflexivity|]. split; [reflexivity|].
    vm_compute. repeat split.
Defined.

(** In exact arithmetic the units of one turn can overlap: with the clock
    at rest the fourth of six chunks of two samples ends [2^-66] s after
    the fifth starts. *)
Lemma exact_ends_overlap :
  let sys := run (initial true false)
               (threeChunks ++ oneMore ++ oneMore ++ oneMore
                ++ [Resume 0 Fulfilled]) in
  exists u v,
    sink sys !! 3%nat = Some u /\ sink sys !! 4%nat = Some v
    /\ owner u = owner v
    /\ (start v < start u + lasts u)%Q
    /\ (start u + lasts u - start v == Double.pow2 (-66))%Q
    /\ (start v == Double.round (start u + lasts u))%Q.
Proof.
  intros sys.
  let v := eval vm_compute in (sink sys) in
  assert (E : sink sys = v) by (vm_compute; reflexivity).
  rewrite E. eexists _, _. split; [reflexivity|]. split; [reflexivity|].
  split; [reflexivity|]. vm_compute. repeat split.
Qed.

End Scheduling.


(* ===================================================================== *)
(** ** The application: interruption and the end of speaking *)
(* ===================================================================== *)

Section AppFacts.
Import Audio App.



(** C8, as stated, fails: a turn that reaches the end of its stream with
    its sequence id still current, and is interrupted while its requests
    are still being scheduled, never sets the timer. *)
Lemma interrupted_turn_sets_no_timer :
  let atEnd := {| audio := run (initial true false)
                    [PlayTTS (JsString.lit "Hi.") true true; Resume 0 Fulfilled;
                     Resume 0 Fulfilled];
                  streamSequenceId := 1; isSpeaking := true; timers := [] |} in
  let interrupted := interruption atEnd in
  let scheduled :=
    with_audio interrupted
      (run (audio interrupted) [Resume 0 (Next (Inline twoSamples))]) in
  streamSequenceId atEnd = 1
  /\ allScheduled [0%nat] atEnd = false
  /\ thenAll [0%nat] 1 atEnd = atEnd
  /\ allScheduled [0%nat] scheduled = true
  /\ timers (thenAll [0%nat] 1 scheduled) = [].
Proof. vm_compute. repeat split. Qed.

Lemma round_200 : (Double.round 200 == 200)%Q.
Proof. apply (round_Z 200). vm_compute. discriminate. Qed.

(** C8, amended. When all the scheduling promises of a turn are fulfilled,
    nothing happens if the sequence id is no longer the turn's; if it
    still is, one timer is set, for [max(0, (end - now) * 1000) + 200]
    milliseconds as doubles, where [end] is the cursor and [now] the
    device clock: at least 200, and 200 when the cursor is not ahead of
    the clock. When the timer fires, speaking is switched off if the
    sequence id is still the turn's, and nothing changes otherwise. *)
Theorem speaking_ends_after_audio (ttsPromises : list nat) (seq : Z)
  (w : World) :
  allScheduled ttsPromises w = true ->
  let endTime := getAudioEndTime (svc (audio w)) in
  let now := getCurrentTime (svc (audio w)) in
  let timeRemaining :=
    Qmax 0 (Double.round (Double.round (endTime - now) * 1000)) in
  let tm := {| delay := Double.round (timeRemaining + 200); mySeqId := seq |} in
  (seq <> streamSequenceId w -> thenAll ttsPromises seq w = w)
  /\ (seq = streamSequenceId w ->
      thenAll ttsPromises seq w
      = {| audio := audio w; streamSequenceId := streamSequenceId w;
           isSpeaking := isSpeaking w; timers := timers w ++ [tm] |})
  /\ (200 <= delay tm)%Q
  /\ ((endTime <= now)%Q -> (delay tm == 200)%Q)
  /\ (forall c, audioContext (svc (audio w)) = Some c ->
        endTime = nextStartTime (svc (audio w)) /\ now = currentTime c)
  /\ (audioContext (svc (audio w)) = None -> (delay tm == 200)%Q)
  /\ forall later,
       (streamSequenceId later = seq -> isSpeaking (fire tm later) = false)
       /\ (streamSequenceId later <> seq -> fire tm later = later).
Proof.
  intros Hall endTime now timeRemaining tm. unfold thenAll, whenAllScheduled.
  rewrite Hall.
  assert (Hlow : (endTime <= now)%Q -> (delay tm == 200)%Q).
  { intros Hle. subst tm. cbn [delay].
    assert (R1 : (Double.round (endTime - now) <= 0)%Q) by (apply round_nonpos; lra).
    assert (R2 : (Double.round (Double.round (endTime - now) * 1000) <= 0)%Q)
      by (apply round_nonpos; lra).
    assert (R3 : (timeRemaining == 0)%Q) by (apply Q.max_l, R2).
    assert (R4 : (timeRemaining + 200 == 200)%Q) by (rewrite R3; ring).
    rewrite (round_comp _ _ R4). apply round_200. }
  split.
  { intros Hne. destruct (Z.eqb_spec seq (streamSequenceId w)); [congruence|reflexivity]. }
  split.
  { intros ->. rewrite Z.eqb_refl. reflexivity. }
  split.
  { subst tm. cbn [delay]. rewrite <- round_200 at 1. apply round_mono.
    pose proof (Q.le_max_l 0 (Double.round (Double.round (endTime - now) * 1000))) as M.
    fold timeRemaining in M. lra. }
  split; [exact Hlow|].
  split.
  { intros c Hc. subst endTime now. unfold getAudioEndTime, getCurrentTime.
    rewrite Hc. auto. }
  split.
  { intros Hc. apply Hlow. subst endTime now. unfold getAudioEndTime, getCurrentTime.
    rewrite Hc. apply Qle_refl. }
  intros later. unfold fire. subst tm. cbn [mySeqId]. split.
  - intros ->. rewrite Z.eqb_refl. reflexivity.
  - intros Hne.
    destruct (Z.eqb_spec seq (streamSequenceId later));
      [congruence|reflexivity].
Qed.

(** A world in which one unit of a twentieth of a second was started a
    hundredth of a second ago: the timer is set for the 40 ms that are
    left and 200 ms more. *)
Lemma speaking_ends_after_audio_witness :
  let w := {| audio := run (initial true false)
                [PlayTTS (JsString.lit "Hi.") true true; Resume 0 Fulfilled;
                 Resume 0 Fulfilled;
                 Resume 0 (Next (Inline (List.repeat x00%byte 2400)));
                 Resume 0 Fulfilled; Resume 0 Exhausted; Tick (1 # 100)];
              streamSequenceId := 1; isSpeaking := true; timers := [] |} in
  exists tm, timers (thenAll [0%nat] 1 w) = [tm]
             /\ (delay tm
                 == Double.round
                      (Double.round
                         (Double.round (Double.round (1 # 20)
                                        - Double.round (1 # 100)) * 1000)
                       + 200))%Q
             /\ (delay tm == 240)%Q.
Proof.
  intros w.
  destruct (speaking_ends_after_audio [0%nat] 1 w) as (_ & H & _).
  - vm_compute. reflexivity.
  - rewrite (H eq_refl). eexists. split; [reflexivity|].
    split; vm_compute; reflexivity.
Defined.

(** Before all the promises are fulfilled, and for a turn that is no
    longer the current one, no timer is set. *)
Lemma thenAll_idle (ttsPromises : list nat) (seq : Z) (w : World) :
  allScheduled ttsPromises w = false \/ seq <> streamSequenceId w ->
  thenAll ttsPromises seq w = w.
Proof.
  intros [H|H]; unfold thenAll, whenAllScheduled.
  - rewrite H. reflexivity.
  - destruct (allScheduled ttsPromises w); [|reflexivity].
    destruct (Z.eqb_spec seq (streamSequenceId w)); [congruence|reflexivity].
Qed.

End AppFacts.


(* ===================================================================== *)
(** ** Properties of the string primitives *)
(* ===================================================================== *)

Section StringFacts.
Import JsString.

(** *** The delimiter scan *)

Lemma scanDelimiters_spec (s : jsstring) : forall i lastIndex,
  (scanDelimiters s i lastIndex = lastIndex
   /\ Forall (fun c => isDelimiter c = false) s)
  \/ (exists (n : nat) d,
        scanDelimiters s i lastIndex = i + Z.of_nat n
        /\ s !! n = Some d /\ isDelimiter d = true
        /\ Forall (fun c => isDelimiter c = false) (drop (S n) s)).
Proof.
  induction s as [|c s IH]; intros i lastIndex; cbn [scanDelimiters].
  - left. split; [reflexivity|constructor].
  - destruct (isDelimiter c) eqn:D.
    + destruct (IH (i + 1) i) as [[E F]|(n & d & E & Hn & Hd & F)].
      * right. exists 0%nat, c. rewrite E. cbn. repeat split; auto. lia.
      * right. exists (S n), d. rewrite E. cbn. repeat split; auto. lia.
    + destruct (IH (i + 1) lastIndex) as [[E F]|(n & d & E & Hn & Hd & F)].
      * left. split; [exact E|]. constructor; assumption.
      * right. exists (S n), d. rewrite E. cbn. repeat split; auto. lia.
Qed.

(** What [segment] cuts: nothing when the buffer has no delimiter, and
    otherwise the prefix that ends with the last delimiter. *)
Lemma segment_spec (buffer : jsstring) :
  match Turn.segment buffer with
  | None => Forall (fun c => isDelimiter c = false) buffer
  | Some (sentence, rest) =>
      sentence ++ rest = buffer
      /\ (exists d, last sentence = Some d /\ isDelimiter d = true)
      /\ Forall (fun c => isDelimiter c = false) rest
  end.
Proof.
  unfold Turn.segment, lastDelimiter.
  destruct (scanDelimiters_spec buffer 0 (-1)) as [[E F]|(n & d & E & Hn & Hd & F)];
    rewrite E.
  - cbn. exact F.
  - destruct (Z.eqb_spec (0 + Z.of_nat n) (-1)) as [?|_]; [lia|].
    unfold substring, substringFrom.
    replace (Z.to_nat (Z.min 0 (0 + Z.of_nat n + 1))) with 0%nat by lia.
    replace (Z.to_nat (Z.max 0 (0 + Z.of_nat n + 1))) with (S n) by lia.
    replace (Z.to_nat (0 + Z.of_nat n + 1)) with (S n) by lia.
    rewrite Nat.sub_0_r, drop_0. split; [apply take_drop|]. split; [|exact F].
    exists d. rewrite last_lookup.
    assert (Hlen : (n < length buffer)%nat) by (apply lookup_lt_Some in Hn; exact Hn).
    rewrite length_take, Nat.min_l by lia. cbn.
    rewrite lookup_take_lt by lia. auto.
Qed.

(** *** Occurrences and matches *)

Lemma startsWith_app (pat s : jsstring) : startsWith pat (pat ++ s) = true.
Proof.
  induction pat as [|p pat IH]; [destruct s; reflexivity|].
  cbn. rewrite Z.eqb_refl. exact IH.
Qed.

Lemma startsWith_spec (pat s : jsstring) :
  startsWith pat s = true -> s = pat ++ drop (length pat) s.
Proof.
  revert s. induction pat as [|p pat IH]; intros s H; [reflexivity|].
  destruct s as [|c s]; [discriminate|]. cbn in H.
  apply andb_true_iff in H. destruct H as [E H]. apply Z.eqb_eq in E. subst c.
  cbn. f_equal. apply IH, H.
Qed.

(** [indexOf] returns a position where the pattern occurs. *)
Lemma indexOf_Some (s pat : jsstring) i :
  indexOf s pat = Some i ->
  startsWith pat (drop i s) = true /\ (i + length pat <= length s)%nat.
Proof.
  revert i. induction s as [|c s IH]; intros i; cbn [indexOf].
  - destruct (startsWith pat []) eqn:E; [|discriminate].
    intros [= <-]. split; [exact E|]. destruct pat; [cbn; lia|discriminate].
  - destruct (startsWith pat (c :: s)) eqn:E.
    + intros [= <-]. split; [exact E|]. apply startsWith_spec in E.
      apply (f_equal length) in E. rewrite length_app in E. lia.
    + destruct (indexOf s pat) as [j|]; [|discriminate]. cbn.
      intros [= <-]. destruct (IH j eq_refl) as [H1 H2]. split; [exact H1|cbn; lia].
Qed.

Lemma indexOf_head (s pat : jsstring) :
  startsWith pat s = true -> indexOf s pat = Some 0%nat.
Proof. intros H. destruct s; cbn [indexOf]; rewrite H; reflexivity. Qed.

Lemma indexOf_tail (c : Z) (s pat : jsstring) :
  startsWith pat (c :: s) = false -> indexOf (c :: s) pat = S <$> indexOf s pat.
Proof. intros H. cbn [indexOf]. rewrite H. reflexivity. Qed.

(** An occurrence anywhere makes [includes] true. *)
Lemma includes_occurrence (a pat r : jsstring) :
  includes (a ++ pat ++ r) pat = true.
Proof.
  unfold includes. induction a as [|c a IH]; cbn [app].
  - rewrite indexOf_head; [reflexivity|apply startsWith_app].
  - destruct (startsWith pat (c :: a ++ pat ++ r)) eqn:E.
    + rewrite indexOf_head; [reflexivity|exact E].
    + rewrite indexOf_tail by exact E.
      destruct (indexOf (a ++ pat ++ r) pat); [reflexivity|discriminate].
Qed.

Lemma lazyToBracket_Some (s : jsstring) k :
  lazyToBracket s = Some k -> s !! k = Some RBRACKET.
Proof.
  revert k. induction s as [|c s IH]; intros k; cbn [lazyToBracket]; [discriminate|].
  destruct (Z.eqb_spec c RBRACKET) as [->|_].
  - intros [= <-]. reflexivity.
  - destruct (isLineTerminator c); [discriminate|].
    destruct (lazyToBracket s) as [j|]; [|discriminate]. cbn.
    intros [= <-]. cbn. apply IH. reflexivity.
Qed.

(** A match of either image expression ends with a closing bracket inside
    the string. *)
Lemma imageTagAt_bracketed : bracketed imageTagAt.
Proof.
  intros s len g. unfold imageTagAt.
  destruct (startsWith IMAGE_OPEN s) eqn:E; [|discriminate].
  change (length IMAGE_OPEN) with 7%nat.
  destruct (lazyToBracket (drop 7 s)) as [k|] eqn:L; [|discriminate].
  cbn. intros [= <- _]. exists (7 + k)%nat. split; [lia|].
  apply lazyToBracket_Some in L. rewrite lookup_drop in L. exact L.
Qed.

Lemma trimStart_suffix (s : jsstring) :
  exists n, trimStart s = drop n s /\ (n <= length s)%nat
            /\ Forall (fun c => isWhiteSpace c = true) (take n s).
Proof.
  induction s as [|c s (n & E & Hn & F)]; cbn [trimStart].
  - exists 0%nat. cbn. auto.
  - destruct (isWhiteSpace c) eqn:W.
    + exists (S n). cbn. split; [exact E|]. split; [lia|]. constructor; assumption.
    + exists 0%nat. cbn. split; [reflexivity|]. split; [lia|constructor].
Qed.

Lemma imageRegexAt_bracketed : bracketed imageRegexAt.
Proof.
  intros s len g. unfold imageRegexAt.
  destruct (startsWith IMAGE_OPEN s) eqn:E; [|discriminate].
  change (length IMAGE_OPEN) with 7%nat.
  set (rest := drop 7 s).
  destruct (lazyToBracket (trimStart rest)) as [k|] eqn:L; [|discriminate].
  cbn. intros [= <- _].
  destruct (trimStart_suffix rest) as (n & Et & Hn & _).
  apply lazyToBracket_Some in L. rewrite Et in L |- *.
  rewrite lookup_drop in L. subst rest. rewrite lookup_drop in L.
  rewrite !length_drop in *.
  exists (7 + (n + k))%nat. split; [|exact L].
  assert (7 + (n + k) < length s)%nat by (apply lookup_lt_Some in L; exact L).
  lia.
Qed.

Lemma search_Some rx (s : jsstring) m :
  bracketed rx -> search rx s = Some m ->
  exists n, extent m = S n /\ s !! (index m + n)%nat = Some RBRACKET.
Proof.
  intros B. revert m. induction s as [|c s IH]; intros m; cbn [search].
  - destruct (rx []) as [[len g]|] eqn:E; [|discriminate].
    intros [= <-]. cbn. apply (B _ _ _ E).
  - destruct (rx (c :: s)) as [[len g]|] eqn:E.
    + intros [= <-]. cbn. apply (B _ _ _ E).
    + destruct (search rx s) as [m'|]; [|discriminate]. cbn. intros [= <-]. cbn.
      apply IH. reflexivity.
Qed.

(** *** What the cleaning keeps *)

(** Cutting a piece that ends with another code unit than the last one
    keeps the last one. *)
Lemma cut_keeps_last (s : jsstring) i n c d :
  s !! (i + n)%nat = Some c -> c <> d -> last s = Some d ->
  last (cut i (S n) s) = Some d.
Proof.
  intros Hc Hne Hd. unfold cut.
  assert (Hlen : (i + n < length s)%nat) by (apply lookup_lt_Some in Hc; exact Hc).
  assert (Hlt : (i + S n < length s)%nat).
  { destruct (decide (i + S n = length s)%nat) as [E|]; [|lia].
    rewrite last_lookup in Hd.
    replace (Nat.pred (length s)) with (i + n)%nat in Hd by lia. congruence. }
  rewrite <- (take_drop (i + S n) s) in Hd.
  rewrite last_app in Hd |- *.
  destruct (last (drop (i + S n) s)) eqn:E; [exact Hd|].
  apply last_None in E. apply (f_equal length) in E.
  rewrite length_drop in E. cbn in E. lia.
Qed.

Lemma trimStart_keeps_last (s : jsstring) d :
  isWhiteSpace d = false -> last s = Some d -> last (trimStart s) = Some d.
Proof.
  intros W. induction s as [|c s IH]; intros H; [discriminate|].
  cbn [trimStart]. destruct (isWhiteSpace c) eqn:Wc; [|exact H].
  destruct s as [|c' s]; [cbn in H; congruence|].
  apply IH. exact H.
Qed.

Lemma trim_keeps_last (s : jsstring) d :
  isWhiteSpace d = false -> last s = Some d -> last (trim s) = Some d.
Proof.
  intros W H. unfold trim, trimEnd.
  pose proof (trimStart_keeps_last s d W H) as H1.
  apply last_Some in H1. destruct H1 as [l' E]. rewrite E.
  rewrite rev_unit. cbn [trimStart]. rewrite W. rewrite <- (rev_unit l' d), rev_involutive.
  apply last_snoc.
Qed.

Lemma delimiter_not_space d : isDelimiter d = true -> isWhiteSpace d = false.
Proof.
  unfold isDelimiter, isWhiteSpace, isLineTerminator. intros H.
  repeat (apply orb_true_iff in H; destruct H as [H|H]);
    apply Z.eqb_eq in H; subst d; reflexivity.
Qed.

Lemma delimiter_not_bracket d : isDelimiter d = true -> RBRACKET <> d.
Proof.
  intros H E. subst d. vm_compute in H. discriminate.
Qed.

(** A sentence that ends with a delimiter still ends with it after the
    cleaning: the text handed to [playTTS] is not empty. *)
Lemma cleanForTTS_keeps_last (sentence : jsstring) d :
  last sentence = Some d -> isDelimiter d = true ->
  last (Turn.cleanForTTS sentence) = Some d.
Proof.
  intros Hl Hd. unfold Turn.cleanForTTS.
  apply trim_keeps_last; [apply delimiter_not_space, Hd|].
  assert (H1 : last (replace sentence CORRECT) = Some d).
  { unfold replace. destruct (indexOf sentence CORRECT) as [i|] eqn:E; [|exact Hl].
    destruct (indexOf_Some _ _ _ E) as [Hs Hlen].
    apply startsWith_spec in Hs.
    change (length CORRECT) with 9%nat in *.
    apply (cut_keeps_last sentence i 8 RBRACKET d); [|apply delimiter_not_bracket, Hd|exact Hl].
    rewrite <- lookup_drop, Hs. reflexivity. }
  unfold replaceRegex.
  destruct (search imageTagAt (replace sentence CORRECT)) as [m|] eqn:E; [|exact H1].
  destruct (search_Some _ _ _ imageTagAt_bracketed E) as (n & En & Hn).
  rewrite En. apply (cut_keeps_last _ _ _ RBRACKET d Hn); [apply delimiter_not_bracket, Hd|exact H1].
Qed.

End StringFacts.


(* ===================================================================== *)
(** ** The segmenter inside [processStream] *)
(* ===================================================================== *)

Section SegmenterFacts.
Import JsString Turn.

Lemma spoken_app (a b : list Effect) : spoken (a ++ b) = spoken a ++ spoken b.
Proof. unfold spoken. apply omap_app. Qed.

Lemma imageRequests_app (a b : list Effect) :
  imageRequests (a ++ b) = imageRequests a ++ imageRequests b.
Proof. unfold imageRequests. apply omap_app. Qed.

(** What one iteration speaks and what it keeps in the buffer. *)
Lemma iteration_spoken (chunk : jsstring) (l : Locals) :
  spoken (snd (iteration chunk l)) =
    match segment (buffer l ++ chunk) with
    | None => []
    | Some (sentence, _) =>
        if nonEmpty (cleanForTTS sentence) then [cleanForTTS sentence] else []
    end
  /\ buffer (fst (iteration chunk l)) =
       match segment (buffer l ++ chunk) with
       | None => buffer l ++ chunk
       | Some (_, rest) => rest
       end
  /\ fullText (fst (iteration chunk l)) = fullText l ++ chunk.
Proof.
  unfold iteration.
  assert (Hi : forall m : option RegExpMatch, spoken
            match m with
            | Some m => if imageTriggered l then [] else [GenerateImage (group1 m)]
            | None => []
            end = []).
  { intros [m|]; [destruct (imageTriggered l)|]; reflexivity. }
  destruct (segment (buffer l ++ chunk)) as [[sentence rest]|].
  - destruct (nonEmpty (cleanForTTS sentence)); cbn [fst snd buffer fullText];
      rewrite !spoken_app, Hi; auto.
  - cbn [fst snd buffer fullText]. rewrite !spoken_app, Hi. auto.
Qed.

Lemma loop_undisturbed_cons (before : Z) chunk rest (l : Locals) :
  loop (before + 1) (undisturbed before (chunk :: rest)) l =
    (fst (loop (before + 1) (undisturbed before rest) (fst (iteration chunk l))),
     snd (iteration chunk l)
     ++ snd (loop (before + 1) (undisturbed before rest) (fst (iteration chunk l)))).
Proof.
  cbn [undisturbed List.map loop]. rewrite Z.eqb_refl. cbn [negb].
  destruct (iteration chunk l) as [l1 e1]. cbn [fst snd].
  fold (undisturbed before rest).
  destruct (loop (before + 1) (undisturbed before rest) l1). reflexivity.
Qed.

(** The loop speaks the cleaned sentences, in order, and leaves the rest
    in the buffer. *)
Lemma loop_sentences (before : Z) (increments : list jsstring) : forall l,
  let r := loop (before + 1) (undisturbed before increments) l in
  let ss := sentences increments (buffer l) in
  spoken (snd r) = List.filter nonEmpty (List.map cleanForTTS (fst ss))
  /\ buffer (fst r) = snd ss
  /\ fullText (fst r) = fullText l ++ concat increments.
Proof.
  induction increments as [|chunk rest IH]; intros l.
  - cbn. rewrite app_nil_r. auto.
  - cbn zeta. rewrite loop_undisturbed_cons. cbn [fst snd sentences].
    destruct (iteration_spoken chunk l) as (Hs & Hb & Hf).
    specialize (IH (fst (iteration chunk l))). cbn zeta in IH.
    destruct IH as (IH1 & IH2 & IH3).
    rewrite spoken_app, Hs, IH1, IH2, IH3, Hb, Hf.
    destruct (segment (buffer l ++ chunk)) as [[sentence kept]|].
    + destruct (sentences rest kept) as [ss final]. cbn [fst snd List.map List.filter concat].
      rewrite <- app_assoc.
      destruct (nonEmpty (cleanForTTS sentence)); auto.
    + cbn [concat]. rewrite <- app_assoc. auto.
Qed.

(** The sentences and the final buffer are the text, cut. *)
Lemma sentences_partition (increments : list jsstring) : forall buffer0,
  concat (fst (sentences increments buffer0)) ++ snd (sentences increments buffer0)
  = buffer0 ++ concat increments.
Proof.
  induction increments as [|chunk rest IH]; intros buffer0; cbn [sentences].
  - cbn. rewrite app_nil_r. reflexivity.
  - pose proof (segment_spec (buffer0 ++ chunk)) as S.
    destruct (segment (buffer0 ++ chunk)) as [[sentence kept]|].
    + destruct S as (E & _). specialize (IH kept).
      destruct (sentences rest kept) as [ss final]. cbn [fst snd concat] in *.
      rewrite <- app_assoc, IH, app_assoc, E, <- app_assoc. reflexivity.
    + rewrite IH, <- app_assoc. reflexivity.
Qed.

(** *** Texts without markers *)

Lemma bracketFree_indexOf (s : jsstring) :
  bracketFree s -> indexOf s CORRECT = None.
Proof.
  induction 1 as [|c s Hc _ IH]; [reflexivity|].
  rewrite indexOf_tail, IH; [reflexivity|].
  change CORRECT with (LBRACKET :: List.tl CORRECT). cbn [startsWith].
  destruct (Z.eqb_spec LBRACKET c); [congruence|reflexivity].
Qed.

Lemma bracketFree_search rx (s : jsstring) :
  opens rx -> bracketFree s -> search rx s = None.
Proof.
  intros Hrx. induction 1 as [|c s Hc _ IH]; cbn [search].
  - destruct (rx []) as [[len g]|] eqn:E; [|reflexivity].
    assert (H : startsWith IMAGE_OPEN [] = true) by (apply Hrx; congruence).
    discriminate.
  - destruct (rx (c :: s)) as [[len g]|] eqn:E; [|rewrite IH; reflexivity].
    assert (H : startsWith IMAGE_OPEN (c :: s) = true) by (apply Hrx; congruence).
    change IMAGE_OPEN with (LBRACKET :: List.tl IMAGE_OPEN) in H. cbn [startsWith] in H.
    destruct (Z.eqb_spec LBRACKET c); [congruence|discriminate].
Qed.

Lemma imageTagAt_open : opens imageTagAt.
Proof. intros t. unfold imageTagAt. destruct (startsWith IMAGE_OPEN t); congruence. Qed.

Lemma imageRegexAt_open : opens imageRegexAt.
Proof. intros t. unfold imageRegexAt. destruct (startsWith IMAGE_OPEN t); congruence. Qed.

Lemma bracketFree_clean (s : jsstring) :
  bracketFree s -> cleanForTTS s = trim s.
Proof.
  intros H. unfold cleanForTTS, replace, replaceRegex.
  rewrite (bracketFree_indexOf s H).
  rewrite (bracketFree_search imageTagAt s imageTagAt_open H). reflexivity.
Qed.

Lemma bracketFree_display (s : jsstring) :
  bracketFree s -> display s = s.
Proof.
  intros H. unfold display, stripImage, stripCorrect, includes.
  rewrite (bracketFree_search imageRegexAt s imageRegexAt_open H).
  rewrite (bracketFree_indexOf s H). reflexivity.
Qed.

Lemma trimStart_notSpace (s : jsstring) :
  List.filter notSpace (trimStart s) = List.filter notSpace s.
Proof.
  induction s as [|c s IH]; [reflexivity|]. cbn [trimStart List.filter].
  unfold notSpace at 2. destruct (isWhiteSpace c) eqn:W; [exact IH|].
  cbn [List.filter]. unfold notSpace at 1. rewrite W. reflexivity.
Qed.

Lemma trim_notSpace (s : jsstring) :
  List.filter notSpace (trim s) = List.filter notSpace s.
Proof.
  unfold trim, trimEnd.
  rewrite List.filter_rev, trimStart_notSpace, <- List.filter_rev, rev_involutive.
  apply trimStart_notSpace.
Qed.

Lemma spoken_notSpace (segs : list jsstring) :
  Forall bracketFree segs ->
  List.filter notSpace (concat (List.filter nonEmpty (List.map cleanForTTS segs)))
  = List.filter notSpace (concat segs).
Proof.
  induction 1 as [|s segs Hs _ IH]; [reflexivity|].
  cbn [List.map List.filter concat]. rewrite List.filter_app, <- IH, <- (trim_notSpace s).
  rewrite (bracketFree_clean s Hs).
  destruct (trim s) eqn:E; cbn [nonEmpty]; [reflexivity|].
  cbn [concat]. rewrite List.filter_app. reflexivity.
Qed.

(** *** Texts with markers *)

Lemma startsWith_bracket (pat s : jsstring) c :
  c <> LBRACKET -> startsWith (LBRACKET :: pat) (c :: s) = false.
Proof.
  intros H. cbn [startsWith]. destruct (Z.eqb_spec LBRACKET c); [congruence|reflexivity].
Qed.

Lemma indexOf_skip (a r : jsstring) :
  bracketFree a ->
  indexOf (a ++ r) CORRECT = (fun i => (length a + i)%nat) <$> indexOf r CORRECT.
Proof.
  induction 1 as [|c a Hc _ IH]; cbn [app length].
  - destruct (indexOf r CORRECT); reflexivity.
  - rewrite indexOf_tail, IH.
    + destruct (indexOf r CORRECT); reflexivity.
    + apply (startsWith_bracket (List.tl CORRECT)), Hc.
Qed.

Lemma search_skip rx (a r : jsstring) :
  opens rx -> bracketFree a ->
  search rx (a ++ r) = shift (length a) <$> search rx r.
Proof.
  intros Hrx. induction 1 as [|c a Hc _ IH]; cbn [app length].
  - destruct (search rx r) as [[i e g]|]; reflexivity.
  - cbn [search]. destruct (rx (c :: a ++ r)) as [[len g]|] eqn:E.
    + assert (H : startsWith IMAGE_OPEN (c :: a ++ r) = true) by (apply Hrx; congruence).
      rewrite (startsWith_bracket (List.tl IMAGE_OPEN)) in H by exact Hc. discriminate.
    + rewrite IH. destruct (search rx r) as [[i e g0]|]; reflexivity.
Qed.

Lemma marker_tail_bracketFree : bracketFree (List.tl CORRECT).
Proof. repeat constructor; discriminate. Qed.

Lemma open_tail_bracketFree : bracketFree (List.tl IMAGE_OPEN).
Proof. repeat constructor; discriminate. Qed.

Lemma search_skip_marker rx (r : jsstring) :
  opens rx -> search rx (CORRECT ++ r) = shift 9 <$> search rx r.
Proof.
  intros Hrx.
  change (CORRECT ++ r) with (LBRACKET :: (List.tl CORRECT ++ r)).
  cbn [search]. destruct (rx (LBRACKET :: List.tl CORRECT ++ r)) as [[len g]|] eqn:E.
  - assert (H : startsWith IMAGE_OPEN (LBRACKET :: List.tl CORRECT ++ r) = true)
      by (apply Hrx; congruence).
    discriminate.
  - rewrite (search_skip rx _ r Hrx marker_tail_bracketFree).
    destruct (search rx r) as [[i e g0]|]; reflexivity.
Qed.

Lemma tagBody_bracketFree (x : jsstring) : tagBody x -> bracketFree x.
Proof.
  unfold tagBody, bracketFree. intros H.
  eapply Forall_impl; [exact H|]. cbn. tauto.
Qed.

Lemma indexOf_skip_tag (x r : jsstring) :
  tagBody x ->
  indexOf (tag x ++ r) CORRECT
  = (fun i => (length (tag x) + i)%nat) <$> indexOf r CORRECT.
Proof.
  intros Hx. unfold tag.
  change (IMAGE_OPEN ++ x ++ [RBRACKET]) with (LBRACKET :: (List.tl IMAGE_OPEN ++ x ++ [RBRACKET])).
  cbn [app]. rewrite indexOf_tail by reflexivity.
  rewrite (indexOf_skip (List.tl IMAGE_OPEN ++ x ++ [RBRACKET]) r).
  - cbn [length]. destruct (indexOf r CORRECT); reflexivity.
  - apply Forall_app. split; [exact open_tail_bracketFree|].
    apply Forall_app. split; [apply tagBody_bracketFree, Hx|].
    repeat constructor; discriminate.
Qed.

Lemma lazyToBracket_body (x r : jsstring) :
  tagBody x -> lazyToBracket (x ++ RBRACKET :: r) = Some (length x).
Proof.
  induction 1 as [|c x (_ & Hc & Hl) _ IH]; [reflexivity|].
  cbn [app lazyToBracket length].
  destruct (Z.eqb_spec c RBRACKET); [congruence|]. rewrite Hl, IH. reflexivity.
Qed.

Lemma imageTagAt_tag (x r : jsstring) :
  tagBody x -> imageTagAt (tag x ++ r) = Some (length (tag x), x).
Proof.
  intros Hx. unfold imageTagAt, tag. rewrite <- !app_assoc.
  rewrite startsWith_app. rewrite drop_app_length.
  cbn [app]. rewrite (lazyToBracket_body x r Hx). cbn.
  rewrite take_app_length. f_equal. f_equal.
  rewrite !length_app. cbn. lia.
Qed.

Lemma search_head rx (s g : jsstring) len :
  rx s = Some (len, g) ->
  search rx s = Some {| index := 0; extent := len; group1 := g |}.
Proof. intros H. destruct s; cbn [search]; rewrite H; reflexivity. Qed.

Lemma cut_middle (a m r : jsstring) : cut (length a) (length m) (a ++ m ++ r) = a ++ r.
Proof.
  unfold cut. rewrite take_app_length. f_equal.
  rewrite <- drop_drop, drop_app_length, drop_app_length. reflexivity.
Qed.

Lemma trimStart_app_stop (a r : jsstring) c :
  isWhiteSpace c = false -> trimStart (a ++ c :: r) = trimStart a ++ c :: r.
Proof.
  intros W. induction a as [|d a IH]; cbn [app trimStart].
  - rewrite W. reflexivity.
  - destruct (isWhiteSpace d); [exact IH|reflexivity].
Qed.


(** C4, as stated, fails on its scenario: the fifth increment ends with a
    delimiter, so the second sentence is cut by that feed and nothing is
    left for the flush. *)
Lemma scenarioA_not_flushed :
  ~ (spoken (snd (loop 1 (undisturbed 0 scenarioA) fresh)) = [scenarioA1]
     /\ spoken (flush 1 1 (fst (loop 1 (undisturbed 0 scenarioA) fresh)))
        = [scenarioA2]).
Proof. intros [H _]. vm_compute in H. discriminate. Qed.

(** C4, amended. A feed appends the increment to the buffer; when the
    buffer then holds a delimiter, the feed cuts the prefix that ends
    with the last one, hands its cleaned text to [playTTS] (exactly one
    request, never empty) and keeps the rest, which holds no delimiter;
    when it holds none, nothing is spoken and the buffer keeps growing.
    At the end of the stream the cleaned buffer is spoken if it is not
    empty. On scenario A the third feed speaks the first sentence, the
    fifth feed the second, and the flush has nothing left to speak. *)
Theorem feed_cuts_at_last_delimiter :
  (forall (chunk : jsstring) (l : Locals),
     let b := buffer l ++ chunk in
     let r := iteration chunk l in
     match segment b with
     | None =>
         Forall (fun c => isDelimiter c = false) b
         /\ buffer (fst r) = b /\ spoken (snd r) = []
     | Some (sentence, rest) =>
         sentence ++ rest = b
         /\ (exists d, last sentence = Some d /\ isDelimiter d = true)
         /\ Forall (fun c => isDelimiter c = false) rest
         /\ buffer (fst r) = rest
         /\ spoken (snd r) = [cleanForTTS sentence]
         /\ cleanForTTS sentence <> []
     end)
  /\ (forall (seq : Z) (l : Locals),
        spoken (flush seq seq l) =
          if nonEmpty (cleanForTTS (buffer l))
          then [cleanForTTS (buffer l)] else [])
  /\ (let r := loop 1 (undisturbed 0 scenarioA) fresh in
      List.map spoken (List.map (fun k => snd (loop 1 (undisturbed 0 (take k scenarioA)) fresh))
                                [1; 2; 3; 4; 5]%nat)
        = [[]; []; [scenarioA1]; [scenarioA1]; [scenarioA1; scenarioA2]]
      /\ spoken (snd r) = [scenarioA1; scenarioA2]
      /\ buffer (fst r) = []
      /\ flush 1 1 (fst r) = []).
Proof.
  split; [|split].
  - intros chunk l b r.
    destruct (iteration_spoken chunk l) as (Hs & Hb & _). fold b r in Hs, Hb.
    pose proof (segment_spec b) as S.
    destruct (segment b) as [[sentence rest]|].
    + destruct S as (E & (d & Hl & Hd) & F).
      pose proof (cleanForTTS_keeps_last sentence d Hl Hd) as Hk.
      assert (Hne : cleanForTTS sentence <> []).
      { intros E0. rewrite E0 in Hk. discriminate. }
      destruct (cleanForTTS sentence) eqn:Ec; [congruence|].
      cbn [nonEmpty] in Hs. eauto 10.
    + auto.
  - intros seq l. unfold flush. rewrite Z.eqb_refl, andb_true_r.
    destruct (nonEmpty (cleanForTTS (buffer l))); reflexivity.
  - vm_compute. auto.
Qed.

Lemma textOf_app (a b : list Part) : textOf (a ++ b) = textOf a ++ textOf b.
Proof. unfold textOf. rewrite List.map_app, concat_app. reflexivity. Qed.

Lemma free_filter (f : Part -> bool) (ps : list Part) :
  Forall (fun p => f p = false) ps ->
  List.filter (fun p => negb (f p)) ps = ps.
Proof.
  induction 1 as [|p ps Hp _ IH]; [reflexivity|].
  cbn [List.filter]. rewrite Hp, IH. reflexivity.
Qed.

Lemma filter_nil_free (f : Part -> bool) (ps : list Part) :
  List.filter f ps = [] -> Forall (fun p => f p = false) ps.
Proof.
  induction ps as [|p ps IH]; [constructor|]. cbn [List.filter].
  destruct (f p) eqn:E; [discriminate|]. intros H. constructor; auto.
Qed.

(** The first part of a kind, if there is one. *)
Lemma first_part (f : Part -> bool) (ps : list Part) :
  Forall (fun p => f p = false) ps
  \/ exists L m R, ps = L ++ m :: R /\ f m = true
                   /\ Forall (fun p => f p = false) L.
Proof.
  induction ps as [|p ps IH]; [left; constructor|].
  destruct (f p) eqn:E.
  - right. exists [], p, ps. repeat split; [exact E|constructor].
  - destruct IH as [IH|(L & m & R & -> & Hm & HL)].
    + left. constructor; assumption.
    + right. exists (p :: L), m, R. repeat split; [exact Hm|].
      constructor; assumption.
Qed.

(** ... and no other one behind it, when the kind occurs at most once. *)
Lemma once_rest (f : Part -> bool) (L R : list Part) m :
  f m = true -> Forall (fun p => f p = false) L ->
  (length (List.filter f (L ++ m :: R)) <= 1)%nat ->
  Forall (fun p => f p = false) R
  /\ List.filter (fun p => negb (f p)) (L ++ m :: R) = L ++ R.
Proof.
  intros Hm HL Hn.
  assert (HR : Forall (fun p => f p = false) R).
  { apply filter_nil_free. rewrite List.filter_app in Hn. cbn [List.filter] in Hn.
    rewrite Hm, length_app in Hn. cbn [length] in Hn.
    destruct (List.filter f R); [reflexivity|cbn [length] in Hn; lia]. }
  split; [exact HR|].
  rewrite List.filter_app. cbn [List.filter]. rewrite Hm. cbn [negb].
  rewrite !free_filter by assumption. reflexivity.
Qed.

Lemma indexOf_parts (ps : list Part) (r : jsstring) :
  Forall wellFormedPart ps -> Forall (fun p => isCorrectMarker p = false) ps ->
  indexOf (textOf ps ++ r) CORRECT
  = (fun i => (length (textOf ps) + i)%nat) <$> indexOf r CORRECT.
Proof.
  induction 1 as [|p ps Hp _ IH]; intros Hn.
  - cbn [textOf List.map concat app length]. destruct (indexOf r CORRECT); reflexivity.
  - inversion Hn as [|? ? Hp' Hn']; subst.
    change (textOf (p :: ps)) with (written p ++ textOf ps).
    rewrite <- app_assoc, length_app.
    destruct p as [s|x|]; cbn [written]; [| |discriminate].
    + rewrite indexOf_skip by exact Hp. rewrite IH by exact Hn'.
      destruct (indexOf r CORRECT); cbn; [f_equal; lia|reflexivity].
    + rewrite indexOf_skip_tag by apply Hp. rewrite IH by exact Hn'.
      destruct (indexOf r CORRECT); cbn; [f_equal; lia|reflexivity].
Qed.

Lemma shift_shift (a b : nat) (m : RegExpMatch) :
  shift a (shift b m) = shift (a + b) m.
Proof. unfold shift. cbn. f_equal. lia. Qed.

Lemma search_parts (ps : list Part) (r : jsstring) :
  Forall wellFormedPart ps -> Forall (fun p => isImageTag p = false) ps ->
  search imageTagAt (textOf ps ++ r)
  = shift (length (textOf ps)) <$> search imageTagAt r.
Proof.
  induction 1 as [|p ps Hp _ IH]; intros Hn.
  - cbn [textOf List.map concat app length].
    destruct (search imageTagAt r) as [[i e g]|]; reflexivity.
  - inversion Hn as [|? ? Hp' Hn']; subst.
    change (textOf (p :: ps)) with (written p ++ textOf ps).
    rewrite <- app_assoc, length_app.
    destruct p as [s|x|]; cbn [written]; [|discriminate|].
    + rewrite (search_skip imageTagAt) by (exact imageTagAt_open || exact Hp).
      rewrite IH by exact Hn'.
      destruct (search imageTagAt r); cbn; [rewrite shift_shift|]; reflexivity.
    + rewrite (search_skip_marker imageTagAt) by exact imageTagAt_open.
      rewrite IH by exact Hn'.
      destruct (search imageTagAt r); cbn; [rewrite shift_shift|]; reflexivity.
Qed.

(** The first replacement removes the marker of a text that holds one. *)
Lemma replace_parts (ps : list Part) :
  Forall wellFormedPart ps ->
  (length (List.filter isCorrectMarker ps) <= 1)%nat ->
  replace (textOf ps) CORRECT
  = textOf (List.filter (fun p => negb (isCorrectMarker p)) ps).
Proof.
  intros Hw Hn. unfold replace.
  destruct (first_part isCorrectMarker ps) as [Hf|(L & m & R & -> & Hm & HL)].
  - rewrite free_filter by exact Hf.
    rewrite <- (app_nil_r (textOf ps)) at 1.
    rewrite indexOf_parts by assumption. reflexivity.
  - destruct (once_rest isCorrectMarker L R m Hm HL Hn) as [HR ->].
    destruct m; try discriminate.
    apply Forall_app in Hw. destruct Hw as [HwL _].
    rewrite !textOf_app. change (textOf (CorrectMarker :: R)) with (CORRECT ++ textOf R).
    rewrite indexOf_parts by assumption.
    rewrite indexOf_head by apply startsWith_app.
    cbn [fmap option_fmap option_map]. rewrite Nat.add_0_r. apply cut_middle.
Qed.

(** The second replacement removes the image tag of a text that holds one. *)
Lemma replaceRegex_parts (ps : list Part) :
  Forall wellFormedPart ps ->
  (length (List.filter isImageTag ps) <= 1)%nat ->
  replaceRegex imageTagAt (textOf ps)
  = textOf (List.filter (fun p => negb (isImageTag p)) ps).
Proof.
  intros Hw Hn. unfold replaceRegex.
  destruct (first_part isImageTag ps) as [Hf|(L & m & R & -> & Hm & HL)].
  - rewrite free_filter by exact Hf.
    rewrite <- (app_nil_r (textOf ps)) at 1.
    rewrite search_parts by assumption. reflexivity.
  - destruct (once_rest isImageTag L R m Hm HL Hn) as [HR ->].
    destruct m as [|x|]; try discriminate.
    apply Forall_app in Hw. destruct Hw as [HwL HwR].
    inversion HwR as [|? ? Hx0 _]; subst. destruct Hx0 as [Hx _].
    rewrite !textOf_app. change (textOf (ImageTag x :: R)) with (tag x ++ textOf R).
    rewrite search_parts by assumption.
    rewrite (search_head imageTagAt _ x (length (tag x))) by (apply imageTagAt_tag, Hx).
    cbn [fmap option_fmap option_map shift index extent]. rewrite Nat.add_0_r.
    apply cut_middle.
Qed.

Lemma strip_parts (ps : list Part) :
  Forall wellFormedPart ps ->
  let kept := List.filter (fun p => negb (isCorrectMarker p)) ps in
  Forall wellFormedPart kept
  /\ List.filter isImageTag kept = List.filter isImageTag ps
  /\ textOf (List.filter (fun p => negb (isImageTag p)) kept) = plainOf ps.
Proof.
  induction 1 as [|p ps Hp _ (IH1 & IH2 & IH3)]; [repeat split; constructor|].
  cbn zeta in *. destruct p as [s|x|]; cbn [List.filter isCorrectMarker isImageTag negb].
  - split; [constructor; assumption|]. split; [exact IH2|].
    change (s ++ textOf (List.filter (fun p => negb (isImageTag p))
                            (List.filter (fun p => negb (isCorrectMarker p)) ps))
            = s ++ plainOf ps).
    rewrite IH3. reflexivity.
  - split; [constructor; assumption|]. split; [rewrite IH2; reflexivity|exact IH3].
  - auto.
Qed.

(** The text handed to synthesis for a piece with at most one marker of
    each kind is the plain text of the piece, trimmed. *)
Lemma cleanForTTS_parts (ps : list Part) :
  Forall wellFormedPart ps -> onceEach ps ->
  cleanForTTS (textOf ps) = trim (plainOf ps).
Proof.
  intros Hw [Hi Hc]. unfold cleanForTTS.
  destruct (strip_parts ps Hw) as (K1 & K2 & K3).
  rewrite replace_parts by assumption.
  rewrite replaceRegex_parts by (try rewrite K2; assumption).
  rewrite K3. reflexivity.
Qed.

(** *** Cuts and markers *)

Lemma delimiterFree_written (m : Part) :
  wellFormedPart m -> isImageTag m || isCorrectMarker m = true ->
  delimiterFree (written m).
Proof.
  destruct m as [s|x|]; cbn [written isImageTag isCorrectMarker orb];
    intros Hw Hm; [discriminate| |].
  - destruct Hw as [_ Hx]. unfold tag, delimiterFree.
    apply Forall_app. split; [repeat constructor|].
    apply Forall_app. split; [exact Hx|repeat constructor].
  - repeat constructor.
Qed.

Lemma endsSentence_prefix (p l : jsstring) :
  endsSentence p -> delimiterFree (p ++ l) -> False.
Proof.
  intros (d & Hd & Hdel) Hf. apply last_Some in Hd. destruct Hd as [p' ->].
  unfold delimiterFree in Hf. rewrite !Forall_app in Hf.
  destruct Hf as [[_ Hf] _]. inversion Hf; subst. congruence.
Qed.

Lemma endsSentence_suffix (a l : jsstring) :
  l <> [] -> endsSentence (a ++ l) -> endsSentence l.
Proof.
  intros Hl (d & Hd & Hdel). exists d. split; [|exact Hdel].
  rewrite last_app in Hd. destruct (last l) eqn:E; [exact Hd|].
  apply last_None in E. contradiction.
Qed.

Lemma endsSentence_nonempty : ~ endsSentence [].
Proof. intros (d & Hd & _). discriminate. Qed.

(** A cut behind a sentence delimiter falls into plain text, when no marker
    holds a delimiter: the parts split in two. *)
Lemma parts_split (ps : list Part) :
  Forall wellFormedPart ps -> forall p q : jsstring,
  textOf ps = p ++ q -> endsSentence p ->
  exists ps1 ps2,
    p = textOf ps1 /\ q = textOf ps2
    /\ Forall wellFormedPart ps1 /\ Forall wellFormedPart ps2
    /\ plainOf ps = plainOf ps1 ++ plainOf ps2
    /\ List.filter isImageTag ps = List.filter isImageTag ps1 ++ List.filter isImageTag ps2
    /\ List.filter isCorrectMarker ps
       = List.filter isCorrectMarker ps1 ++ List.filter isCorrectMarker ps2.
Proof.
  induction 1 as [|m ps Hm Hps IH]; intros p q E Hp.
  - cbn in E. symmetry in E. apply app_eq_nil in E. destruct E as [-> _].
    destruct (endsSentence_nonempty Hp).
  - change (textOf (m :: ps)) with (written m ++ textOf ps) in E.
    apply List.app_eq_app in E.
    destruct E as (l & [[E1 E2]|[E1 E2]]).
    + (* the cut falls into [m] *)
      destruct m as [s|x|].
      * cbn [written] in E1. subst s.
        unfold wellFormedPart, bracketFree in Hm. apply Forall_app in Hm.
        destruct Hm as [Hp1 Hl].
        exists [PlainText p], (PlainText l :: ps).
        split; [cbn; rewrite app_nil_r; reflexivity|].
        split; [rewrite E2; reflexivity|].
        split; [repeat constructor; exact Hp1|].
        split; [constructor; assumption|].
        split; [cbn; rewrite app_nil_r, <- app_assoc; reflexivity|].
        split; reflexivity.
      * exfalso. apply (endsSentence_prefix p l Hp). rewrite <- E1.
        apply delimiterFree_written; [exact Hm|reflexivity].
      * exfalso. apply (endsSentence_prefix p l Hp). rewrite <- E1.
        apply delimiterFree_written; [exact Hm|reflexivity].
    + (* the cut falls behind [m] *)
      destruct l as [|c l].
      * rewrite app_nil_r in E1. cbn [app] in E2. subst p.
        destruct m as [s|x|].
        -- exists [PlainText s], ps.
           split; [cbn; rewrite app_nil_r; reflexivity|].
           split; [symmetry; exact E2|].
           split; [repeat constructor; exact Hm|].
           split; [exact Hps|].
           split; [cbn; rewrite app_nil_r; reflexivity|].
           split; reflexivity.
        -- exfalso. apply (endsSentence_prefix _ [] Hp). rewrite app_nil_r.
           apply delimiterFree_written; [exact Hm|reflexivity].
        -- exfalso. apply (endsSentence_prefix _ [] Hp). rewrite app_nil_r.
           apply delimiterFree_written; [exact Hm|reflexivity].
      * assert (Hl : endsSentence (c :: l)).
        { apply (endsSentence_suffix (written m)); [discriminate|].
          rewrite <- E1. exact Hp. }
        destruct (IH (c :: l) q E2 Hl)
          as (ps1 & ps2 & F1 & F2 & W1 & W2 & G1 & G2 & G3).
        exists (m :: ps1), ps2.
        split; [rewrite E1, F1; reflexivity|].
        split; [exact F2|].
        split; [constructor; assumption|].
        split; [exact W2|].
        split.
        { change (plainOf (m :: ps))
            with (match m with PlainText s => s | _ => [] end ++ plainOf ps).
          change (plainOf (m :: ps1))
            with (match m with PlainText s => s | _ => [] end ++ plainOf ps1).
          rewrite G1, app_assoc. reflexivity. }
        cbn [List.filter]. rewrite G2, G3.
        split; [destruct (isImageTag m)|destruct (isCorrectMarker m)]; reflexivity.
Qed.

(** Every raw sentence ends with a sentence delimiter. *)
Lemma sentences_end (increments : list jsstring) : forall buffer0,
  Forall endsSentence (fst (sentences increments buffer0)).
Proof.
  induction increments as [|chunk rest IH]; intros buffer0; cbn [sentences].
  - constructor.
  - pose proof (segment_spec (buffer0 ++ chunk)) as S.
    destruct (segment (buffer0 ++ chunk)) as [[sentence kept]|]; [|apply IH].
    destruct S as (_ & Hd & _). specialize (IH kept).
    destruct (sentences rest kept) as [ss final]. cbn [fst] in *.
    constructor; assumption.
Qed.

(** The pieces of a text whose markers hold no delimiter are texts of parts
    themselves, with the same plain text and the same markers. *)
Lemma pieces_parts (segs : list jsstring) : forall (ps : list Part) final,
  Forall endsSentence segs -> Forall wellFormedPart ps ->
  concat segs ++ final = textOf ps ->
  exists pss : list (list Part),
    List.map textOf pss = segs ++ [final]
    /\ Forall (Forall wellFormedPart) pss
    /\ plainOf ps = concat (List.map plainOf pss)
    /\ List.filter isImageTag ps = concat (List.map (List.filter isImageTag) pss)
    /\ List.filter isCorrectMarker ps
       = concat (List.map (List.filter isCorrectMarker) pss).
Proof.
  induction segs as [|s segs IH]; intros ps final Hs Hw E.
  - cbn in E. subst final. exists [ps]. cbn. rewrite !app_nil_r.
    repeat split. repeat constructor. exact Hw.
  - inversion Hs as [|? ? Hs1 Hs2]; subst. cbn [concat] in E.
    rewrite <- app_assoc in E. symmetry in E.
    destruct (parts_split ps Hw s _ E Hs1)
      as (ps1 & ps2 & F1 & F2 & W1 & W2 & G1 & G2 & G3).
    destruct (IH ps2 final Hs2 W2 F2) as (pss & P1 & P2 & P3 & P4 & P5).
    exists (ps1 :: pss). cbn [List.map concat app].
    split; [rewrite P1, F1; reflexivity|].
    split; [constructor; assumption|].
    rewrite G1, G2, G3, P3, P4, P5. repeat split.
Qed.

Lemma concat_length_le (f : list Part -> list Part) (pss : list (list Part)) n :
  (length (concat (List.map f pss)) <= n)%nat ->
  Forall (fun qs => (length (f qs) <= n)%nat) pss.
Proof.
  induction pss as [|qs pss IH]; [constructor|]. cbn [List.map concat].
  rewrite length_app. intros H. constructor; [lia|apply IH; lia].
Qed.

(** What is spoken for pieces with at most one marker of each kind. *)
Lemma spoken_pieces (pss : list (list Part)) :
  Forall (Forall wellFormedPart) pss -> Forall onceEach pss ->
  List.map cleanForTTS (List.map textOf pss)
  = List.map (fun qs => trim (plainOf qs)) pss.
Proof.
  induction 1 as [|qs pss Hq _ IH]; intros Ho; [reflexivity|].
  inversion Ho; subst. cbn [List.map].
  rewrite cleanForTTS_parts, IH by assumption. reflexivity.
Qed.

Lemma trimmed_notSpace (segs : list jsstring) :
  List.filter notSpace (concat (List.filter nonEmpty (List.map trim segs)))
  = List.filter notSpace (concat segs).
Proof.
  induction segs as [|s segs IH]; [reflexivity|].
  cbn [List.map List.filter concat]. rewrite List.filter_app, <- IH, <- (trim_notSpace s).
  destruct (trim s) eqn:E; cbn [nonEmpty]; [reflexivity|].
  cbn [concat]. rewrite List.filter_app. reflexivity.
Qed.

(** C3, as stated, fails. A sentence delimiter inside an image tag cuts the
    tag in two, and both halves are spoken; and since every sentence is
    cleaned on its own, a second marker is spoken when it comes in the
    sentence of the first and removed when it comes in a later one, while
    the cleaning of the accumulated text does the opposite. *)
Lemma spoken_texts_differ_from_cleaned_text :
  (let increments := [lit "Look [IMAGE: Mr. "; lit "Bean] here."] in
   let es := fst (processStream 0 (undisturbed 0 increments) 1) in
   spoken es = [lit "Look [IMAGE: Mr."; lit "Bean] here."]
   /\ cleanForTTS (concat increments) = lit "Look  here."
   /\ List.filter notSpace (concat (spoken es))
      <> List.filter notSpace (cleanForTTS (concat increments)))
  /\ (let increments := [lit "[CORRECT]Yes."; lit "[CORRECT]Good."] in
      let es := fst (processStream 0 (undisturbed 0 increments) 1) in
      spoken es = [lit "Yes."; lit "Good."]
      /\ cleanForTTS (concat increments) = lit "Yes.[CORRECT]Good."
      /\ List.filter notSpace (concat (spoken es))
         <> List.filter notSpace (cleanForTTS (concat increments)))
  /\ (let increments := [lit "[CORRECT]Yes, "; lit "[CORRECT]good."] in
      let es := fst (processStream 0 (undisturbed 0 increments) 1) in
      spoken es = [lit "Yes, [CORRECT]good."]
      /\ cleanForTTS (concat increments) = lit "Yes, [CORRECT]good.").
Proof. vm_compute. repeat split; discriminate. Qed.

(** C3, amended. The raw sentences cut by the feeds, followed by the
    buffer left for the flush, are exactly the accumulated text, and the
    texts handed to [playTTS] are these pieces cleaned one by one, the
    empty ones dropped. When the accumulated text is plain text and
    markers whose image tags hold no sentence delimiter, every cut falls
    into plain text: the pieces have the plain text and the markers of the
    accumulated text between them. When moreover no piece holds two
    markers of a kind, every spoken text is the plain text of its piece,
    trimmed, so the spoken texts put together are the accumulated text
    without its markers, up to white space; and when the accumulated text
    holds at most one marker of each kind, that is its cleaned text. *)
Theorem segments_partition_text (before : Z) (increments : list jsstring) :
  let ss := sentences increments [] in
  let es := fst (processStream before (undisturbed before increments) (before + 1)) in
  concat (fst ss) ++ snd ss = concat increments
  /\ spoken es = List.filter nonEmpty (List.map cleanForTTS (fst ss ++ [snd ss]))
  /\ forall ps : list Part,
       Forall wellFormedPart ps -> concat increments = textOf ps ->
       exists pss : list (list Part),
         List.map textOf pss = fst ss ++ [snd ss]
         /\ Forall (Forall wellFormedPart) pss
         /\ plainOf ps = concat (List.map plainOf pss)
         /\ List.filter isImageTag ps = concat (List.map (List.filter isImageTag) pss)
         /\ List.filter isCorrectMarker ps
            = concat (List.map (List.filter isCorrectMarker) pss)
         /\ (Forall onceEach pss ->
             spoken es
             = List.filter nonEmpty (List.map (fun qs => trim (plainOf qs)) pss)
             /\ List.filter notSpace (concat (spoken es))
                = List.filter notSpace (plainOf ps))
         /\ (onceEach ps ->
             Forall onceEach pss
             /\ cleanForTTS (concat increments) = trim (plainOf ps)
             /\ List.filter notSpace (concat (spoken es))
                = List.filter notSpace (cleanForTTS (concat increments))).
Proof.
  intros ss es.
  assert (H1 : concat (fst ss) ++ snd ss = concat increments).
  { apply (sentences_partition increments []). }
  assert (H2 : spoken es
               = List.filter nonEmpty (List.map cleanForTTS (fst ss ++ [snd ss]))).
  { subst es. unfold processStream.
    destruct (loop_sentences before increments fresh) as (Hs & Hb & _).
    cbn [buffer fresh] in Hs, Hb. fold ss in Hs, Hb.
    destruct (loop (before + 1) (undisturbed before increments) fresh) as [l e].
    cbn [fst snd] in *. rewrite !spoken_app, Hs.
    rewrite List.map_app, List.filter_app. f_equal.
    unfold flush. rewrite Z.eqb_refl, andb_true_r, Hb. cbn [List.map List.filter].
    destruct (nonEmpty (cleanForTTS (snd ss))); reflexivity. }
  split; [exact H1|]. split; [exact H2|].
  intros ps Hw E.
  destruct (pieces_parts (fst ss) ps (snd ss)) as (pss & P1 & P2 & P3 & P4 & P5).
  { apply sentences_end. }
  { exact Hw. }
  { rewrite H1. exact E. }
  exists pss.
  assert (Hspoken : Forall onceEach pss ->
            spoken es
            = List.filter nonEmpty (List.map (fun qs => trim (plainOf qs)) pss)
            /\ List.filter notSpace (concat (spoken es))
               = List.filter notSpace (plainOf ps)).
  { intros Ho.
    assert (E1 : spoken es
                 = List.filter nonEmpty (List.map (fun qs => trim (plainOf qs)) pss)).
    { rewrite H2, <- P1. rewrite spoken_pieces by assumption. reflexivity. }
    split; [exact E1|].
    rewrite E1, P3, <- (List.map_map plainOf trim). apply trimmed_notSpace. }
  repeat (split; [assumption|]).
  intros [Hi Hc].
  assert (Ho : Forall onceEach pss).
  { rewrite P4 in Hi. rewrite P5 in Hc.
    apply concat_length_le in Hi. apply concat_length_le in Hc.
    rewrite Forall_forall in Hi, Hc. apply Forall_forall. intros qs Hq.
    split; [apply Hi|apply Hc]; exact Hq. }
  split; [exact Ho|].
  assert (Hclean : cleanForTTS (concat increments) = trim (plainOf ps)).
  { rewrite E. apply cleanForTTS_parts; [exact Hw|split; assumption]. }
  split; [exact Hclean|].
  rewrite Hclean, trim_notSpace. apply (Hspoken Ho).
Qed.

Lemma segments_partition_text_witness :
  let es := fst (processStream 0 (undisturbed 0 markedIncrements) 1) in
  Forall wellFormedPart markedParts
  /\ concat markedIncrements = textOf markedParts
  /\ onceEach markedParts
  /\ spoken es = [lit "Look  here."; lit "Yes!"]
  /\ cleanForTTS (concat markedIncrements) = lit "Look  here. Yes!"
  /\ List.filter notSpace (concat (spoken es)) = lit "Lookhere.Yes!"
  /\ List.filter notSpace (concat (spoken es))
     = List.filter notSpace (cleanForTTS (concat markedIncrements)).
Proof.
  intros es.
  assert (Hw : Forall wellFormedPart markedParts).
  { repeat constructor; discriminate. }
  assert (E : concat markedIncrements = textOf markedParts) by reflexivity.
  assert (Ho : onceEach markedParts) by (split; cbn; lia).
  split; [exact Hw|]. split; [exact E|]. split; [exact Ho|].
  split; [reflexivity|]. split; [reflexivity|]. split; [reflexivity|].
  destruct (segments_partition_text 0 markedIncrements) as (_ & _ & H).
  destruct (H markedParts Hw E) as (pss & _ & _ & _ & _ & _ & _ & H3).
  apply (H3 Ho).
Defined.

End SegmenterFacts.


(* ===================================================================== *)
(** ** Directives: how often they fire and what the stripping leaves *)
(* ===================================================================== *)

Section DirectiveFacts.
Import JsString Turn.

Lemma iteration_directives (chunk : jsstring) (l : Locals) :
  let r := iteration chunk l in
  imageRequests (snd r) =
    (if imageTriggered l then []
     else match search imageRegexAt (fullText l ++ chunk) with
          | Some m => [group1 m]
          | None => []
          end)
  /\ imageTriggered (fst r) =
       match search imageRegexAt (fullText l ++ chunk) with
       | Some _ => true
       | None => imageTriggered l
       end
  /\ isCorrectFound (fst r) =
       includes (stripImage (fullText l ++ chunk)) CORRECT || isCorrectFound l.
Proof.
  unfold iteration.
  destruct (segment (buffer l ++ chunk)) as [[sentence rest]|];
    [destruct (nonEmpty (cleanForTTS sentence))|];
    cbn [fst snd imageTriggered isCorrectFound];
    rewrite !imageRequests_app; cbn [imageRequests omap]; rewrite ?app_nil_r;
    (split; [|auto]);
    destruct (search imageRegexAt (fullText l ++ chunk));
    destruct (imageTriggered l); reflexivity.
Qed.

(** At most one image is requested in a turn, whatever the stream and
    whenever it is abandoned. *)
Lemma loop_image_once (seq : Z) (stream : list (Z * jsstring)) : forall l,
  (length (imageRequests (snd (loop seq stream l)))
   <= if imageTriggered l then 0 else 1)%nat.
Proof.
  induction stream as [|[current chunk] stream IH]; intros l; cbn [loop].
  - cbn. destruct (imageTriggered l); lia.
  - destruct (negb (seq =? current)); [cbn; destruct (imageTriggered l); lia|].
    destruct (iteration_directives chunk l) as (Hi & Ht & _).
    destruct (iteration chunk l) as [l1 e1]. cbn [fst snd] in *.
    specialize (IH l1). destruct (loop seq stream l1) as [l2 e2]. cbn [fst snd] in *.
    rewrite imageRequests_app, length_app, Hi. rewrite Ht in IH.
    destruct (search imageRegexAt (fullText l ++ chunk));
      destruct (imageTriggered l); cbn in *; lia.
Qed.

Lemma loop_correct (before : Z) (increments : list jsstring) : forall l,
  isCorrectFound (fst (loop (before + 1) (undisturbed before increments) l))
  = isCorrectFound l || correctSeen (fullText l) increments.
Proof.
  induction increments as [|chunk rest IH]; intros l.
  - cbn. rewrite orb_false_r. reflexivity.
  - rewrite loop_undisturbed_cons. cbn [fst correctSeen]. rewrite IH.
    destruct (iteration_directives chunk l) as (_ & _ & ->).
    destruct (iteration_spoken chunk l) as (_ & _ & ->).
    destruct (isCorrectFound l), (includes _ CORRECT); reflexivity.
Qed.

(** C5. In one turn [generateImage] is called at most once and the
    celebration is switched on at most once; the value returned by an
    undisturbed turn is whether the marker was visible after some
    increment. With the marker in two increments the turn returns [true]
    and there is exactly one celebration. *)
Theorem directives_fire_once :
  (forall (before : Z) (stream : list (Z * jsstring)) (atEnd : Z)
          (showCelebration : bool),
     let r := processStream before stream atEnd in
     (length (imageRequests (fst r)) <= 1)%nat
     /\ (length (celebrations (snd r) showCelebration) <= 1)%nat
     /\ celebrations (snd r) showCelebration
        = if snd r && negb showCelebration then [true] else [])
  /\ (forall (before : Z) (increments : list jsstring) (atEnd : Z),
        snd (processStream before (undisturbed before increments) atEnd)
        = correctSeen [] increments)
  /\ (let r := processStream 0
                 (undisturbed 0 [lit "[CORRECT]Yes."; lit "[CORRECT][IMAGE: a]Good.";
                                 lit "[IMAGE: b]"]) 1 in
      snd r = true /\ celebrations (snd r) false = [true]
      /\ imageRequests (fst r) = [lit "a"]).
Proof.
  split; [|split].
  - intros before stream atEnd showCelebration. unfold processStream.
    pose proof (loop_image_once (before + 1) stream fresh) as H.
    destruct (loop (before + 1) stream fresh) as [l e]. cbn [fst snd] in *.
    split.
    + rewrite !imageRequests_app, !length_app.
      assert (Hf : imageRequests (flush (before + 1) atEnd l) = []).
      { unfold flush. destruct (_ && _); reflexivity. }
      rewrite Hf. cbn in *. lia.
    + unfold celebrations. destruct (_ && _); cbn; auto.
  - intros before increments atEnd. unfold processStream.
    pose proof (loop_correct before increments fresh) as H.
    destruct (loop (before + 1) (undisturbed before increments) fresh) as [l e].
    cbn [fst snd] in *. exact H.
  - vm_compute. auto.
Qed.

(** *** What the stripping leaves *)




End DirectiveFacts.


(* ===================================================================== *)
(** ** More on the decoder *)
(* ===================================================================== *)

Section DecoderMore.
Import Decoder.

Lemma createBuffer_default (n : nat) :
  createBuffer standard 1 n 24000 = negb (n =? 0)%nat.
Proof. destruct n; reflexivity. Qed.

(** X1. With the default arguments [decodeAudioData] returns a buffer
    exactly for a payload of an even, non-zero number of bytes; the buffer
    then has one channel of half as many frames and lasts the number of
    bytes divided by 48000 seconds. *)
Theorem decodeAudioData_succeeds_iff (data : list byte) :
  (is_Some (decodeAudioDataDefault data)
   <-> Nat.even (length data) = true /\ data <> [])
  /\ forall b, decodeAudioDataDefault data = Some b ->
       numberOfChannels b = 1%nat
       /\ (2 * frames b = length data)%nat
       /\ (exists samples, channelData b = [samples] /\ length samples = frames b)
       /\ (duration b == inject_Z (Z.of_nat (length data)) / 48000)%Q.
Proof.
  unfold decodeAudioDataDefault, decodeAudioData. split.
  - split.
    + intros [b H]. destruct (int16Array data) as [l|] eqn:E; [|cbn in H; discriminate].
      cbn [mbind option_bind] in H. rewrite Nat.div_1_r, createBuffer_default in H.
      pose proof (proj1 (int16Array_length data) l E) as Hlen.
      destruct (length l =? 0)%nat eqn:Z0; [discriminate|]. apply Nat.eqb_neq in Z0.
      split.
      * rewrite Hlen. apply Nat.even_spec. exists (length l). reflexivity.
      * intros ->. cbn in Hlen. lia.
    + intros [Hev Hne]. destruct (proj1 (int16Array_even data) Hev) as [l E].
      rewrite E. cbn [mbind option_bind]. rewrite Nat.div_1_r, createBuffer_default.
      pose proof (proj1 (int16Array_length data) l E) as Hlen.
      destruct (length l =? 0)%nat eqn:Z0; [|eexists; reflexivity].
      apply Nat.eqb_eq in Z0. destruct data; [congruence|cbn in Hlen; lia].
  - intros b H. destruct (int16Array data) as [l|] eqn:E; [|cbn in H; discriminate].
    cbn [mbind option_bind] in H. rewrite Nat.div_1_r, createBuffer_default in H.
    pose proof (proj1 (int16Array_length data) l E) as Hlen.
    destruct (length l =? 0)%nat eqn:Z0; [discriminate|]. injection H as <-.
    cbn [numberOfChannels frames channelData]. split; [reflexivity|].
    split; [lia|]. split.
    + eexists. split; [reflexivity|]. rewrite length_map, length_seq. reflexivity.
    + unfold duration. cbn [frames sampleRate]. rewrite Hlen.
      rewrite Nat2Z.inj_mul. change (Z.of_nat 2) with 2.
      unfold Qeq, Qdiv, Qmult, Qinv, inject_Z. cbn. lia.
Qed.

Lemma decodeAudioData_succeeds_iff_witness :
  exists b, decodeAudioDataDefault [x00; x80; xff; x7f]%byte = Some b
            /\ frames b = 2%nat /\ (duration b == 4 # 48000)%Q.
Proof.
  eexists. split; [reflexivity|].
  destruct (proj2 (decodeAudioData_succeeds_iff [x00; x80; xff; x7f]%byte) _ eq_refl)
    as (_ & Hf & _ & Hd).
  split; [cbn in Hf |- *; lia|]. rewrite Hd. reflexivity.
Defined.

Lemma byteZ_inj a b : byteZ a = byteZ b -> a = b.
Proof.
  unfold byteZ. intros H. apply N2Z.inj in H.
  pose proof (Byte.of_to_N a) as Ha. rewrite H, Byte.of_to_N in Ha. congruence.
Qed.

Lemma toInt16_inj lo hi lo' hi' :
  toInt16 lo hi = toInt16 lo' hi' -> lo = lo' /\ hi = hi'.
Proof.
  intros H. pose proof (toInt16_pattern lo hi) as P.
  pose proof (toInt16_pattern lo' hi') as P'. rewrite H, P' in P.
  pose proof (byteZ_range lo). pose proof (byteZ_range hi).
  pose proof (byteZ_range lo'). pose proof (byteZ_range hi').
  split; apply byteZ_inj; lia.
Qed.

Lemma int16Array_inj d1 : forall d2 l,
  int16Array d1 = Some l -> int16Array d2 = Some l -> d1 = d2.
Proof.
  induction d1 as [d1 IH] using (induction_ltof1 _ (@length byte)).
  unfold ltof in IH. intros d2 l H1 H2.
  destruct d1 as [|a [|b d1]]; [| discriminate |].
  - injection H1 as <-. destruct d2 as [|a' [|b' d2]]; [reflexivity|discriminate|].
    cbn [int16Array] in H2. destruct (int16Array d2); discriminate.
  - cbn [int16Array] in H1. destruct (int16Array d1) as [r|] eqn:E1; [|discriminate].
    cbn in H1. injection H1 as <-.
    destruct d2 as [|a' [|b' d2]]; [discriminate|discriminate|].
    cbn [int16Array] in H2. destruct (int16Array d2) as [r'|] eqn:E2; [|discriminate].
    cbn in H2. injection H2 as Hh Hr. subst r'.
    apply toInt16_inj in Hh. destruct Hh as [-> ->].
    f_equal. f_equal. apply (IH d1 ltac:(cbn; lia) d2 r E1 E2).
Qed.

(** X2. Decoding loses nothing: two payloads that decode to the same
    buffer are the same bytes. *)
Theorem decodeAudioData_injective (d1 d2 : list byte) (b : AudioBuffer) :
  decodeAudioDataDefault d1 = Some b -> decodeAudioDataDefault d2 = Some b ->
  d1 = d2.
Proof.
  unfold decodeAudioDataDefault, decodeAudioData. intros H1 H2.
  destruct (int16Array d1) as [l1|] eqn:E1; [|cbn in H1; discriminate].
  destruct (int16Array d2) as [l2|] eqn:E2; [|cbn in H2; discriminate].
  cbn [mbind option_bind] in H1, H2.
  rewrite Nat.div_1_r, createBuffer_default in H1, H2.
  destruct (length l1 =? 0)%nat; [discriminate|].
  destruct (length l2 =? 0)%nat; [discriminate|].
  injection H1 as <-. injection H2 as Hf Hc.
  assert (l1 = l2).
  { apply (nth_ext _ _ 0 0); [congruence|]. intros n Hn.
    pose proof (f_equal (fun l => nth n l (sample l2 1 0 0)) Hc) as Hs.
    cbn beta in Hs. rewrite map_nth, seq_nth in Hs by lia.
    replace (nth n (List.map (sample l1 1 0) (seq 0 (length l1))) (sample l2 1 0 0))
      with (sample l1 1 0 n) in Hs.
    - unfold sample in Hs. injection Hs as Hs.
      rewrite Nat.mul_1_r, Nat.add_0_r in Hs. cbn in Hs. congruence.
    - rewrite (nth_indep _ _ (sample l1 1 0 0)) by (rewrite length_map, length_seq; lia).
      rewrite map_nth, seq_nth by lia. reflexivity. }
  subst l2. apply (int16Array_inj d1 d2 l1 E1 E2).
Qed.

Lemma decodeAudioData_injective_witness :
  [x00; x80; xff; x7f]%byte = [x00; x80; xff; x7f]%byte.
Proof.
  eapply decodeAudioData_injective; vm_compute; reflexivity.
Defined.

End DecoderMore.


(* ===================================================================== *)
(** ** More on [processStream] *)
(* ===================================================================== *)

Section TurnMore.
Import JsString Turn.

Lemma flags_app (a b : list Effect) : flags (a ++ b) = flags a ++ flags b.
Proof. unfold flags. apply omap_app. Qed.

Lemma shown_app (a b : list Effect) : shown (a ++ b) = shown a ++ shown b.
Proof. unfold shown. apply omap_app. Qed.

Lemma flagsFrom_app (first : bool) (n m : nat) :
  flagsFrom first n ++ flagsFrom (first && (n =? 0)%nat) m = flagsFrom first (n + m).
Proof.
  destruct n as [|n]; cbn.
  - rewrite andb_true_r. reflexivity.
  - rewrite andb_false_r. destruct m as [|m]; cbn.
    + rewrite app_nil_r, Nat.add_0_r. reflexivity.
    + f_equal. change (false :: replicate m false) with (replicate (S m) false).
      rewrite replicate_add. reflexivity.
Qed.

(** What one iteration does to the flag and which flag it passes. *)
Lemma iteration_flags (chunk : jsstring) (l : Locals) :
  let r := iteration chunk l in
  let n := length (spoken (snd r)) in
  flags (snd r) = flagsFrom (isFirstSentence l) n
  /\ isFirstSentence (fst r) = isFirstSentence l && (n =? 0)%nat
  /\ (n <= 1)%nat.
Proof.
  unfold iteration.
  assert (Hi : forall m : option RegExpMatch,
            flags match m with
                  | Some m => if imageTriggered l then [] else [GenerateImage (group1 m)]
                  | None => []
                  end = []
            /\ spoken match m with
                      | Some m => if imageTriggered l then [] else [GenerateImage (group1 m)]
                      | None => []
                      end = []).
  { intros [m|]; [destruct (imageTriggered l)|]; auto. }
  destruct (Hi (search imageRegexAt (fullText l ++ chunk))) as [Hf Hs].
  destruct (segment (buffer l ++ chunk)) as [[sentence rest]|];
    [destruct (nonEmpty (cleanForTTS sentence))|];
    cbn [fst snd isFirstSentence]; rewrite !flags_app, !spoken_app, Hf, Hs; cbn;
    rewrite ?andb_true_r, ?andb_false_r; auto.
Qed.

Lemma loop_flags (seq : Z) (stream : list (Z * jsstring)) : forall l,
  let r := loop seq stream l in
  flags (snd r) = flagsFrom (isFirstSentence l) (length (spoken (snd r)))
  /\ isFirstSentence (fst r)
     = isFirstSentence l && (length (spoken (snd r)) =? 0)%nat.
Proof.
  induction stream as [|[current chunk] stream IH]; intros l; cbn [loop].
  - cbn. rewrite andb_true_r. auto.
  - destruct (negb (seq =? current)); [cbn; rewrite andb_true_r; auto|].
    destruct (iteration_flags chunk l) as (Hf & Hb & _).
    destruct (iteration chunk l) as [l1 e1]. cbn [fst snd] in *.
    specialize (IH l1). destruct (loop seq stream l1) as [l2 e2]. cbn [fst snd] in *.
    destruct IH as [IHf IHb].
    rewrite flags_app, spoken_app, length_app, Hf, IHf, IHb, Hb.
    split; [apply flagsFrom_app|].
    rewrite <- andb_assoc. f_equal.
    destruct (length (spoken e1)), (length (spoken e2)); reflexivity.
Qed.

(** X3. In one turn only the first [playTTS] call may interrupt: whatever
    the stream and wherever the turn is abandoned, the [shouldInterrupt]
    arguments are [true] for the first call and [false] for all the
    others, the flush included. *)
Theorem only_first_request_interrupts (before : Z)
  (stream : list (Z * jsstring)) (atEnd : Z) :
  let es := fst (processStream before stream atEnd) in
  flags es = flagsFrom true (length (spoken es)).
Proof.
  unfold processStream.
  destruct (loop_flags (before + 1) stream fresh) as [Hf Hb].
  destruct (loop (before + 1) stream fresh) as [l e]. cbn [fst snd] in *.
  rewrite !flags_app, !spoken_app, !length_app, Hf. cbn [isFirstSentence fresh] in *.
  cbn [flags spoken omap length]. rewrite app_nil_r, Nat.add_0_r.
  rewrite <- flagsFrom_app. f_equal. cbn [andb].
  unfold flush. rewrite Hb. cbn [andb].
  destruct (nonEmpty (cleanForTTS (buffer l)) && (before + 1 =? atEnd)); reflexivity.
Qed.

Lemma loop_app (before : Z) (increments : list jsstring)
  (rest : list (Z * jsstring)) : forall l,
  loop (before + 1) (undisturbed before increments ++ rest) l =
    let r1 := loop (before + 1) (undisturbed before increments) l in
    let r2 := loop (before + 1) rest (fst r1) in
    (fst r2, snd r1 ++ snd r2).
Proof.
  induction increments as [|chunk incs IH]; intros l.
  - cbn. destruct (loop (before + 1) rest l). reflexivity.
  - cbn [undisturbed List.map app loop]. rewrite Z.eqb_refl. cbn [negb].
    fold (undisturbed before incs).
    destruct (iteration chunk l) as [l1 e1]. rewrite IH. cbn zeta.
    destruct (loop (before + 1) (undisturbed before incs) l1) as [l2 e2].
    cbn [fst snd]. destruct (loop (before + 1) rest l2) as [l3 e3].
    cbn [fst snd]. rewrite app_assoc. reflexivity.
Qed.

(** X4. A turn that finds another sequence id stops there: what it did
    is what it did for the increments before, nothing that arrives later
    is shown or spoken and the buffer is not flushed; the turn returns
    what it had found. *)
Theorem abandoned_turn_stops (before current atEnd : Z)
  (increments : list jsstring) (chunk : jsstring)
  (rest : list (Z * jsstring)) :
  current <> before + 1 -> atEnd <> before + 1 ->
  let r := loop (before + 1) (undisturbed before increments) fresh in
  processStream before (undisturbed before increments ++ (current, chunk) :: rest)
                atEnd
  = (snd r ++ [ThenAllScheduled], isCorrectFound (fst r)).
Proof.
  intros Hc He r. unfold processStream. rewrite loop_app. cbn zeta. fold r.
  cbn [loop]. destruct (Z.eqb_spec (before + 1) current) as [?|_]; [congruence|].
  cbn [negb fst snd]. rewrite app_nil_r. unfold flush.
  destruct (Z.eqb_spec (before + 1) atEnd) as [?|_]; [congruence|].
  rewrite andb_false_r. reflexivity.
Qed.

Lemma abandoned_turn_stops_witness :
  spoken (fst (processStream 0 (undisturbed 0 [lit "One. "; lit "Two"]
                                 ++ [(2, lit " three. Four")]) 2))
  = [lit "One."].
Proof.
  rewrite (abandoned_turn_stops 0 2 2 [lit "One. "; lit "Two"] (lit " three. Four") []);
    [reflexivity| discriminate | discriminate].
Defined.

(** *** Sentences and delimiters *)

Lemma Forall_cut {P : Z -> Prop} (i n : nat) (s : jsstring) :
  Forall P s -> Forall P (cut i n s).
Proof.
  intros H. unfold cut. apply Forall_app. split.
  - apply Forall_take, H.
  - apply Forall_drop, H.
Qed.

Lemma Forall_trimStart {P : Z -> Prop} (s : jsstring) :
  Forall P s -> Forall P (trimStart s).
Proof.
  intros H. destruct (trimStart_suffix s) as (n & -> & _). apply Forall_drop, H.
Qed.

Lemma Forall_clean {P : Z -> Prop} (s : jsstring) :
  Forall P s -> Forall P (cleanForTTS s).
Proof.
  intros H. unfold cleanForTTS, trim, trimEnd.
  apply Forall_rev, Forall_trimStart, Forall_rev, Forall_trimStart.
  unfold replaceRegex, replace.
  destruct (search imageTagAt _); destruct (indexOf s CORRECT);
    repeat apply Forall_cut; exact H.
Qed.

Lemma loop_delimiters (seq : Z) (stream : list (Z * jsstring)) : forall l,
  delimiterFree (buffer l) ->
  Forall endsSentence (spoken (snd (loop seq stream l)))
  /\ delimiterFree (buffer (fst (loop seq stream l))).
Proof.
  induction stream as [|[current chunk] stream IH]; intros l Hl; cbn [loop].
  - cbn. auto.
  - destruct (negb (seq =? current)); [cbn; auto|].
    pose proof (iteration_spoken chunk l) as (Hs & Hb & _).
    pose proof (segment_spec (buffer l ++ chunk)) as S.
    destruct (iteration chunk l) as [l1 e1]. cbn [fst snd] in *.
    assert (H1 : Forall endsSentence (spoken e1) /\ delimiterFree (buffer l1)).
    { rewrite Hs, Hb. destruct (segment (buffer l ++ chunk)) as [[sentence kept]|].
      - destruct S as (_ & (d & Hd & Hi) & Hk). split; [|exact Hk].
        destruct (nonEmpty (cleanForTTS sentence)); [|constructor].
        constructor; [|constructor]. exists d. split; [|exact Hi].
        apply cleanForTTS_keeps_last; assumption.
      - split; [constructor|exact S]. }
    destruct H1 as [H1 H2]. specialize (IH l1 H2).
    destruct (loop seq stream l1) as [l2 e2]. cbn [fst snd] in *.
    rewrite spoken_app. split; [apply Forall_app; tauto|tauto].
Qed.

(** X5. Every text a feed hands to [playTTS] ends with a sentence
    delimiter, the buffer holds no delimiter between two feeds, and the
    text of the final flush, if there is one, holds none. *)
Theorem sentences_end_with_delimiters (before : Z)
  (stream : list (Z * jsstring)) (atEnd : Z) :
  let r := loop (before + 1) stream fresh in
  Forall endsSentence (spoken (snd r))
  /\ delimiterFree (buffer (fst r))
  /\ Forall delimiterFree (spoken (flush (before + 1) atEnd (fst r)))
  /\ spoken (fst (processStream before stream atEnd))
     = spoken (snd r) ++ spoken (flush (before + 1) atEnd (fst r)).
Proof.
  intros r. destruct (loop_delimiters (before + 1) stream fresh) as [H1 H2];
    [constructor|].
  fold r in H1, H2. split; [exact H1|]. split; [exact H2|]. split.
  - unfold flush. destruct (_ && _); [|constructor].
    constructor; [|constructor]. apply Forall_clean, H2.
  - unfold processStream. fold r. destruct r as [l e]. cbn [fst snd].
    rewrite !spoken_app. cbn. rewrite app_nil_r. reflexivity.
Qed.

(** *** What the message shows *)

Lemma iteration_shown (chunk : jsstring) (l : Locals) :
  shown (snd (iteration chunk l)) = [display (fullText l ++ chunk)].
Proof.
  unfold iteration.
  assert (Hi : forall m : option RegExpMatch,
            shown match m with
                  | Some m => if imageTriggered l then [] else [GenerateImage (group1 m)]
                  | None => []
                  end = []).
  { intros [m|]; [destruct (imageTriggered l)|]; auto. }
  destruct (segment (buffer l ++ chunk)) as [[sentence rest]|];
    [destruct (nonEmpty (cleanForTTS sentence))|];
    cbn [fst snd]; rewrite !shown_app, Hi; reflexivity.
Qed.

Lemma loop_shown (before : Z) (increments : list jsstring) : forall l,
  let r := loop (before + 1) (undisturbed before increments) l in
  shown (snd r) = List.map display (accumulate (fullText l) increments)
  /\ imageRequests (snd r)
     = (if imageTriggered l then []
        else firstSubject (accumulate (fullText l) increments)).
Proof.
  induction increments as [|chunk rest IH]; intros l.
  - cbn. destruct (imageTriggered l); auto.
  - cbn zeta. rewrite loop_undisturbed_cons. cbn [fst snd accumulate List.map firstSubject].
    rewrite shown_app, imageRequests_app, iteration_shown.
    destruct (IH (fst (iteration chunk l))) as [-> ->].
    destruct (iteration_spoken chunk l) as (_ & _ & ->).
    destruct (iteration_directives chunk l) as (-> & -> & _).
    split; [reflexivity|].
    destruct (imageTriggered l); [destruct (search _ _); reflexivity|].
    destruct (search imageRegexAt (fullText l ++ chunk)); reflexivity.
Qed.

Lemma accumulate_prefix (increments : list jsstring) : forall acc p,
  p ∈ accumulate acc increments -> exists r, p ++ r = acc ++ concat increments.
Proof.
  induction increments as [|chunk rest IH]; intros acc p H; cbn in H.
  - apply not_elem_of_nil in H. contradiction.
  - apply elem_of_cons in H. destruct H as [->|H].
    + exists (concat rest). cbn. rewrite app_assoc. reflexivity.
    + destruct (IH _ _ H) as [r E]. exists r. rewrite E. cbn.
      rewrite app_assoc. reflexivity.
Qed.

Lemma accumulate_last (increments : list jsstring) : forall acc,
  increments <> [] ->
  last (accumulate acc increments) = Some (acc ++ concat increments).
Proof.
  induction increments as [|chunk rest IH]; intros acc H; [congruence|].
  destruct rest as [|chunk' rest].
  - cbn. rewrite app_nil_r. reflexivity.
  - cbn [accumulate]. cbn [accumulate] in IH.
    rewrite last_cons_cons. rewrite (IH (acc ++ chunk)) by discriminate.
    cbn. rewrite !app_assoc. reflexivity.
Qed.

Lemma correctSeen_last (increments : list jsstring) : forall acc,
  increments <> [] ->
  includes (stripImage (acc ++ concat increments)) CORRECT = true ->
  correctSeen acc increments = true.
Proof.
  induction increments as [|chunk rest IH]; intros acc H Hin; [congruence|].
  cbn [correctSeen]. destruct rest as [|chunk' rest].
  - cbn [concat] in Hin. rewrite app_nil_r in Hin. rewrite Hin. reflexivity.
  - rewrite (IH (acc ++ chunk)); [apply orb_true_r|discriminate|].
    cbn [concat] in Hin |- *. rewrite <- app_assoc. exact Hin.
Qed.

Lemma last_map {A B} (f : A -> B) (l : list A) :
  last (List.map f l) = option_map f (last l).
Proof.
  induction l as [|x [|y l] IH]; [reflexivity|reflexivity|].
  cbn [List.map] in *. rewrite !last_cons_cons. exact IH.
Qed.

(** A match needs a closing bracket. *)
Lemma search_needs_bracket rx (s : jsstring) :
  bracketed rx -> RBRACKET ∉ s -> search rx s = None.
Proof.
  intros B H. destruct (search rx s) as [m|] eqn:E; [|reflexivity].
  destruct (search_Some rx s m B E) as (n & _ & Hn).
  exfalso. apply H. apply (list_elem_of_lookup_2 _ _ _ Hn).
Qed.

Lemma tagBody_trimStart (x : jsstring) : tagBody x -> tagBody (trimStart x).
Proof. apply Forall_trimStart. Qed.

Lemma imageRegexAt_tag (x r : jsstring) :
  tagBody x -> imageRegexAt (tag x ++ r) = Some (length (tag x), trimStart x).
Proof.
  intros Hx. unfold imageRegexAt, tag. rewrite <- !app_assoc.
  rewrite startsWith_app, drop_app_length. cbn [app].
  rewrite trimStart_app_stop by reflexivity.
  rewrite (lazyToBracket_body (trimStart x) r (tagBody_trimStart x Hx)). cbn.
  rewrite take_app_length. f_equal. f_equal.
  destruct (trimStart_suffix x) as (n & E & Hn & _).
  rewrite !length_app. cbn [length]. rewrite E, length_drop. lia.
Qed.

(** The image expression on a text that is cut anywhere: no match before
    the tag is complete, the tag afterwards. *)
Lemma search_prefix_of_tagged (a x rest p r : jsstring) :
  bracketFree a -> tagBody x -> p ++ r = a ++ tag x ++ rest ->
  search imageRegexAt p = None
  \/ exists m, search imageRegexAt p = Some m /\ group1 m = trimStart x
                /\ exists r', p = a ++ tag x ++ r'.
Proof.
  intros Ha Hx E.
  destruct (Nat.le_gt_cases (length (a ++ tag x)) (length p)) as [Hge|Hlt].
  - right. assert (Hp : p = a ++ tag x ++ take (length p - length (a ++ tag x)) rest).
    { rewrite app_assoc. rewrite <- (take_app_length' p r (length p)) at 1 by reflexivity.
      rewrite E, app_assoc. rewrite take_app_ge by lia. reflexivity. }
    rewrite Hp. rewrite (search_skip _ a _ imageRegexAt_open Ha).
    rewrite (search_head _ _ _ _ (imageRegexAt_tag x _ Hx)). cbn.
    eexists. split; [reflexivity|]. split; [reflexivity|]. eexists. reflexivity.
  - left. assert (Hp : p = take (length p) (a ++ tag x)).
    { rewrite <- (take_app_length' p r (length p)) at 1 by reflexivity.
      rewrite E, app_assoc. rewrite take_app_le by lia. reflexivity. }
    rewrite Hp. rewrite take_app.
    rewrite (search_skip _ (take (length p) a) _ imageRegexAt_open
               (Forall_take _ _ _ Ha)).
    rewrite search_needs_bracket; [reflexivity|apply imageRegexAt_bracketed|].
    intros Hin. apply elem_of_take in Hin. destruct Hin as (i & Hi & Hlt').
    rewrite length_app in Hlt.
    unfold tag in Hi. rewrite lookup_app_Some in Hi. destruct Hi as [Hi|[Hge0 Hi]].
    + assert (In RBRACKET IMAGE_OPEN) as Hin
        by (apply list_elem_of_In, (list_elem_of_lookup_2 _ _ _ Hi)).
      cbn in Hin. intuition discriminate.
    + rewrite lookup_app_Some in Hi. destruct Hi as [Hi|[Hge Hi]].
      * unfold tagBody in Hx. rewrite Forall_forall in Hx.
        destruct (Hx _ (list_elem_of_lookup_2 _ _ _ Hi)) as (_ & Hn & _). congruence.
      * unfold tag in Hlt. rewrite !length_app in Hlt. cbn [length] in Hlt.
        change (length IMAGE_OPEN) with 7%nat in *.
        destruct (i - 7 - length x)%nat eqn:D; cbn in Hi; [|discriminate]. lia.
Qed.

(** X6. A turn whose text is one image tag and one correctness marker in
    plain text, cut into increments anywhere, asks for exactly one image,
    of the subject of the tag without its leading white space, ends up
    showing the text without tag and marker, and returns [true]; after
    every increment the message shows the display text of what has been
    received. *)
Theorem directives_are_hidden (before : Z) (increments : list jsstring)
  (a x b c : jsstring) :
  bracketFree a -> bracketFree b -> bracketFree c -> tagBody x ->
  concat increments = a ++ tag x ++ b ++ CORRECT ++ c ->
  let r := processStream before (undisturbed before increments) (before + 1) in
  shown (fst r) = List.map display (accumulate [] increments)
  /\ last (shown (fst r)) = Some (trimStart (a ++ b ++ c))
  /\ imageRequests (fst r) = [trimStart x]
  /\ snd r = true.
Proof.
  intros Ha Hb Hc Hx E r.
  assert (Hne : increments <> []).
  { intros ->. cbn in E. destruct a; discriminate. }
  assert (Hsearch : search imageRegexAt (a ++ tag x ++ b ++ CORRECT ++ c)
                    = Some {| index := length a; extent := length (tag x);
                              group1 := trimStart x |}).
  { rewrite (search_skip _ a _ imageRegexAt_open Ha).
    rewrite (search_head _ _ _ _ (imageRegexAt_tag x _ Hx)).
    cbn [fmap option_fmap option_map]. unfold shift. cbn [index extent group1].
    rewrite Nat.add_0_r. reflexivity. }
  assert (Hstrip : stripImage (a ++ tag x ++ b ++ CORRECT ++ c)
                   = (a ++ b) ++ CORRECT ++ c).
  { unfold stripImage, replaceRegex. rewrite Hsearch. cbn [index extent].
    rewrite cut_middle, app_assoc. reflexivity. }
  assert (Hdisp : display (a ++ tag x ++ b ++ CORRECT ++ c) = trimStart (a ++ b ++ c)).
  { unfold display. rewrite Hstrip. unfold stripCorrect.
    rewrite includes_occurrence. unfold replace.
    rewrite (indexOf_skip (a ++ b) _ (proj2 (Forall_app _ _ _) (conj Ha Hb))).
    rewrite indexOf_head by apply startsWith_app.
    cbn [fmap option_fmap option_map].
    rewrite Nat.add_0_r, cut_middle, <- app_assoc. reflexivity. }
  subst r. unfold processStream.
  destruct (loop_shown before increments fresh) as [Hs Hi].
  pose proof (loop_correct before increments fresh) as Hcor.
  destruct (loop (before + 1) (undisturbed before increments) fresh) as [l e].
  cbn [fst snd fullText imageTriggered isCorrectFound fresh orb] in *.
  assert (Hflush : shown (flush (before + 1) (before + 1) l) = []
                   /\ imageRequests (flush (before + 1) (before + 1) l) = []).
  { unfold flush. destruct (_ && _); auto. }
  destruct Hflush as [Hf1 Hf2].
  rewrite !shown_app, !imageRequests_app, Hf1, Hf2, Hs, Hi. cbn [shown imageRequests omap].
  rewrite !app_nil_r. split; [reflexivity|]. split; [|split].
  - rewrite last_map, accumulate_last by exact Hne.
    cbn [option_map app]. rewrite E, Hdisp. reflexivity.
  - assert (Hall : forall p, p ∈ accumulate [] increments ->
              search imageRegexAt p = None
              \/ exists m, search imageRegexAt p = Some m /\ group1 m = trimStart x).
    { intros p Hp. destruct (accumulate_prefix _ _ _ Hp) as [r' Er]. cbn in Er.
      rewrite E in Er.
      destruct (search_prefix_of_tagged a x _ p r' Ha Hx Er) as [?|(m & ? & ? & _)];
        eauto. }
    assert (Hlast : last (accumulate [] increments)
                    = Some (a ++ tag x ++ b ++ CORRECT ++ c)).
    { rewrite accumulate_last by exact Hne. cbn. rewrite E. reflexivity. }
    revert Hall Hlast. generalize (accumulate [] increments) as accs.
    induction accs as [|p accs IH]; intros Hall Hlast; [discriminate|].
    cbn [firstSubject].
    destruct (Hall p ltac:(left)) as [Hn|(m & Hm & Hg)].
    + rewrite Hn. destruct accs as [|p' accs].
      * rewrite last_singleton in Hlast. apply (inj Some) in Hlast. subst p.
        rewrite Hsearch in Hn. discriminate.
      * apply IH; [|exact Hlast]. intros q Hq. apply Hall. right. exact Hq.
    + rewrite Hm, Hg. reflexivity.
  - rewrite Hcor. apply correctSeen_last; [exact Hne|].
    cbn. rewrite E, Hstrip. apply includes_occurrence.
Qed.

Lemma directives_are_hidden_witness :
  let increments : list jsstring :=
    [ lit "[IMA"; lit "GE: " ++ [0x82F9; 0x679C] ++ lit "]" ++ [0x5728; 0x54EA];
      [0x91CC; 0xFF1F] ++ lit "[CORR"; lit "ECT]" ] in
  let r := processStream 0 (undisturbed 0 increments) 1 in
  last (shown (fst r)) = Some [0x5728; 0x54EA; 0x91CC; 0xFF1F]
  /\ imageRequests (fst r) = [[0x82F9; 0x679C]]
  /\ snd r = true.
Proof.
  intros increments r.
  destruct (directives_are_hidden 0 increments []
              (lit " " ++ [0x82F9; 0x679C]) [0x5728; 0x54EA; 0x91CC; 0xFF1F] [])
    as (_ & H2 & H3 & H4).
  - constructor.
  - repeat constructor; discriminate.
  - constructor.
  - repeat constructor; discriminate.
  - reflexivity.
  - auto.
Defined.

End TurnMore.


(* ===================================================================== *)
(** ** The messages of the chat *)
(* ===================================================================== *)

Section ChatFacts.
Import JsString Turn Chat.

Lemma setText_setText (mid t1 t2 : jsstring) (ms : list Message) :
  setText mid t2 (setText mid t1 ms) = setText mid t2 ms.
Proof.
  unfold setText. rewrite List.map_map. apply List.map_ext. intros m.
  destruct (bool_decide (id m = mid)) eqn:D; cbn [id]; rewrite D; reflexivity.
Qed.

Lemma render_last (mid : jsstring) (es : list Effect) : forall ms,
  render mid es ms = match last (shown es) with
                     | Some t => setText mid t ms
                     | None => ms
                     end.
Proof.
  induction es as [|e es IH] using rev_ind; intros ms; [reflexivity|].
  unfold render in *. rewrite fold_left_app. cbn [fold_left].
  rewrite shown_app, IH.
  assert (Hq : forall e', shown [e'] = [] ->
            last (shown es ++ shown [e']) = last (shown es)).
  { intros e' ->. rewrite app_nil_r. reflexivity. }
  destruct e as [w|t|b|t b|]; try (rewrite Hq by reflexivity; reflexivity).
  change (shown [SetMessageText t]) with [t]. rewrite last_snoc.
  destruct (last (shown es)); [apply setText_setText|reflexivity].
Qed.

(** X7. During and after a turn the chat has the same messages, in the
    same order and with the same ids; a message with another id than the
    turn's is never touched; the turn's message keeps role, timestamp and
    image and, once an increment has arrived, shows the display text of
    everything received. Text and image may arrive in either order. *)
Theorem turn_rewrites_its_message_only (before : Z)
  (increments : list jsstring) (mid : jsstring) (messages : list Message) :
  let es := fst (processStream before (undisturbed before increments) (before + 1)) in
  let after := render mid es messages in
  after = match increments with
          | [] => messages
          | _ => setText mid (display (concat increments)) messages
          end
  /\ List.map id after = List.map id messages
  /\ (forall i m, messages !! i = Some m ->
        after !! i
        = Some (if bool_decide (id m = mid)
                then match increments with
                     | [] => m
                     | _ => {| id := id m; role := role m;
                               text := display (concat increments);
                               timestamp := timestamp m; imageUrl := imageUrl m |}
                     end
                else m))
  /\ (forall seq u t,
        setText mid t (setImage seq seq mid (Some u) messages)
        = setImage seq seq mid (Some u) (setText mid t messages)).
Proof.
  intros es after.
  assert (H1 : after = match increments with
                       | [] => messages
                       | _ => setText mid (display (concat increments)) messages
                       end).
  { subst after es. rewrite render_last. unfold processStream.
    destruct (loop_shown before increments fresh) as [Hs _].
    destruct (loop (before + 1) (undisturbed before increments) fresh) as [l e].
    cbn [fst snd fullText fresh] in *.
    assert (Hf : shown (flush (before + 1) (before + 1) l) = []).
    { unfold flush. destruct (_ && _); reflexivity. }
    rewrite !shown_app, Hf, Hs. cbn [shown omap]. rewrite !app_nil_r, last_map.
    destruct increments as [|c incs]; [reflexivity|].
    rewrite accumulate_last by discriminate. reflexivity. }
  split; [exact H1|]. split; [|split].
  - rewrite H1. destruct increments; [reflexivity|].
    unfold setText. rewrite List.map_map. apply List.map_ext. intros m.
    destruct (bool_decide _); reflexivity.
  - intros i m Hm. rewrite H1. destruct increments as [|c incs].
    + rewrite Hm. destruct (bool_decide _); reflexivity.
    + unfold setText. 
      change (List.map ?f messages) with (f <$> messages).
      rewrite list_lookup_fmap, Hm. cbn. reflexivity.
  - intros seq u t. unfold setImage, setText. rewrite Z.eqb_refl.
    destruct (nonEmpty u); cbn [andb]; [|reflexivity].
    rewrite !List.map_map. apply List.map_ext. intros m.
    destruct (bool_decide (id m = mid)) eqn:D; cbn [id]; rewrite ?D; reflexivity.
Qed.

End ChatFacts.


(* ===================================================================== *)
(** ** The service: order, live sources and [onStart] *)
(* ===================================================================== *)

Section LaneFacts.
Import JsString Decoder Audio.

Lemma moves_refl p : moves p p.
Proof. left. reflexivity. Qed.

Lemma moves_done p : moves p Done.
Proof. right. left. reflexivity. Qed.

Lemma moves_heard p p' :
  moves p p' -> heardNothing p = false -> heardNothing p' = false.
Proof.
  intros [->|[->|M]] H; [exact H|reflexivity|].
  destruct p as [| | |b|b d|], p' as [| | |b'|b' d'|]; cbn in *;
    try contradiction; try congruence; try (subst; assumption).
Qed.

Lemma moves_unheard p p' :
  moves p p' -> heardNothing p' = true -> heardNothing p = true.
Proof.
  intros [->|[->|M]] H; [exact H|discriminate H|].
  destruct p as [| | |b|b d|], p' as [| | |b'|b' d'|]; cbn in *;
    try contradiction; try congruence; try (subst; assumption).
Qed.

Lemma moves_later p p' :
  moves p p' ->
  (p' = AwaitChunk false \/ exists d, p' = AwaitDecode false d) ->
  p = AwaitChunk false \/ exists d, p = AwaitDecode false d.
Proof.
  intros [->|[->|M]] H; [exact H|destruct H as [H|[d H]]; discriminate H|].
  destruct H as [->|[d ->]].
  - destruct p as [| | |b|b d|]; cbn in M; contradiction.
  - destruct p as [| | |b|b d0|]; cbn in M; try contradiction. subst b. auto.
Qed.

Lemma quiet_refl sys : quiet sys sys.
Proof.
  split.
  - reflexivity.
  - reflexivity.
  - lia.
  - left. split; [reflexivity|set_solver].
  - intros t k H. exists k. split; [exact H|]. split; [reflexivity|apply moves_refl].
  - intros t k' H Hge. apply lookup_lt_Some in H. lia.
Qed.

(** A step that only changes the place of one task, the context or the
    cursor. *)
Lemma quiet_set_pc sys sys0 (t0 : nat) k0 p :
  tasks sys !! t0 = Some k0 -> moves (pc k0) p ->
  tasks sys0 = tasks sys -> sink sys0 = sink sys ->
  speakingStarts sys0 = speakingStarts sys ->
  latestTTSId (svc sys0) = latestTTSId (svc sys) ->
  activeSources (svc sys0) = activeSources (svc sys) ->
  quiet sys (set_pc sys0 t0 p).
Proof.
  intros Hk M Ht Hs Hst HL Ha. split; cbn.
  - exact Hs.
  - exact Hst.
  - rewrite HL. lia.
  - left. split; [exact HL|]. rewrite Ha. set_solver.
  - intros t k H. rewrite <- Ht in H.
    destruct (set_pc_lookup sys0 t0 p t k H) as (k' & H' & Hst' & Hpc).
    exists k'. split; [exact H'|]. split; [exact Hst'|]. rewrite Hpc.
    destruct (decide (t = t0)) as [->|_]; [|apply moves_refl].
    rewrite Ht, Hk in H. injection H as <-. exact M.
  - intros t k' H Hge. apply lookup_lt_Some in H.
    rewrite length_alter, Ht in H. lia.
Qed.

Lemma quiet_afterResume sys sys0 (t0 : nat) k0 c :
  tasks sys !! t0 = Some k0 -> moves (pc k0) AwaitResponse ->
  tasks sys0 = tasks sys -> sink sys0 = sink sys ->
  speakingStarts sys0 = speakingStarts sys ->
  latestTTSId (svc sys0) = latestTTSId (svc sys) ->
  activeSources (svc sys0) = activeSources (svc sys) ->
  quiet sys (afterResume t0 k0 c sys0).
Proof.
  intros Hk M Ht Hs Hst HL Ha. unfold afterResume.
  apply (quiet_set_pc sys _ t0 k0 AwaitResponse Hk M); cbn; try assumption;
    destruct (_ || _); assumption.
Qed.

Lemma quiet_frame sys sys' :
  tasks sys' = tasks sys -> sink sys' = sink sys ->
  speakingStarts sys' = speakingStarts sys ->
  latestTTSId (svc sys) <= latestTTSId (svc sys') ->
  ((latestTTSId (svc sys') = latestTTSId (svc sys)
    /\ activeSources (svc sys') ⊆ activeSources (svc sys))
   \/ activeSources (svc sys') = ∅) ->
  quiet sys sys'.
Proof.
  intros Ht Hs Hst HL Ha. split; try assumption.
  - intros t k H. exists k. rewrite Ht.
    split; [exact H|]. split; [reflexivity|apply moves_refl].
  - intros t k' H Hge. rewrite Ht in H. apply lookup_lt_Some in H. lia.
Qed.

Lemma static_fields k k' :
  static k' = static k -> myId k' = myId k /\ onStart k' = onStart k.
Proof. unfold static. intros H. injection H as E1 E2 E3 E4 E5. auto. Qed.

Lemma resumeOne_quiet c sys (t : nat) : quiet sys (resumeOne c sys t).
Proof.
  unfold resumeOne. destruct (tasks sys !! t) as [k|] eqn:Hk; [|apply quiet_refl].
  destruct (pc k) eqn:Hpc; try apply quiet_refl.
  apply (quiet_afterResume sys sys t k c Hk); try reflexivity.
  rewrite Hpc. right. right. exact Logic.I.
Qed.

(** A quiet step keeps what is known of the units. *)
Lemma Heard_quiet sys sys' : quiet sys sys' -> Heard sys -> Heard sys'.
Proof.
  intros [Qs Qst QL Qa Qk Qn] [H1 H2 H3 H4 H5 H6 H7 H8 H9].
  assert (Back : forall t k', tasks sys' !! t = Some k' ->
            (t < length (tasks sys))%nat ->
            exists k, tasks sys !! t = Some k /\ static k' = static k
                      /\ moves (pc k) (pc k')).
  { intros t k' H' Hlt. destruct (lookup_lt_is_Some_2 _ _ Hlt) as [k Hk].
    destruct (Qk t k Hk) as (k'' & H'' & S & M).
    assert (E : k'' = k') by congruence. subst k''. eauto. }
  split.
  - rewrite Qs. exact H1.
  - rewrite Qs. intros u Hu. destruct (H2 u Hu) as (k & Hk & Hid & Hh).
    destruct (Qk _ k Hk) as (k' & Hk' & S & M). exists k'.
    split; [exact Hk'|]. split.
    + destruct (static_fields _ _ S) as [-> _]. exact Hid.
    + apply (moves_heard _ _ M Hh).
  - rewrite Qs. exact H3.
  - intros src Hsrc. rewrite Qs. destruct Qa as [[E Sub]|E].
    + rewrite E. apply H4. apply (Sub src Hsrc).
    + rewrite E in Hsrc. set_solver.
  - intros t k' Hk' Hh. rewrite Qs, Qst.
    destruct (decide (t < length (tasks sys))%nat) as [Hlt|Hge].
    + destruct (Back t k' Hk' Hlt) as (k & Hk & S & M).
      apply (H5 t k Hk). apply (moves_unheard _ _ M Hh).
    + split.
      * intros u Hu Et. destruct (H2 u Hu) as (k & Hk & _).
        apply lookup_lt_Some in Hk. lia.
      * intros Hin. destruct (H7 t Hin) as (_ & k & Hk & _).
        apply lookup_lt_Some in Hk. lia.
  - rewrite Qst. exact H6.
  - rewrite Qst, Qs. intros t Hin. destruct (H7 t Hin) as (Hu & k & Hk & Ho).
    split; [exact Hu|].
    destruct (Qk t k Hk) as (k' & Hk' & S & _). exists k'.
    split; [exact Hk'|]. destruct (static_fields _ _ S) as [_ ->]. exact Ho.
  - rewrite Qs, Qst. intros u k' Hu Hk' Ho. destruct (H2 u Hu) as (k & Hk & _).
    destruct (Qk _ k Hk) as (k'' & Hk'' & S & _).
    rewrite Hk' in Hk''. injection Hk'' as <-.
    apply (H8 u k Hu Hk). destruct (static_fields _ _ S) as [_ <-]. exact Ho.
  - rewrite Qs. intros t k' Hk' Hp.
    destruct (decide (t < length (tasks sys))%nat) as [Hlt|Hge].
    + destruct (Back t k' Hk' Hlt) as (k & Hk & S & M).
      apply (H9 t k Hk). apply (moves_later _ _ M Hp).
    + assert (Hq : pc k' = Queued) by (apply (Qn t k' Hk'); lia).
      rewrite Hq in Hp. destruct Hp as [Hp|[d Hp]]; discriminate Hp.
Qed.

Lemma Heard_resumeEach c ws : forall sys,
  Heard sys -> Heard (resumeEach c ws sys).
Proof.
  induction ws as [|t ws IH]; intros sys H; [exact H|].
  rewrite resumeEach_cons. apply IH.
  apply (Heard_quiet sys); [apply resumeOne_quiet|exact H].
Qed.

(** The step that starts a unit. *)
Lemma Heard_emit sys (t : nat) k b d u s' :
  Inv sys -> Heard sys ->
  tasks sys !! t = Some k -> pc k = AwaitDecode b d ->
  myId k = latestTTSId (svc sys) ->
  source u = length (sink sys) -> task u = t -> owner u = myId k ->
  latestTTSId s' = latestTTSId (svc sys) ->
  activeSources s' = activeSources (svc sys) ∪ {[ length (sink sys) ]} ->
  Heard {| svc := s';
           autoplayBlocked := autoplayBlocked sys;
           tasks := alter (fun k => at_pc k (AwaitChunk false)) t (tasks sys);
           sink := sink sys ++ [u];
           speakingStarts :=
             if b && onStart k
             then speakingStarts sys ++ [t] else speakingStarts sys |}.
Proof.
  intros I [H1 H2 H3 H4 H5 H6 H7 H8 H9] Hk Hpc Hid Hsrc Htask Hown HL Ha.
  assert (Hsub : forall x, x ∈ speakingStarts sys ->
            x ∈ (if b && onStart k
                 then speakingStarts sys ++ [t] else speakingStarts sys)).
  { intros x Hx. destruct (b && onStart k); [|exact Hx].
    apply elem_of_app. left. exact Hx. }
  assert (Hnew : alter (fun k => at_pc k (AwaitChunk false)) t (tasks sys) !! t
                 = Some (at_pc k (AwaitChunk false))).
  { rewrite list_lookup_alter_eq, Hk. reflexivity. }
  split; cbn.
  - (* sources *)
    intros i x Hi. apply lookup_app_Some in Hi as [Hi|[Hge Hi]].
    + apply H1, Hi.
    + apply list_lookup_singleton_Some in Hi as [Hz <-]. rewrite Hsrc. lia.
  - (* tasks of the units *)
    intros x Hx. apply elem_of_app in Hx as [Hx|Hx].
    + destruct (H2 x Hx) as (k0 & Hk0 & Hid0 & Hh0).
      destruct (alter_pc_lookup (tasks sys) t (AwaitChunk false) _ k0 Hk0)
        as (k' & Hk' & S & [[_ Hp]|[_ ->]]).
      * exists k'. split; [exact Hk'|]. split.
        -- destruct (static_fields _ _ S) as [-> _]. exact Hid0.
        -- rewrite Hp. reflexivity.
      * exists k0. auto.
    + apply list_elem_of_singleton in Hx as ->. rewrite Htask.
      exists (at_pc k (AwaitChunk false)). split; [exact Hnew|].
      split; [symmetry; exact Hown|reflexivity].
  - (* order *)
    intros i j x y Hij Hi Hj.
    apply lookup_app_Some in Hj as [Hj|[Hge Hj]].
    + assert (Hi' : sink sys !! i = Some x).
      { apply lookup_lt_Some in Hj. rewrite lookup_app_l in Hi by lia. exact Hi. }
      apply (H3 i j x y Hij Hi' Hj).
    + apply list_lookup_singleton_Some in Hj as [Hz <-].
      assert (Hi' : sink sys !! i = Some x).
      { rewrite lookup_app_l in Hi by lia. exact Hi. }
      assert (Hx : x ∈ sink sys) by (eapply list_elem_of_lookup_2; exact Hi').
      pose proof (inv_owners _ _ _ _ _ _ I x Hx) as Hle.
      rewrite Hown, Hid. split; [exact Hle|]. intros E.
      destruct (H2 x Hx) as (k0 & Hk0 & Hid0 & Hh0).
      rewrite Htask.
      destruct (decide (task x <= t)%nat) as [Hok|Hbad]; [exact Hok|].
      exfalso.
      assert (Hd : pc k = Done).
      { apply (inv_order _ _ _ _ _ _ I (task x) k0 t k Hk0); try assumption.
        - congruence.
        - intros Hq. rewrite Hq in Hh0. discriminate Hh0.
        - lia. }
      rewrite Hpc in Hd. discriminate Hd.
  - (* live sources *)
    intros src Hin. rewrite Ha in Hin. rewrite HL.
    apply elem_of_union in Hin as [Hin|Hin].
    + destruct (H4 src Hin) as (x & Hx & Ho). exists x.
      split; [|exact Ho]. apply lookup_app_l_Some, Hx.
    + apply elem_of_singleton in Hin as ->. exists u. split; [|congruence].
      rewrite lookup_app_r by lia. rewrite Nat.sub_diag. reflexivity.
  - (* tasks before their first unit *)
    intros x k' Hk' Hh.
    destruct (alter_pc_inv (tasks sys) t (AwaitChunk false) x k' Hk')
      as (k0 & Hk0 & S & [[_ Hp]|[Hne ->]]).
    { rewrite Hp in Hh. discriminate Hh. }
    destruct (H5 x k0 Hk0 Hh) as [Hno Hnot]. split.
    + intros y Hy. apply elem_of_app in Hy as [Hy|Hy]; [apply Hno, Hy|].
      apply list_elem_of_singleton in Hy as ->. congruence.
    + destruct (b && onStart k); [|exact Hnot].
      intros Hin. apply elem_of_app in Hin as [Hin|Hin]; [exact (Hnot Hin)|].
      apply list_elem_of_singleton in Hin. congruence.
  - (* once *)
    destruct (b && onStart k) eqn:Hb; [|exact H6].
    apply andb_true_iff in Hb as [-> _].
    apply NoDup_app. split; [exact H6|]. split; [|apply NoDup_singleton].
    intros x Hx Hx'. apply list_elem_of_singleton in Hx' as ->.
    assert (Hh : heardNothing (pc k) = true) by (rewrite Hpc; reflexivity).
    destruct (H5 t k Hk Hh) as [_ Hnot]. exact (Hnot Hx).
  - (* who called [onStart] *)
    intros x Hx.
    assert (Hcase : x ∈ speakingStarts sys \/ (x = t /\ onStart k = true)).
    { destruct (b && onStart k) eqn:Hb; [|left; exact Hx].
      apply elem_of_app in Hx as [Hx|Hx]; [left; exact Hx|].
      apply list_elem_of_singleton in Hx as ->.
      apply andb_true_iff in Hb as [_ Hb]. right. auto. }
    destruct Hcase as [Hold|[-> Ho]].
    + destruct (H7 x Hold) as ((y & Hy & Ey) & k0 & Hk0 & Ho). split.
      * exists y. split; [apply elem_of_app; left; exact Hy|exact Ey].
      * destruct (alter_pc_lookup (tasks sys) t (AwaitChunk false) _ k0 Hk0)
          as (k' & Hk' & S & _).
        exists k'. split; [exact Hk'|].
        destruct (static_fields _ _ S) as [_ ->]. exact Ho.
    + split.
      * exists u. split; [apply elem_of_app; right; apply list_elem_of_singleton; reflexivity|exact Htask].
      * exists (at_pc k (AwaitChunk false)). split; [exact Hnew|exact Ho].
  - (* every unit of a task with a callback was announced *)
    intros y k' Hy Hk' Ho.
    destruct (alter_pc_inv (tasks sys) t (AwaitChunk false) _ k' Hk')
      as (k0 & Hk0 & S & _).
    destruct (static_fields _ _ S) as [_ Eo]. rewrite Eo in Ho.
    apply elem_of_app in Hy as [Hy|Hy].
    + apply Hsub. apply (H8 y k0 Hy Hk0 Ho).
    + apply list_elem_of_singleton in Hy as ->. rewrite Htask in *.
      rewrite Hk in Hk0. injection Hk0 as <-.
      destruct b; cbn [andb].
      * rewrite Ho. apply elem_of_app. right. apply list_elem_of_singleton. reflexivity.
      * assert (Hl : exists x, x ∈ sink sys /\ task x = t).
        { apply (H9 t k Hk). right. exists d. exact Hpc. }
        destruct Hl as (x & Hx & Ex). rewrite <- Ex.
        apply (H8 x k Hx); [rewrite Ex; exact Hk|exact Ho].
  - (* tasks after their first unit *)
    intros x k' Hk' Hp.
    destruct (alter_pc_inv (tasks sys) t (AwaitChunk false) x k' Hk')
      as (k0 & Hk0 & S & [[-> _]|[Hne ->]]).
    + exists u. split; [apply elem_of_app; right; apply list_elem_of_singleton; reflexivity|exact Htask].
    + destruct (H9 x k0 Hk0 Hp) as (y & Hy & Ey). exists y.
      split; [apply elem_of_app; left; exact Hy|exact Ey].
Qed.

Lemma initial_Heard hasKey blocked : Heard (initial hasKey blocked).
Proof.
  split; cbn.
  - intros i u H. rewrite lookup_nil in H. discriminate H.
  - intros u H. apply not_elem_of_nil in H. contradiction.
  - intros i j u v _ H. rewrite lookup_nil in H. discriminate H.
  - intros src H. set_solver.
  - intros t k H. rewrite lookup_nil in H. discriminate H.
  - apply NoDup_nil_2.
  - intros t H. apply not_elem_of_nil in H. contradiction.
  - intros u k H. apply not_elem_of_nil in H. contradiction.
  - intros t k H. rewrite lookup_nil in H. discriminate H.
Qed.

(** Every step of the service keeps what is known of the units. *)
Lemma step_Heard sys e : Inv sys -> Heard sys -> Heard (step sys e).
Proof.
  intros I H. destruct e as [dt|src| | |txt cb intr|t i]; cbn [step].
  - apply (Heard_quiet sys); [|exact H].
    unfold tick. destruct (audioContext (svc sys)) as [c|]; [|apply quiet_refl].
    destruct (Qle_bool 0 dt); [|apply quiet_refl].
    apply quiet_frame; cbn; try reflexivity; try lia.
    left. split; [reflexivity|set_solver].
  - apply (Heard_quiet sys); [|exact H].
    unfold ended. apply quiet_frame; cbn; try reflexivity; try lia.
    left. split; [reflexivity|]. intros x Hx. apply elem_of_difference in Hx as [Hx _]. exact Hx.
  - unfold resumeAll. destruct (audioContext (svc sys)) as [c|]; [|exact H].
    destruct (suspended c); [|exact H].
    apply Heard_resumeEach. apply (Heard_quiet sys); [|exact H].
    apply quiet_frame; cbn; try reflexivity; try lia.
    left. split; [reflexivity|set_solver].
  - apply (Heard_quiet sys); [|exact H].
    apply quiet_frame; cbn; try reflexivity; try lia. right. reflexivity.
  - apply (Heard_quiet sys); [|exact H].
    unfold playTTS.
    set (s1 := if intr then stopAudio (svc sys) else svc sys).
    set (s2 := if ai s1 then s1 else initializeGemini s1).
    assert (E1 : latestTTSId (svc sys) <= latestTTSId s1
                 /\ ((latestTTSId s1 = latestTTSId (svc sys)
                      /\ activeSources s1 ⊆ activeSources (svc sys))
                     \/ activeSources s1 = ∅)).
    { subst s1. destruct intr; cbn.
      - split; [lia|]. right. reflexivity.
      - split; [lia|]. left. split; [reflexivity|set_solver]. }
    assert (E2 : latestTTSId s2 = latestTTSId s1
                 /\ activeSources s2 = activeSources s1).
    { subst s2. destruct (ai s1); [auto|]. unfold initializeGemini.
      destruct (currentApiKey s1); auto. }
    destruct E1 as [E1 E1'], E2 as [E2 E2'].
    destruct (ai s2).
    + split; cbn; try reflexivity.
      * rewrite E2. exact E1.
      * rewrite E2, E2'. exact E1'.
      * intros t k Hk. exists k. split; [apply lookup_app_l_Some, Hk|].
        split; [reflexivity|apply moves_refl].
      * intros t k' Hk' Hge. apply lookup_app_Some in Hk' as [Hk'|[_ Hk']].
        -- apply lookup_lt_Some in Hk'. lia.
        -- apply list_lookup_singleton_Some in Hk' as [_ <-]. reflexivity.
    + apply quiet_frame; cbn; try reflexivity.
      * rewrite E2. exact E1.
      * rewrite E2, E2'. exact E1'.
  - unfold resume. destruct (tasks sys !! t) as [k|] eqn:Hk; [|exact H].
    assert (Q : forall p, moves (pc k) p -> Heard (set_pc sys t p)).
    { intros p M. apply (Heard_quiet sys); [|exact H].
      apply (quiet_set_pc sys sys t k p Hk M); reflexivity. }
    destruct (pc k) as [| | |b|b [buf|]|] eqn:Hpc, i as [| ch | |]; try exact H;
      try (apply Q; apply moves_done).
    + destruct (settled sys (waitsOn k)); [|exact H].
      unfold begin. destruct (negb _); [apply Q, moves_done|].
      destruct (suspended _).
      * apply (Heard_quiet sys); [|exact H].
        apply (quiet_set_pc sys _ t k AwaitResume Hk); try reflexivity.
        rewrite Hpc. right. right. exact Logic.I.
      * apply (Heard_quiet sys); [|exact H].
        apply (quiet_afterResume sys _ t k _ Hk); try reflexivity.
        rewrite Hpc. right. right. exact Logic.I.
    + apply Q. right. right. exact Logic.I.
    + unfold onChunk. destruct (negb _); [apply Q, moves_done|].
      destruct ch; apply Q; [apply moves_refl|]. right. right. reflexivity.
    + unfold onDecoded.
      destruct (myId k =? latestTTSId (svc sys)) eqn:Hid; cbn [negb];
        [|apply Q, moves_done].
      apply Z.eqb_eq in Hid.
      destruct (audioContext (svc sys)) as [c|]; [|apply Q, moves_done].
      apply (Heard_emit sys t k b (Some buf)); auto.
Qed.

Lemma run_Heard es : forall sys, Inv sys -> Heard sys -> Heard (run sys es).
Proof.
  induction es as [|e es IH]; intros sys I H; [exact H|].
  cbn. apply IH; [apply step_Inv, I|apply step_Heard; assumption].
Qed.

Lemma reachable_Heard hasKey blocked es :
  Heard (run (initial hasKey blocked) es).
Proof. apply run_Heard; [apply initial_Inv|apply initial_Heard]. Qed.

(** X8. In every history of the service the sink is ordered by request:
    the ids of the units never decrease and, within one id, the units of
    an earlier [playTTS] call come before those of a later one, whatever
    the order in which the responses arrive. The source of a unit is
    numbered by its place in the sink, and the request of a unit exists
    and has the id of the unit. *)
Theorem units_follow_request_order (hasKey blocked : bool) (es : list Event) :
  let sys := run (initial hasKey blocked) es in
  ordered (sink sys)
  /\ Forall (fun u => sink sys !! source u = Some u
                      /\ exists k, tasks sys !! task u = Some k
                                   /\ myId k = owner u) (sink sys).
Proof.
  intros sys. destruct (reachable_Heard hasKey blocked es)
    as [H1 H2 H3 _ _ _ _ _ _]. fold sys in H1, H2, H3.
  split; [exact H3|]. apply Forall_forall. intros u Hu. split.
  - apply list_elem_of_lookup_1 in Hu as [i Hi].
    rewrite (H1 i u Hi). exact Hi.
  - destruct (H2 u Hu) as (k & Hk & Hid & _). eauto.
Qed.

(** Two requests of one turn whose responses arrive in the opposite
    order: the units of the first request come first. *)
Example answers_out_of_order :
  let pcm := [x00; x80; xff; x7f]%byte in
  let es :=
    [PlayTTS (lit "a.") true true; PlayTTS (lit "b.") true false;
     Resume 1 Fulfilled; Resume 1 Fulfilled; Resume 1 (Next (Inline pcm));
     Resume 0 Fulfilled; Resume 0 Fulfilled; Resume 1 Fulfilled;
     Resume 0 (Next (Inline pcm)); Resume 0 Fulfilled; Resume 0 Exhausted;
     Resume 1 Fulfilled; Resume 1 Fulfilled; Resume 1 (Next (Inline pcm));
     Resume 1 Fulfilled] in
  List.map (fun u => (source u, task u, owner u))
           (sink (run (initial true false) es))
  = [(0%nat, 0%nat, 1); (1%nat, 1%nat, 1)]
  /\ speakingStarts (run (initial true false) es) = [0%nat; 1%nat].
Proof. vm_compute. auto. Qed.

(** X9. In every history [onStart] is called at most once for a request,
    and it has been called for exactly the requests that were given a
    callback and have started a unit. *)
Theorem onStart_called_once (hasKey blocked : bool) (es : list Event) :
  let sys := run (initial hasKey blocked) es in
  NoDup (speakingStarts sys)
  /\ forall t : nat,
       t ∈ speakingStarts sys
       <-> (exists k, tasks sys !! t = Some k /\ onStart k = true)
           /\ exists u, u ∈ sink sys /\ task u = t.
Proof.
  intros sys. destruct (reachable_Heard hasKey blocked es)
    as [_ _ _ _ _ H6 H7 H8 _]. fold sys in H6, H7, H8.
  split; [exact H6|]. intros t. split.
  - intros Hin. destruct (H7 t Hin) as [Hu Hk]. auto.
  - intros [(k & Hk & Ho) (u & Hu & <-)]. apply (H8 u k Hu Hk Ho).
Qed.

(** X10. In every history a source in [activeSources] was started by a
    request of the latest id: it is a unit of the sink whose id is
    [latestTTSId]. *)
Theorem live_sources_are_latest (hasKey blocked : bool) (es : list Event)
  (src : nat) :
  let sys := run (initial hasKey blocked) es in
  src ∈ activeSources (svc sys) ->
  exists u, sink sys !! src = Some u /\ source u = src
            /\ owner u = latestTTSId (svc sys).
Proof.
  intros sys Hin. destruct (reachable_Heard hasKey blocked es)
    as [H1 _ _ H4 _ _ _ _ _]. fold sys in H1, H4.
  destruct (H4 src Hin) as (u & Hu & Ho). exists u.
  split; [exact Hu|]. split; [apply (H1 src u Hu)|exact Ho].
Qed.

Lemma live_sources_are_latest_witness :
  let sys := run (initial true false)
               [PlayTTS (lit "Hi.") true true; Resume 0 Fulfilled;
                Resume 0 Fulfilled; Resume 0 (Next (Inline twoSamples));
                Resume 0 Fulfilled] in
  exists u, sink sys !! 0%nat = Some u /\ source u = 0%nat
            /\ owner u = latestTTSId (svc sys).
Proof.
  intros sys. apply (live_sources_are_latest true false).
  apply (bool_decide_unpack _). vm_compute. exact Logic.I.
Defined.

(** The units of the latest id end at or before the cursor. *)
Lemma cursor_covers (sk : list Unit) (L : Z) (cur : Q) :
  contiguous sk -> ordered sk -> (forall u, u ∈ sk -> owner u <= L) ->
  Forall (fun u => (start u <= finish u)%Q) sk ->
  (forall u, last sk = Some u -> owner u = L -> (finish u <= cur)%Q) ->
  forall (n i : nat) u, sk !! i = Some u -> (i + S n = length sk)%nat ->
    owner u = L -> (finish u <= cur)%Q.
Proof.
  intros C O B P Hl. induction n as [|n IH]; intros i u Hu Hlen Ho.
  - apply Hl; [|exact Ho]. rewrite last_lookup.
    replace (pred (length sk)) with i by lia. exact Hu.
  - destruct (lookup_lt_is_Some_2 sk (S i)) as [v Hv]; [lia|].
    destruct (O i (S i) u v) as [Hle _]; [lia|exact Hu|exact Hv|].
    assert (Hv' : v ∈ sk) by (eapply list_elem_of_lookup_2; exact Hv).
    pose proof (B v Hv') as Hb.
    assert (Ho' : owner v = L) by lia.
    assert (E : (finish v <= cur)%Q) by (apply (IH (S i) v Hv); [lia|exact Ho']).
    assert (Cuv : (finish u <= start v)%Q)
      by (apply (C i u v Hu Hv); congruence).
    rewrite Forall_forall in P.
    assert (Pv : (start v <= finish v)%Q) by (apply (P v Hv')).
    lra.
Qed.

(** X11. In every history every unit of the latest id ends, in the
    arithmetic of the code, at or before [getAudioEndTime()], and its exact
    end is later than that by at most the 2^-53th part of itself; so the
    timer that switches speaking off is set for at least what the formula
    of the code gives for the end of each of these units, and for at least
    200 ms. *)
Theorem timer_outlasts_audio (hasKey blocked : bool) (es : list Event)
  (seq : Z) (speaking : bool) (pending : list App.Timer) (u : Unit) :
  let sys := run (initial hasKey blocked) es in
  let w := {| App.audio := sys; App.streamSequenceId := seq;
              App.isSpeaking := speaking; App.timers := pending |} in
  u ∈ sink sys -> owner u = latestTTSId (svc sys) ->
  (finish u <= getAudioEndTime (svc sys))%Q
  /\ (start u + lasts u - getAudioEndTime (svc sys)
      <= (start u + lasts u) * Double.pow2 (-53))%Q
  /\ exists tm, App.timers (App.whenAllScheduled seq w) = pending ++ [tm]
       /\ (Double.round
             (Qmax 0 (Double.round
                        (Double.round (finish u - getCurrentTime (svc sys)) * 1000))
              + 200)
           <= App.delay tm)%Q
       /\ (200 <= App.delay tm)%Q.
Proof.
  intros sys w Hu Ho.
  pose proof (run_Inv es _ (initial_Inv hasKey blocked)) as Iv. fold sys in Iv.
  pose proof (run_audible es _ (initial_audible hasKey blocked)) as [_ A].
  fold sys in A.
  pose proof (run_Timed es _ (initial_audible hasKey blocked)
                (initial_Timed hasKey blocked)) as [_ _ T].
  fold sys in T.
  destruct (reachable_Heard hasKey blocked es) as [_ _ H3 _ _ _ _ _ _].
  fold sys in H3.
  pose proof (pow2_pos (-15)) as P15.
  rewrite Forall_forall in A, T.
  assert (Hgrow : Forall (fun v => (start v <= finish v)%Q) (sink sys)).
  { apply Forall_forall. intros v Hv.
    pose proof (A v Hv) as Lv. cbv beta in Lv.
    destruct (T v Hv) as [[Fv _] _].
    unfold finish. apply round_add_ge; [exact Fv|lra]. }
  assert (Hend : (finish u <= getAudioEndTime (svc sys))%Q).
  { assert (Hr : running (svc sys) = true).
    { destruct (running (svc sys)) eqn:Hr; [reflexivity|].
      destruct (inv_parked _ _ _ _ _ _ Iv Hr) as [Hnil _].
      rewrite Hnil in Hu. apply not_elem_of_nil in Hu. contradiction. }
    unfold getAudioEndTime. unfold running in Hr.
    destruct (audioContext (svc sys)); [|discriminate Hr].
    pose proof Hu as Hu'.
    apply list_elem_of_lookup_1 in Hu' as [i Hi].
    pose proof (lookup_lt_Some _ _ _ Hi) as Hlt.
    apply (cursor_covers (sink sys) (latestTTSId (svc sys)) _
             (inv_contiguous _ _ _ _ _ _ Iv) H3 (inv_owners _ _ _ _ _ _ Iv) Hgrow
             (inv_cursor _ _ _ _ _ _ Iv) (length (sink sys) - S i) i u Hi);
      [lia|exact Ho]. }
  split; [exact Hend|].
  split.
  { pose proof (A u Hu) as Lu. cbv beta in Lu.
    destruct (T u Hu) as [[_ Pu] _].
    assert (N : (Double.pow2 (-1022) <= start u + lasts u)%Q).
    { assert (Double.pow2 (-1022) <= Double.pow2 (-15))%Q by (apply pow2_le; lia). lra. }
    destruct (round_error _ N) as [E _]. unfold finish in Hend. lra. }
  unfold App.whenAllScheduled. subst w. cbn [App.streamSequenceId].
  rewrite Z.eqb_refl. cbn [negb App.timers App.audio].
  eexists. split; [reflexivity|]. cbn [App.delay]. split.
  - apply round_mono. apply Qplus_le_l. apply Q.max_le_compat_l.
    apply round_mono. apply Qmult_le_compat_r; [|lra].
    apply round_mono. lra.
  - rewrite <- round_200 at 1. apply round_mono.
    match goal with |- (200 <= Qmax 0 ?x + 200)%Q =>
      pose proof (Q.le_max_l 0 x) end.
    lra.
Qed.

Lemma timer_outlasts_audio_witness :
  let sys := run (initial true false)
               [PlayTTS (lit "Hi.") true true; Resume 0 Fulfilled;
                Resume 0 Fulfilled; Resume 0 (Next (Inline twoSamples));
                Resume 0 Fulfilled; Tick (1 # 100000)] in
  let u := {| source := 0; task := 0; owner := 1; start := 0;
              lasts := Double.round (2 # 24000) |} in
  (finish u <= getAudioEndTime (svc sys))%Q.
Proof.
  intros sys u.
  refine (proj1 (timer_outlasts_audio true false _ 1 true [] u _ _)).
  - vm_compute. apply list_elem_of_here.
  - vm_compute. reflexivity.
Defined.

(** X12. As long as no API key is set, no history of calls creates a
    request, a context or a unit: [playTTS] returns before it sends
    anything. *)
Theorem no_key_no_speech (blocked : bool) (es : list Event) :
  let sys := run (initial false blocked) es in
  tasks sys = [] /\ sink sys = [] /\ speakingStarts sys = []
  /\ audioContext (svc sys) = None /\ ai (svc sys) = false
  /\ getAudioEndTime (svc sys) = 0%Q.
Proof.
  intros sys.
  assert (G : forall es0 s, tasks s = [] /\ sink s = [] /\ speakingStarts s = []
                /\ audioContext (svc s) = None /\ ai (svc s) = false
                /\ currentApiKey (svc s) = false ->
              tasks (run s es0) = [] /\ sink (run s es0) = []
              /\ speakingStarts (run s es0) = []
              /\ audioContext (svc (run s es0)) = None
              /\ ai (svc (run s es0)) = false).
  { induction es0 as [|e es0 IH]; intros s (Ht & Hs & Hst & Hc & Ha & Hk);
      [cbn; auto|].
    cbn [run fold_left]. apply IH.
    destruct e as [dt|src| | |txt cb intr|t i]; cbn [step].
    - unfold tick. rewrite Hc. auto 6.
    - cbn. auto 6.
    - unfold resumeAll. rewrite Hc. auto 6.
    - cbn. auto 6.
    - unfold playTTS.
      assert (E : ai (if intr then stopAudio (svc s) else svc s) = false
                  /\ currentApiKey (if intr then stopAudio (svc s) else svc s) = false
                  /\ audioContext (if intr then stopAudio (svc s) else svc s) = None).
      { destruct intr; cbn; auto. }
      destruct E as (E1 & E2 & E3). rewrite E1. unfold initializeGemini.
      rewrite E2, E1. cbn. auto 6.
    - unfold resume. rewrite Ht, lookup_nil. auto 6. }
  destruct (G es (initial false blocked)) as (Ht & Hs & Hst & Hc & Ha);
    [cbn; auto 6|].
  fold sys in Ht, Hs, Hst, Hc, Ha.
  repeat (split; [assumption|]). unfold getAudioEndTime. rewrite Hc. reflexivity.
Qed.

End LaneFacts.


(* ===================================================================== *)
(** ** What [stopAudio] silences *)
(* ===================================================================== *)

Section Silence.
Import JsString Decoder Audio.

Lemma step_Since n L sk st s e :
  Since n L sk st s -> Since n L sk st (step s e).
Proof.
  intros [HL Hold (later & Hs & Hl) (calls & Hc & Hcl)].
  assert (Hold' : forall t : nat, (t < n)%nat ->
            exists k, tasks (step s e) !! t = Some k /\ myId k <= L).
  { intros t Ht. destruct (Hold t Ht) as (k & Hk & Hid).
    destruct (step_lookup s e t k Hk) as (k' & Hk' & S).
    exists k'. split; [exact Hk'|].
    destruct (static_fields _ _ S) as [-> _]. exact Hid. }
  pose proof (step_latest_mono s e) as Hm.
  destruct (step_emits s e) as [[Es Ec]|(t & k & u & Hk & Hid & Ht & Ho & Es & Ec)].
  - split; [lia|exact Hold'| |].
    + exists later. rewrite Es. auto.
    + exists calls. rewrite Ec. auto.
  - assert (Hn : (n <= t)%nat).
    { destruct (decide (n <= t)%nat) as [Hn|Hn]; [exact Hn|].
      destruct (Hold t) as (k0 & Hk0 & Hid0); [lia|].
      assert (k0 = k) by congruence. subst k0. lia. }
    split; [lia|exact Hold'| |].
    + exists (later ++ [u]). rewrite Es, Hs, app_assoc. split; [reflexivity|].
      apply Forall_app. split; [exact Hl|]. apply Forall_singleton.
      split; [rewrite Ht; exact Hn|rewrite Ho, Hid; exact HL].
    + destruct Ec as [Ec|Ec].
      * exists calls. rewrite Ec. auto.
      * exists (calls ++ [t]). rewrite Ec, Hc, app_assoc. split; [reflexivity|].
        apply Forall_app. split; [exact Hcl|]. apply Forall_singleton. exact Hn.
Qed.

Lemma run_Since n L sk st es : forall s,
  Since n L sk st s -> Since n L sk st (run s es).
Proof.
  induction es as [|e es IH]; intros s H; [exact H|].
  cbn. apply IH, step_Since, H.
Qed.

(** X13. Once [stopAudio] has run, nothing that was requested before it is
    heard again: whatever happens afterwards, the sink and the [onStart]
    calls grow only by units and calls of requests made after the stop,
    with ids greater than the id that was stopped. *)
Theorem stop_silences_earlier_requests (hasKey blocked : bool)
  (es es' : list Event) :
  let before := run (initial hasKey blocked) es in
  let after := run before (StopAudio :: es') in
  (exists later, sink after = sink before ++ later
     /\ Forall (fun u => (length (tasks before) <= task u)%nat
                         /\ latestTTSId (svc before) < owner u) later)
  /\ (exists calls, speakingStarts after = speakingStarts before ++ calls
        /\ Forall (fun t => (length (tasks before) <= t)%nat) calls).
Proof.
  intros before after.
  pose proof (run_Inv es _ (initial_Inv hasKey blocked)) as Iv.
  fold before in Iv.
  assert (S0 : Since (length (tasks before)) (latestTTSId (svc before))
                 (sink before) (speakingStarts before)
                 (step before StopAudio)).
  { split; cbn.
    - lia.
    - intros t Ht. destruct (lookup_lt_is_Some_2 _ _ Ht) as [k Hk].
      exists k. split; [exact Hk|]. apply (inv_ids _ _ _ _ _ _ Iv t k Hk).
    - exists []. rewrite app_nil_r. split; [reflexivity|constructor].
    - exists []. rewrite app_nil_r. split; [reflexivity|constructor]. }
  destruct (run_Since _ _ _ _ es' _ S0) as [_ _ Hs Hc].
  split; [exact Hs|exact Hc].
Qed.

(** A request stopped while its first chunk is decoded, resumed
    afterwards together with a new request: only the new one is heard. *)
Example stopped_request_is_replaced :
  let es' := aftermath ++
    [PlayTTS (lit "Ok.") true false; Resume 1 Fulfilled; Resume 1 Fulfilled;
     Resume 1 (Next (Inline twoSamples)); Resume 1 Fulfilled] in
  List.map (fun u => (task u, owner u)) (sink (run interrupted es'))
  = [(1%nat, 2)]
  /\ speakingStarts (run interrupted es') = [1%nat].
Proof. vm_compute. auto. Qed.

End Silence.


(* ===================================================================== *)
(** ** The API key *)
(* ===================================================================== *)

Section KeyFacts.
Import JsString Keys.

Lemma initializeGemini_fresh s : upToDate s -> upToDate (initializeGemini s).
Proof.
  intros F. unfold initializeGemini.
  destruct (currentApiKey s) as [|c key] eqn:E; [exact F|].
  intros k Hk. cbn in Hk. injection Hk as <-. cbn. split; [reflexivity|discriminate].
Qed.

Lemma call_fresh s c : saves c = true -> upToDate s -> upToDate (call s c).
Proof.
  intros Hs F. destruct c as [key saved| |]; cbn in *.
  - subst saved. cbn. intros k Hk. discriminate Hk.
  - apply initializeGemini_fresh, F.
  - unfold ensure. destruct (ai s); [exact F|]. apply initializeGemini_fresh, F.
Qed.

Lemma hasApiKey_nonempty s : hasApiKey s = true <-> currentApiKey s <> [].
Proof.
  unfold hasApiKey. destruct (currentApiKey s) as [|c key]; cbn.
  - split; [discriminate|congruence].
  - split; [discriminate|reflexivity].
Qed.

(** X14. As long as every [localStorage.setItem] succeeds, the client is
    never out of date: after any calls of [setApiKey], [initializeGemini]
    and [if (!ai) initializeGemini()], a client that exists was made with
    the current key, which is not empty; and the guard leaves a client
    exactly when [hasApiKey()] holds. *)
Theorem client_uses_current_key (item env : option jsstring)
  (cs : list Call) :
  forallb saves cs = true ->
  let s := calls (load item env) cs in
  (forall k, ai s = Some k -> k = getApiKey s /\ k <> [])
  /\ ai (ensure s) = (if hasApiKey s then Some (getApiKey s) else None).
Proof.
  intros Hs s.
  assert (F : upToDate s).
  { subst s. unfold calls.
    assert (G : forall s0, upToDate s0 -> upToDate (fold_left call cs s0)).
    { induction cs as [|c cs IH]; intros s0 F0; [exact F0|].
      cbn in Hs. apply andb_true_iff in Hs as [Hc Hs].
      cbn. apply (IH Hs). apply call_fresh; assumption. }
    apply G. intros k Hk. discriminate Hk. }
  split; [exact F|].
  unfold ensure. destruct (ai s) as [k|] eqn:Ek.
  - destruct (F k Ek) as [-> Hne].
    apply hasApiKey_nonempty in Hne. rewrite Hne. exact Ek.
  - unfold initializeGemini, hasApiKey, getApiKey.
    destruct (currentApiKey s); [exact Ek|reflexivity].
Qed.

Lemma client_uses_current_key_witness :
  let s := calls (load None (Some (lit "env")))
             [Ensure; SetApiKey (lit "abc") true; InitializeGemini] in
  (forall k, ai s = Some k -> k = getApiKey s /\ k <> [])
  /\ ai (ensure s) = (if hasApiKey s then Some (getApiKey s) else None).
Proof.
  apply (client_uses_current_key None (Some (lit "env"))
           [Ensure; SetApiKey (lit "abc") true; InitializeGemini]).
  reflexivity.
Defined.

(** When [setItem] raises, [ai = null] is not reached: the client keeps
    the old key. *)
Example failed_save_keeps_old_client :
  let s := calls (load (Some (lit "old")) None)
             [Ensure; SetApiKey (lit "new") false; Ensure] in
  getApiKey s = lit "new" /\ ai s = Some (lit "old")
  /\ stored s = Some (lit "old").
Proof. vm_compute. auto. Qed.

(** X15. A key saved in the settings is the one a reload starts with,
    unless it is blank: [handleSaveSettings] stores the trimmed input,
    [getApiKey()] returns it, [hasApiKey()] holds exactly when it is not
    empty, and the next load of the module takes it from the storage if
    it is not empty, and falls back to the environment otherwise. *)
Theorem saved_key_survives_reload (apiKeyInput : jsstring) (s : State)
  (env : option jsstring) :
  let s' := fst (handleSaveSettings apiKeyInput true s) in
  let key := trim apiKeyInput in
  getApiKey s' = key
  /\ ai s' = None
  /\ hasApiKey s' = (if key is [] then false else true)
  /\ getApiKey (load (stored s') env)
     = (if key is [] then orElse env [] else key)
  /\ (hasApiKey s' = true ->
      calls (load (stored s') env) [Ensure]
      = call s' Ensure).
Proof.
  intros s' key. subst s'. unfold handleSaveSettings, setApiKey. cbn [fst].
  fold key. unfold getApiKey, hasApiKey, load. cbn.
  destruct key as [|c k] eqn:E; cbn.
  - repeat split. discriminate.
  - repeat split.
Qed.

End KeyFacts.


(* ===================================================================== *)
(** ** The prompt of an image *)
(* ===================================================================== *)

Section ImageFacts.
Import JsString Image.

(** Induction over a string one or two units at a time, as the scan
    goes. *)
Lemma scan_ind (P : jsstring -> Prop) :
  P [] -> (forall c, P [c]) ->
  (forall c d s, P (d :: s) -> P s -> P (c :: d :: s)) ->
  forall s, P s.
Proof.
  intros H0 H1 H2.
  assert (G : forall s, P s /\ forall c, P (c :: s)).
  { induction s as [|d s [IH1 IH2]]; [auto|].
    split; [apply IH2|]. intros c. apply H2; [apply IH2|exact IH1]. }
  intros s. apply G.
Qed.

Lemma stripEmoji_cons c s :
  stripEmoji (c :: s)
  = if symbol c then stripEmoji s
    else match s with
         | d :: s' => if surrogates c d then stripEmoji s'
                      else c :: stripEmoji s
         | [] => [c]
         end.
Proof. reflexivity. Qed.

Lemma stripEmoji_sublist (s : jsstring) : sublist (stripEmoji s) s.
Proof.
  induction s as [|c|c d s IH1 IH2] using scan_ind.
  - constructor.
  - rewrite stripEmoji_cons. destruct (symbol c).
    + apply sublist_nil_l.
    + reflexivity.
  - rewrite stripEmoji_cons. destruct (symbol c).
    + apply sublist_cons, IH1.
    + destruct (surrogates c d).
      * apply sublist_cons, sublist_cons, IH2.
      * apply sublist_skip, IH1.
Qed.

Lemma stripEmoji_symbol (s : jsstring) :
  Forall (fun c => symbol c = false) (stripEmoji s).
Proof.
  induction s as [|c|c d s IH1 IH2] using scan_ind.
  - constructor.
  - rewrite stripEmoji_cons. destruct (symbol c) eqn:E; repeat constructor. exact E.
  - rewrite stripEmoji_cons. destruct (symbol c) eqn:E; [exact IH1|].
    destruct (surrogates c d); [exact IH2|]. constructor; assumption.
Qed.

Lemma stripEmoji_id (s : jsstring) : hasEmoji s = false -> stripEmoji s = s.
Proof.
  induction s as [|c|c d s IH1 IH2] using scan_ind; intros H.
  - reflexivity.
  - cbn in H. rewrite stripEmoji_cons.
    destruct (symbol c); [discriminate H|reflexivity].
  - cbn [hasEmoji] in H. rewrite stripEmoji_cons.
    destruct (symbol c); [discriminate H|].
    destruct (surrogates c d); [discriminate H|].
    cbn [orb] in H. rewrite (IH1 H). reflexivity.
Qed.

Lemma trimStart_drop (s : jsstring) : exists n, trimStart s = drop n s.
Proof. destruct (trimStart_suffix s) as (n & E & _). eauto. Qed.

Lemma trim_infix (s : jsstring) : exists a b, s = a ++ trim s ++ b.
Proof.
  unfold trim, trimEnd.
  destruct (trimStart_drop s) as [n En].
  destruct (trimStart_drop (rev (trimStart s))) as [m Em].
  exists (take n s), (rev (take m (rev (trimStart s)))).
  rewrite Em, <- rev_app_distr, take_drop, rev_involutive, En, take_drop.
  reflexivity.
Qed.

Lemma trimStart_head (s : jsstring) :
  match trimStart s with [] => True | c :: _ => isWhiteSpace c = false end.
Proof.
  induction s as [|c s IH]; cbn [trimStart]; [exact Logic.I|].
  destruct (isWhiteSpace c) eqn:W; [exact IH|exact W].
Qed.

Lemma trimStart_fix (s : jsstring) :
  match s with [] => True | c :: _ => isWhiteSpace c = false end ->
  trimStart s = s.
Proof. destruct s as [|c s]; [reflexivity|]. cbn. intros ->. reflexivity. Qed.

Lemma trim_trim (s : jsstring) : trim (trim s) = trim s.
Proof.
  assert (H1 : trimStart (trim s) = trim s).
  { apply trimStart_fix. pose proof (trimStart_head s) as Hh.
    unfold trim, trimEnd.
    destruct (trimStart_drop (rev (trimStart s))) as [m Em].
    destruct (rev (trimStart (rev (trimStart s)))) as [|c t] eqn:Et;
      [exact Logic.I|].
    assert (Ep : exists b', trimStart s = (c :: t) ++ b').
    { exists (rev (take m (rev (trimStart s)))).
      rewrite <- Et, Em, <- rev_app_distr, take_drop, rev_involutive.
      reflexivity. }
    destruct Ep as [b' Ep]. rewrite Ep in Hh. exact Hh. }
  unfold trim at 1. rewrite H1. unfold trim, trimEnd.
  rewrite rev_involutive.
  rewrite (trimStart_fix (trimStart _) (trimStart_head _)). reflexivity.
Qed.

Lemma trim_sublist (s : jsstring) : sublist (trim s) s.
Proof.
  destruct (trim_infix s) as (a & b & E). rewrite E at 2.
  apply sublist_inserts_l, sublist_inserts_r. reflexivity.
Qed.

Lemma hasEmoji_app (a b : jsstring) :
  hasEmoji (a ++ b) = false -> hasEmoji a = false /\ hasEmoji b = false.
Proof.
  induction a as [|c a IH]; intros H; [auto|].
  cbn [app hasEmoji] in *.
  apply orb_false_iff in H as [H H3]. apply orb_false_iff in H as [H1 H2].
  destruct (IH H3) as [Ha Hb]. split; [|exact Hb].
  rewrite H1, Ha. destruct a as [|d a]; [reflexivity|].
  cbn in H2. rewrite H2. reflexivity.
Qed.

Lemma hasEmoji_trim (s : jsstring) :
  hasEmoji s = false -> hasEmoji (trim s) = false.
Proof.
  intros H. destruct (trim_infix s) as (a & b & E). rewrite E in H.
  apply hasEmoji_app in H as [_ H]. apply hasEmoji_app in H as [H _]. exact H.
Qed.

(** X16. The cleaning of an image prompt only deletes code units: the
    cleaned prompt is a subsequence of the prompt, it holds no unit of
    the three one-unit ranges of the expression, and a prompt in which
    the expression matches nowhere is only trimmed. *)
Theorem cleaning_only_deletes (prompt : jsstring) :
  sublist (cleanPrompt prompt) prompt
  /\ Forall (fun c => symbol c = false) (cleanPrompt prompt)
  /\ (hasEmoji prompt = false -> cleanPrompt prompt = trim prompt).
Proof.
  unfold cleanPrompt. split; [|split].
  - transitivity (stripEmoji prompt);
      [apply trim_sublist|apply stripEmoji_sublist].
  - apply Forall_forall. intros c Hc.
    pose proof (stripEmoji_symbol prompt) as F. rewrite Forall_forall in F.
    apply F. apply (elem_of_sublist _ _ c Hc), trim_sublist.
  - intros H. rewrite (stripEmoji_id _ H). reflexivity.
Qed.

Lemma isLow_not_lead c d : isLow c = true -> symbol c = false /\ surrogates c d = false.
Proof.
  unfold isLow, symbol, surrogates, inRange. intros H.
  apply andb_true_iff in H as [H1 H2].
  apply Z.leb_le in H1. apply Z.leb_le in H2.
  split.
  - repeat (apply orb_false_iff; split); apply andb_false_iff; rewrite !Z.leb_gt; lia.
  - repeat (apply orb_false_iff; split); apply andb_false_iff; left;
      apply Z.eqb_neq; lia.
Qed.

Lemma surrogates_shape c d :
  surrogates c d = true -> isHigh c = true /\ isLow d = true.
Proof.
  unfold surrogates, isHigh, isLow, inRange. intros H.
  repeat (apply orb_true_iff in H as [H|H]);
    apply andb_true_iff in H as [H1 H2]; apply Z.eqb_eq in H1;
    apply andb_true_iff in H2 as [H2 H3];
    apply Z.leb_le in H2; apply Z.leb_le in H3;
    (split; apply andb_true_iff; split; apply Z.leb_le; lia).
Qed.

(** What the scan leaves of a well-formed string: it is well formed and
    the expression matches nowhere in it. *)
Lemma stripEmoji_wellFormed (s : jsstring) :
  wellFormed s = true ->
  wellFormed (stripEmoji s) = true /\ hasEmoji (stripEmoji s) = false.
Proof.
  induction s as [|c|c d s IH1 IH2] using scan_ind; intros W.
  - auto.
  - rewrite stripEmoji_cons. destruct (symbol c) eqn:E; [auto|].
    split; [exact W|]. cbn. rewrite E. reflexivity.
  - rewrite stripEmoji_cons. cbn [wellFormed] in W.
    destruct (isHigh c) eqn:Hc.
    + (* a pair *)
      apply andb_true_iff in W as [Hd W].
      destruct (IH2 W) as [W2 E2].
      assert (Sc : symbol c = false).
      { unfold isHigh, symbol, inRange in *.
        apply andb_true_iff in Hc as [H1 H2].
        apply Z.leb_le in H1. apply Z.leb_le in H2.
        repeat (apply orb_false_iff; split); apply andb_false_iff;
          rewrite !Z.leb_gt; lia. }
      rewrite Sc. destruct (surrogates c d) eqn:P; [auto|].
      destruct (isLow_not_lead d 0 Hd) as [Sd _].
      assert (Ed : stripEmoji (d :: s) = d :: stripEmoji s).
      { rewrite stripEmoji_cons, Sd. destruct s as [|e s]; [reflexivity|].
        destruct (isLow_not_lead d e Hd) as [_ ->]. reflexivity. }
      rewrite Ed. split.
      * cbn [wellFormed]. rewrite Hc, Hd. exact W2.
      * cbn [hasEmoji]. rewrite Sc, P, Sd, E2. cbn [orb].
        destruct (stripEmoji s) as [|e r]; [reflexivity|].
        destruct (isLow_not_lead d e Hd) as [_ ->]. reflexivity.
    + (* one unit *)
      apply andb_true_iff in W as [Lc W].
      destruct (IH1 W) as [W1 E1].
      destruct (symbol c) eqn:Sc; [auto|].
      assert (P : surrogates c d = false).
      { destruct (surrogates c d) eqn:P; [|reflexivity].
        apply surrogates_shape in P as [P _]. congruence. }
      rewrite P. split.
      * cbn [wellFormed]. rewrite Hc, Lc. exact W1.
      * cbn [hasEmoji]. rewrite Sc, E1.
        destruct (stripEmoji (d :: s)) as [|e r]; [reflexivity|].
        destruct (surrogates c e) eqn:P'; [|reflexivity].
        apply surrogates_shape in P' as [P' _]. congruence.
Qed.

(** X17. In a prompt that is well-formed UTF-16 the cleaning leaves no
    match of the expression: one pass removes every symbol of its
    ranges, and cleaning the cleaned prompt changes nothing. *)
Theorem well_formed_prompt_is_cleaned (prompt : jsstring) :
  wellFormed prompt = true ->
  hasEmoji (cleanPrompt prompt) = false
  /\ cleanPrompt (cleanPrompt prompt) = cleanPrompt prompt.
Proof.
  intros W. destruct (stripEmoji_wellFormed prompt W) as [_ E].
  assert (H : hasEmoji (cleanPrompt prompt) = false)
    by (apply hasEmoji_trim, E).
  split; [exact H|].
  unfold cleanPrompt at 1. rewrite (stripEmoji_id _ H).
  unfold cleanPrompt. apply trim_trim.
Qed.

Lemma well_formed_prompt_is_cleaned_witness :
  let prompt := lit " red " ++ [0xD83C; 0xDF4E; 0x2728] ++ lit " apple " in
  hasEmoji (cleanPrompt prompt) = false
  /\ cleanPrompt (cleanPrompt prompt) = cleanPrompt prompt.
Proof.
  intros prompt. apply (well_formed_prompt_is_cleaned prompt).
  vm_compute. reflexivity.
Defined.

(** The prompt of the witness, cleaned: the symbols are gone, the blanks
    around them stay. *)
Example apple_prompt :
  cleanPrompt (lit " red " ++ [0xD83C; 0xDF4E; 0x2728] ++ lit " apple ")
  = lit "red  apple".
Proof. vm_compute. reflexivity. Qed.

(** With lone surrogates the removal of a pair can bring a high and a
    low surrogate together: a match is left. *)
Example lone_surrogates_leave_a_match :
  let prompt := [0xD83C; 0xD83C; 0xDC00; 0xDC00] in
  wellFormed prompt = false
  /\ cleanPrompt prompt = [0xD83C; 0xDC00]
  /\ hasEmoji (cleanPrompt prompt) = true.
Proof. vm_compute. auto. Qed.

(** X18. [generateImage] returns [null] or a data url with content: there
    is no image without a client, and an image that is returned is the
    prefix [data:image/jpeg;base64,] followed by the bytes of the model,
    which are not empty. When a url is returned and the turn is still the
    current one, the callback gives every message with the id of the turn
    that url as its image and leaves the other messages and all other
    fields as they are; without a url or for a turn that is no longer the
    current one the messages stay as they are. *)
Theorem image_attached_iff_turn_current (client : bool)
  (model : jsstring -> Response) (prompt messageId : jsstring)
  (mySeqId current : Z) (prev : list Chat.Message) :
  let url := generateImage client model prompt in
  let after := Chat.setImage mySeqId current messageId url prev in
  (client = false -> url = None)
  /\ (forall u, url = Some u ->
        exists bytes, model (finalPrompt prompt) = Images (Some bytes)
                      /\ bytes <> [] /\ u = DATA_URL ++ bytes)
  /\ (forall u, url = Some u -> mySeqId = current ->
        length after = length prev
        /\ forall (i : nat) m, prev !! i = Some m ->
             after !! i
             = Some (if bool_decide (Chat.id m = messageId)
                     then {| Chat.id := Chat.id m; Chat.role := Chat.role m;
                             Chat.text := Chat.text m;
                             Chat.timestamp := Chat.timestamp m;
                             Chat.imageUrl := Some u |}
                     else m))
  /\ (url = None \/ mySeqId <> current -> after = prev).
Proof.
  intros url after.
  assert (Hurl : forall u, url = Some u ->
            exists bytes, model (finalPrompt prompt) = Images (Some bytes)
                          /\ bytes <> [] /\ u = DATA_URL ++ bytes).
  { subst url. unfold generateImage. intros u Hu.
    destruct client; [|discriminate].
    destruct (model (finalPrompt prompt)) as [|[[|c bytes]|]]; try discriminate.
    injection Hu as <-. exists (c :: bytes). split; [reflexivity|].
    split; [discriminate|reflexivity]. }
  split; [subst url; intros ->; reflexivity|].
  split; [exact Hurl|].
  split.
  - intros u Hu ->. subst after. rewrite Hu.
    destruct (Hurl u Hu) as (bytes & _ & _ & ->).
    unfold Chat.setImage. rewrite Z.eqb_refl.
    change (Turn.nonEmpty (DATA_URL ++ bytes)) with true. cbn [andb].
    split; [apply length_map|].
    intros i m Hm.
    match goal with |- List.map ?f prev !! i = _ =>
      change (List.map f prev) with (f <$> prev) end.
    rewrite list_lookup_fmap, Hm. reflexivity.
  - intros [Hn|Hn]; subst after.
    + rewrite Hn. reflexivity.
    + unfold Chat.setImage. destruct url; [|reflexivity].
      destruct (Z.eqb_spec mySeqId current); [contradiction|].
      rewrite andb_false_r. reflexivity.
Qed.

(** A conversation of two messages, the second one of the turn: when the
    model returns the bytes [QUJD], the second message gets the url. *)
Lemma image_attached_iff_turn_current_witness :
  let model := fun _ : jsstring => Images (Some (lit "QUJD")) in
  let first := {| Chat.id := lit "1"; Chat.role := Chat.user;
                  Chat.text := lit "cat"; Chat.timestamp := 0;
                  Chat.imageUrl := None |} in
  let second := {| Chat.id := lit "2"; Chat.role := Chat.model;
                   Chat.text := lit "Cat!"; Chat.timestamp := 1;
                   Chat.imageUrl := None |} in
  generateImage true model (lit "cat") = Some (lit "data:image/jpeg;base64,QUJD")
  /\ Chat.setImage 3 3 (lit "2") (generateImage true model (lit "cat"))
       [first; second] !! 1%nat
     = Some {| Chat.id := lit "2"; Chat.role := Chat.model;
               Chat.text := lit "Cat!"; Chat.timestamp := 1;
               Chat.imageUrl := Some (lit "data:image/jpeg;base64,QUJD") |}.
Proof.
  intros model first second.
  assert (E : generateImage true model (lit "cat")
              = Some (lit "data:image/jpeg;base64,QUJD")) by reflexivity.
  split; [exact E|].
  destruct (image_attached_iff_turn_current true model (lit "cat") (lit "2")
              3 3 [first; second]) as (_ & _ & H & _).
  destruct (H _ E eq_refl) as [_ H1].
  rewrite (H1 1%nat second eq_refl). reflexivity.
Defined.

End ImageFacts.


(* ===================================================================== *)
(** ** The words of a game *)
(* ===================================================================== *)

Section WordFacts.
Import Words.
Context {A : Type}.

Lemma insert_Permutation (t : list A) : forall (j : nat) y h,
  t !! j = Some y -> y :: <[j := h]> t ≡ₚ h :: t.
Proof.
  induction t as [|z t IH]; intros j y h H; [rewrite lookup_nil in H; discriminate H|].
  destruct j as [|j]; cbn in *.
  - injection H as ->. apply perm_swap.
  - rewrite perm_swap, (IH j y h H). apply perm_swap.
Qed.

Lemma swap_Permutation (a : list A) : forall (i j : nat) a',
  swap a i j = Some a' -> a' ≡ₚ a /\ length a' = length a.
Proof.
  intros i j a'. unfold swap.
  destruct (a !! i) as [x|] eqn:Hi; [|discriminate].
  destruct (a !! j) as [y|] eqn:Hj; [|discriminate].
  intros [= <-]. split; [|rewrite !length_insert; reflexivity].
  revert i j Hi Hj. induction a as [|h t IH]; intros i j Hi Hj;
    [rewrite lookup_nil in Hi; discriminate Hi|].
  destruct i as [|i], j as [|j]; cbn in *.
  - injection Hi as ->. injection Hj as ->. reflexivity.
  - injection Hi as ->. apply insert_Permutation, Hj.
  - injection Hj as ->. apply insert_Permutation, Hi.
  - apply perm_skip, IH; assumption.
Qed.

Lemma pick_range (r : Q) (i : nat) :
  Double.finite r -> (0 <= r)%Q -> (r < 1)%Q -> 0 <= pick r i <= Z.of_nat i.
Proof.
  intros F H0 H1. unfold pick.
  destruct (round_product_below r (Z.of_nat i + 1) F H0 H1) as [Hl Hu]; [lia|].
  split.
  - change 0 with (Qfloor (inject_Z 0)). apply Qfloor_resp_le. exact Hl.
  - assert (Hlt : (inject_Z (Qfloor (Double.round (r * inject_Z (Z.of_nat i + 1))))
                   < inject_Z (Z.of_nat i + 1))%Q).
    { eapply Qle_lt_trans; [apply Qfloor_le|exact Hu]. }
    rewrite <- Zlt_Qlt in Hlt. lia.
Qed.

(** The value aimed at [j] is a double of the range of [Math.random()],
    and it picks [j]. *)
Lemma pick_aim (j i : nat) :
  (j <= i)%nat -> Z.of_nat i + 1 < 2 ^ 32 ->
  Double.finite (aim j i) /\ (0 <= aim j i)%Q /\ (aim j i < 1)%Q
  /\ pick (aim j i) i = Z.of_nat j.
Proof.
  intros Hj Hi. unfold aim.
  set (n := Z.of_nat i + 1). set (a := Z.of_nat j * 2 ^ 33).
  replace (a + Z.of_nat i) with (a + n - 1) by (subst n; lia).
  set (m := (a + n - 1) / n).
  assert (Hn : 0 < n) by (subst n; lia).
  assert (P33 : 2 ^ 33 = 8589934592) by reflexivity.
  assert (P32 : 2 ^ 32 = 4294967296) by reflexivity.
  assert (Ha : 0 <= a) by (subst a; lia).
  assert (Hdiv : a + n - 1 = n * m + (a + n - 1) mod n)
    by (subst m; apply Z.div_mod; lia).
  pose proof (Z.mod_pos_bound (a + n - 1) n Hn) as Hmod.
  assert (M1 : a <= m * n) by lia.
  assert (M2 : m * n <= a + n - 1) by lia.
  assert (M0 : 0 <= m) by (subst m; apply Z.div_pos; lia).
  assert (M3 : m < 2 ^ 33).
  { assert (m * n < 2 ^ 33 * n); [|nia].
    assert (a <= (n - 1) * 2 ^ 33) by (subst a n; nia). lia. }
  assert (E33 : (Double.pow2 (-33) == 1 # 8589934592)%Q) by reflexivity.
  assert (Q0 : (0 <= inject_Z m)%Q).
  { change 0%Q with (inject_Z 0). rewrite <- Zle_Qle. exact M0. }
  assert (Q3 : (inject_Z m < 8589934592)%Q).
  { change 8589934592%Q with (inject_Z 8589934592). rewrite <- Zlt_Qlt. lia. }
  split.
  { unfold Double.finite. apply round_exact; [|lia].
    rewrite Z.abs_eq by exact M0.
    assert (2 ^ 33 < 2 ^ 53) by reflexivity. lia. }
  split; [rewrite E33; lra|]. split; [rewrite E33; lra|].
  unfold pick. fold n.
  set (x := (inject_Z m * Double.pow2 (-33) * inject_Z n)%Q).
  assert (X1 : (inject_Z (Z.of_nat j) <= x)%Q).
  { subst x. rewrite E33.
    assert (H : (inject_Z a <= inject_Z (m * n))%Q) by (rewrite <- Zle_Qle; exact M1).
    subst a. rewrite !inject_Z_mult in H. rewrite P33 in H.
    change (inject_Z 8589934592) with 8589934592%Q in H. lra. }
  assert (X2 : (x <= inject_Z (2 * Z.of_nat j + 1) * Double.pow2 (-1))%Q).
  { subst x. rewrite E33.
    assert (E1 : (Double.pow2 (-1) == 1 # 2)%Q) by reflexivity. rewrite E1.
    assert (H : (inject_Z (m * n) <= inject_Z (a + n - 1))%Q)
      by (rewrite <- Zle_Qle; exact M2).
    assert (H' : (inject_Z (n - 1) < inject_Z 4294967296)%Q)
      by (rewrite <- Zlt_Qlt; lia).
    subst a. unfold Z.sub in H, H'.
    repeat (rewrite inject_Z_plus in H || rewrite inject_Z_mult in H
            || rewrite inject_Z_opp in H).
    repeat (rewrite inject_Z_plus in H' || rewrite inject_Z_opp in H').
    repeat (rewrite inject_Z_plus || rewrite inject_Z_mult).
    rewrite P33 in H.
    change (inject_Z 8589934592) with 8589934592%Q in H.
    change (inject_Z 4294967296) with 4294967296%Q in H'.
    change (inject_Z 2) with 2%Q. change (inject_Z 1) with 1%Q in *.
    change (inject_Z (-1)) with (-1)%Q in *. lra. }
  assert (R1 : (inject_Z (Z.of_nat j) <= Double.round x)%Q).
  { rewrite <- (round_Z (Z.of_nat j)); [apply round_mono, X1|].
    rewrite Z.abs_eq by lia. assert (2 ^ 32 < 2 ^ 53) by reflexivity. lia. }
  assert (R2 : (Double.round x
                <= inject_Z (2 * Z.of_nat j + 1) * Double.pow2 (-1))%Q).
  { rewrite <- (round_exact (2 * Z.of_nat j + 1) (-1)); [apply round_mono, X2| |lia].
    rewrite Z.abs_eq by lia. assert (2 ^ 34 < 2 ^ 53) by reflexivity. lia. }
  pose proof (Qfloor_le (Double.round x)) as F1.
  pose proof (Qlt_floor (Double.round x)) as F2.
  assert (E1 : (Double.pow2 (-1) == 1 # 2)%Q) by reflexivity. rewrite E1 in R2.
  assert (G1 : (inject_Z (Z.of_nat j) < inject_Z (Qfloor (Double.round x) + 1))%Q) by lra.
  assert (G2 : (inject_Z (Qfloor (Double.round x)) < inject_Z (Z.of_nat j + 1))%Q).
  { rewrite inject_Z_plus in R2 |- *. rewrite inject_Z_mult in R2.
    change (inject_Z 2) with 2%Q in R2. change (inject_Z 1) with 1%Q in *. lra. }
  rewrite <- Zlt_Qlt in G1, G2. lia.
Qed.

Lemma shuffle_Permutation (random : nat -> Q) :
  (forall k, Double.finite (random k) /\ (0 <= random k)%Q /\ (random k < 1)%Q) ->
  forall (i call : nat) (a : list A), (i < length a)%nat ->
  exists a', shuffle i call random a = Some a' /\ a' ≡ₚ a.
Proof.
  intros R. induction i as [|i IH]; intros call a Hi; cbn [shuffle].
  - exists a. split; reflexivity.
  - destruct (R call) as (RF & R0 & R1).
    pose proof (pick_range (random call) (S i) RF R0 R1) as [P0 P1].
    destruct (Z.ltb_spec (pick (random call) (S i)) 0) as [Hneg|_]; [lia|].
    set (j := Z.to_nat (pick (random call) (S i))).
    assert (Hj : (j < length a)%nat) by (subst j; lia).
    destruct (lookup_lt_is_Some_2 a (S i) Hi) as [x Hx].
    destruct (lookup_lt_is_Some_2 a j Hj) as [y Hy].
    assert (Hs : swap a (S i) j = Some (<[j := x]> (<[S i := y]> a))).
    { unfold swap. rewrite Hx, Hy. reflexivity. }
    rewrite Hs. destruct (swap_Permutation a (S i) j _ Hs) as [Hp Hl].
    destruct (IH (S call) (<[j := x]> (<[S i := y]> a))) as (a' & Ha & Hp');
      [rewrite Hl; lia|].
    exists a'. split; [exact Ha|]. rewrite Hp'. exact Hp.
Qed.

(** X19. With [Math.random()] a double in its range [0 <= r < 1] and a
    pool of fewer than 2^32 words, as every array has,
    [getRandomWords(count)] returns the first [count] words of a
    rearrangement of the pool: [min(count, pool.length)] words of the
    pool, each of them as often as the pool has it at most, so without
    repetition when the pool has none. *)
Theorem getRandomWords_draws_from_pool (pool : list A) (random : nat -> Q)
  (count : nat) :
  Z.of_nat (length pool) < 2 ^ 32 ->
  (forall k, Double.finite (random k) /\ (0 <= random k)%Q /\ (random k < 1)%Q) ->
  exists words shuffled,
    getRandomWords pool random count = Some words
    /\ shuffled ≡ₚ pool
    /\ words = take count shuffled
    /\ length words = Nat.min count (length pool)
    /\ (forall w, w ∈ words -> w ∈ pool)
    /\ (NoDup pool -> NoDup words).
Proof.
  intros _ R. unfold getRandomWords.
  assert (H : exists a', shuffle (length pool - 1) 0 random pool = Some a'
                         /\ a' ≡ₚ pool).
  { destruct pool as [|w pool]; [exists []; cbn; auto|].
    apply (shuffle_Permutation random R). cbn. lia. }
  destruct H as (a' & -> & Hp). exists (take count a'), a'. cbn.
  split; [reflexivity|]. split; [exact Hp|]. split; [reflexivity|].
  split; [rewrite length_take, (Permutation_length Hp); reflexivity|].
  split.
  - intros w Hw. rewrite <- Hp.
    apply (elem_of_sublist (take count a')); [exact Hw|apply sublist_take].
  - intros N. rewrite <- Hp in N.
    apply (sublist_NoDup _ a' N), sublist_take.
Qed.

Lemma shuffle_shift (random : nat -> Q) : forall (i call : nat) (a : list A),
  shuffle i (S call) random a = shuffle i call (fun k => random (S k)) a.
Proof.
  induction i as [|i IH]; intros call a; [reflexivity|].
  cbn [shuffle]. destruct (_ <? 0); [reflexivity|].
  destruct (swap a (S i) _); [apply IH|reflexivity].
Qed.

(** The loop below [i] leaves what lies above [i] alone. *)
Lemma shuffle_frame (random : nat -> Q) (c : list A) :
  (forall k, Double.finite (random k) /\ (0 <= random k)%Q /\ (random k < 1)%Q) ->
  forall (i call : nat) (b : list A), (i < length b)%nat ->
  shuffle i call random (b ++ c) = (fun l => l ++ c) <$> shuffle i call random b.
Proof.
  intros R. induction i as [|i IH]; intros call b Hi; [reflexivity|].
  cbn [shuffle]. destruct (R call) as (RF & R0 & R1).
  pose proof (pick_range (random call) (S i) RF R0 R1) as [P0 P1].
  destruct (Z.ltb_spec (pick (random call) (S i)) 0) as [Hneg|_]; [lia|].
  set (j := Z.to_nat (pick (random call) (S i))).
  assert (Hj : (j < length b)%nat) by (subst j; lia).
  destruct (lookup_lt_is_Some_2 b (S i) Hi) as [x Hx].
  destruct (lookup_lt_is_Some_2 b j Hj) as [y Hy].
  unfold swap. rewrite !lookup_app_l by assumption. rewrite Hx, Hy.
  rewrite insert_app_l by assumption.
  rewrite insert_app_l by (rewrite length_insert; assumption).
  apply IH. rewrite !length_insert. lia.
Qed.

(** X20. The shuffle can give every order of a pool of fewer than 2^32
    words: for each rearrangement of the pool there are doubles in
    [0 <= r < 1], multiples of 2^-33, with which as values of
    [Math.random()] the loop of [getRandomWords] ends with that
    rearrangement, so that the call returns its first [count] words. *)
Theorem every_order_can_be_drawn (order pool : list A) (count : nat) :
  order ≡ₚ pool -> Z.of_nat (length pool) < 2 ^ 32 ->
  exists random,
    (forall k, Double.finite (random k) /\ (0 <= random k)%Q /\ (random k < 1)%Q)
    /\ shuffle (length pool - 1) 0 random pool = Some order
    /\ getRandomWords pool random count = Some (take count order).
Proof.
  intros Hp Hsize.
  assert (Z0 : Double.finite 0 /\ (0 <= 0)%Q /\ (0 < 1)%Q).
  { split; [exact finite_0|]. split; [discriminate|reflexivity]. }
  assert (G : exists random,
            (forall k, Double.finite (random k) /\ (0 <= random k)%Q
                       /\ (random k < 1)%Q)
            /\ shuffle (length pool - 1) 0 random pool = Some order).
  { revert pool Hp Hsize.
    induction order as [|x p IH] using rev_ind; intros pool Hp Hsize.
    - apply Permutation_nil_l in Hp. subst pool. exists (fun _ => 0%Q).
      split; [intros _; exact Z0|reflexivity].
    - destruct p as [|p0 p'].
      { cbn in Hp. apply Permutation_singleton_l in Hp. subst pool.
        exists (fun _ => 0%Q).
        split; [intros _; exact Z0|reflexivity]. }
      pose proof (Permutation_length Hp) as Hlen. rewrite length_app in Hlen.
      cbn [length] in Hlen.
      set (i := length p') in *.
      set (p := p0 :: p') in *.
      assert (Hn : length pool = S (S i)) by lia.
      assert (Hx : x ∈ pool).
      { rewrite <- Hp. apply elem_of_app. right. apply list_elem_of_singleton.
        reflexivity. }
      apply list_elem_of_lookup_1 in Hx as [j Hj].
      pose proof (lookup_lt_Some _ _ _ Hj) as Hjn.
      destruct (lookup_lt_is_Some_2 pool (S i)) as [y Hy]; [lia|].
      set (pool1 := <[j := y]> (<[S i := x]> pool)).
      assert (Hs : swap pool (S i) j = Some pool1).
      { unfold swap. rewrite Hy, Hj. reflexivity. }
      destruct (swap_Permutation pool (S i) j pool1 Hs) as [Hp1 Hl1].
      assert (Hlast : pool1 !! S i = Some x).
      { subst pool1. destruct (decide (j = S i)) as [->|Hne].
        - rewrite list_lookup_insert_eq by (rewrite length_insert; lia).
          congruence.
        - rewrite list_lookup_insert_ne by exact Hne.
          rewrite list_lookup_insert_eq by lia. reflexivity. }
      set (b := take (S i) pool1).
      assert (Eb : pool1 = b ++ [x]).
      { subst b. rewrite <- (take_drop (S i) pool1) at 1. f_equal.
        apply list_eq. intros [|k].
        - rewrite lookup_drop, Nat.add_0_r. exact Hlast.
        - rewrite lookup_drop. cbn. apply lookup_ge_None. lia. }
      assert (Hb : length b = S i).
      { subst b. rewrite length_take. lia. }
      assert (Hpb : p ≡ₚ b).
      { apply (Permutation_app_inv_r [x]). rewrite <- Eb, Hp1. exact Hp. }
      destruct (IH b Hpb) as (random' & R' & S'); [lia|].
      rewrite Hb in S'. replace (S i - 1)%nat with i in S' by lia.
      exists (fun k => match k with
                       | O => aim j (S i)
                       | S k' => random' k'
                       end).
      destruct (pick_aim j (S i)) as (AF & A0 & A1 & Apick); [lia|lia|].
      split.
      + intros [|k]; [|apply R']. auto.
      + rewrite Hn. replace (S (S i) - 1)%nat with (S i) by lia.
        cbn [shuffle]. rewrite Apick.
        destruct (Z.ltb_spec (Z.of_nat j) 0) as [Hneg|_]; [lia|].
        rewrite Nat2Z.id, Hs.
        rewrite (shuffle_shift _ i 0 pool1).
        change (shuffle i 0 random' pool1 = Some (p ++ [x])). rewrite Eb.
        rewrite (shuffle_frame random' [x] R' i 0 b) by lia.
        rewrite S'. reflexivity. }
  destruct G as (random & R & S). exists random.
  split; [exact R|]. split; [exact S|].
  unfold getRandomWords. rewrite S. reflexivity.
Qed.

End WordFacts.

Section WordExamples.
Import Words.

Lemma getRandomWords_draws_from_pool_witness :
  exists words shuffled,
    getRandomWords [1; 2; 3; 4; 5; 6; 7] (fun _ => 1 # 2) 5 = Some words
    /\ shuffled ≡ₚ [1; 2; 3; 4; 5; 6; 7]
    /\ words = take 5 shuffled
    /\ length words = Nat.min 5 (length [1; 2; 3; 4; 5; 6; 7])
    /\ (forall w, w ∈ words -> w ∈ [1; 2; 3; 4; 5; 6; 7])
    /\ (NoDup [1; 2; 3; 4; 5; 6; 7] -> NoDup words).
Proof.
  apply (getRandomWords_draws_from_pool [1; 2; 3; 4; 5; 6; 7] (fun _ => 1 # 2) 5).
  - reflexivity.
  - intros _. split; [vm_compute; reflexivity|]. split; [discriminate|reflexivity].
Defined.

(** The draw of the witness. *)
Example five_of_seven :
  getRandomWords [1; 2; 3; 4; 5; 6; 7] (fun _ => 1 # 2) 5
  = Some [1; 6; 2; 5; 3].
Proof. vm_compute. reflexivity. Qed.

(** The product is rounded before it is floored: with the double nearest
    to 0.7 the index picked among ten is 7, although the exact product
    is below 7; and with the double nearest to 0.6 the index picked among
    five is 3. *)
Example rounded_before_floored :
  pick (Double.round (7 # 10)) 9 = 7
  /\ Qfloor (Double.round (7 # 10) * 10) = 6
  /\ pick (Double.round (6 # 10)) 4 = 3
  /\ Qfloor (Double.round (6 # 10) * 5) = 2.
Proof. vm_compute. auto. Qed.

Lemma every_order_can_be_drawn_witness :
  exists random,
    (forall k, Double.finite (random k) /\ (0 <= random k)%Q /\ (random k < 1)%Q)
    /\ shuffle (length [1; 2; 3] - 1) 0 random [1; 2; 3] = Some [3; 1; 2]
    /\ getRandomWords [1; 2; 3] random 2 = Some (take 2 [3; 1; 2]).
Proof.
  apply (every_order_can_be_drawn [3; 1; 2] [1; 2; 3] 2).
  - change [3; 1; 2] with ([3] ++ [1; 2]). change [1; 2; 3] with ([1; 2] ++ [3]).
    apply Permutation_app_comm.
  - reflexivity.
Defined.

End WordExamples.
